(** * thinkforce-mcp: the tool handlers, embedded and verified

    A shallow embedding of the tool handlers of the server
    ([src/core/tools.ts], the two versions of [src/tools/instagramTools.ts]
    and the adapter [src/instagram.ts]) together with the part of the
    JavaScript runtime they rest on: strings, numbers, [JSON.parse] and
    [JSON.stringify], the schemas of zod, the file system and the network.

    Conventions.
    - A JavaScript string is its sequence of UTF-16 code units, [list N].
    - A handler that can throw returns an [outcome]; a handler that touches
      the network or the file system is a computation in the monad [M] of
      module [Sys], which threads the machine state and records every
      external call in a trace. What the outside answers (the login, a
      download, the publication) is read from a [world].
    - Runtime built-ins whose tables are not part of the repository (case
      mapping, the rendering of binary64 numbers, random sources) are
      Section variables.
    - Each module states its definitions first and its properties after
      them; the properties of the Instagram tools, which span several
      modules, are in [InstagramFacts] at the end. *)

From Stdlib Require Import ZArith NArith Floats Lia List Ascii String.
From stdpp Require Import base option list gmap sets strings.

Set Default Proof Using "Type".

(* ===================================================================== *)
(** * The JavaScript runtime: strings, exceptions *)
(* ===================================================================== *)

Module JS.

(** A string is a list of UTF-16 code units. *)
Abbreviation js_string := (list N).

(** An ASCII literal of the source as a JavaScript string. *)
Definition lit (s : string) : js_string :=
  (fun a => N_of_ascii a) <$> list_ascii_of_string s.

(** The exceptions the handlers and the runtime raise, by constructor name;
    each carries its [message]. *)
Inductive exn : Type :=
  | Error (msg : js_string)
  | SyntaxError (msg : js_string)
  | RangeError (msg : js_string)
  | TypeError (msg : js_string)
  | ZodError (msg : js_string).

Definition message (e : exn) : js_string :=
  match e with
  | Error m | SyntaxError m | RangeError m | TypeError m | ZodError m => m
  end.

(** What evaluating a handler body gives: a value, or a thrown exception
    (for an [async] handler: the promise resolves, or rejects). *)
Inductive outcome (A : Type) : Type :=
  | Return (a : A)
  | Throw (e : exn).
Arguments Return {A} a.
Arguments Throw {A} e.

Definition is_return {A} (o : outcome A) : bool :=
  match o with Return _ => true | Throw _ => false end.

(** Sequencing, [x ← o; k]: a [Throw] ends the evaluation. *)
#[global] Instance outcome_ret : MRet outcome := fun A a => Return a.
#[global] Instance outcome_bind : MBind outcome := fun A B k o =>
  match o with
  | Return a => k a
  | Throw e => Throw e
  end.

#[global] Instance exn_eq_dec : EqDecision exn.
Proof. solve_decision. Defined.

(** ** String built-ins *)

(** [s.split(sep)] for a one-unit separator: the pieces between the
    occurrences of [sep]; the empty string gives one empty piece. *)
Fixpoint split_on (sep : N) (s : js_string) : list js_string :=
  match s with
  | [] => [[]]
  | c :: s' =>
      if N.eqb c sep then [] :: split_on sep s'
      else match split_on sep s' with
           | [] => [[c]]
           | p :: ps => (c :: p) :: ps
           end
  end.

(** [s.split('')]: one string per code unit. *)
Definition split_units (s : js_string) : list js_string :=
  (fun c => [c]) <$> s.

(** [parts.join(sep)]. *)
Fixpoint join (sep : js_string) (parts : list js_string) : js_string :=
  match parts with
  | [] => []
  | [p] => p
  | p :: ps => p ++ sep ++ join sep ps
  end.

(** [s.charAt(0)] and [s.slice(1)]. *)
Definition charAt0 (s : js_string) : js_string := take 1 s.
Definition slice1 (s : js_string) : js_string := drop 1 s.

(** White space and line terminators of ECMAScript ([\s], [trim]). *)
Definition is_space (c : N) : bool :=
  ((9 <=? c) && (c <=? 13) || (c =? 32) || (c =? 160) || (c =? 5760)
   || (8192 <=? c) && (c <=? 8202) || (c =? 8232) || (c =? 8233)
   || (c =? 8239) || (c =? 8287) || (c =? 12288) || (c =? 65279))%N.

Fixpoint trim_start (s : js_string) : js_string :=
  match s with
  | c :: s' => if is_space c then trim_start s' else s
  | [] => []
  end.

Definition trim (s : js_string) : js_string :=
  reverse (trim_start (reverse (trim_start s))).

(** [s.split(/\s+/)]: the pieces between maximal runs of white space.
    [in_run] tells that the previous unit was white space. *)
Fixpoint split_spaces_from (in_run : bool) (s : js_string) : list js_string :=
  match s with
  | [] => [[]]
  | c :: s' =>
      if is_space c then
        if in_run then split_spaces_from true s'
        else [] :: split_spaces_from true s'
      else match split_spaces_from false s' with
           | [] => [[c]]
           | p :: ps => (c :: p) :: ps
           end
  end.

Definition split_spaces (s : js_string) : list js_string :=
  split_spaces_from false s.

(** The line feed, ['\n']. *)
Definition newline : js_string := [10%N].

(** ** Decimal rendering of integers ([String(n)] for an integer [n]) *)

Definition digit_unit (d : N) : N := (48 + d)%N.

Fixpoint digits_fuel (fuel : nat) (n : N) (acc : js_string) : js_string :=
  match fuel with
  | O => acc
  | S fuel' =>
      let acc' := digit_unit (n mod 10) :: acc in
      if (n / 10 =? 0)%N then acc' else digits_fuel fuel' (n / 10) acc'
  end.

(** The decimal digits of [n], most significant first, no leading zero. *)
Definition digits_of_N (n : N) : js_string :=
  digits_fuel (S (N.to_nat (N.log2 n))) n [].

Definition string_of_Z (z : Z) : js_string :=
  match z with
  | Zneg p => 45%N :: digits_of_N (Npos p)
  | _ => digits_of_N (Z.to_N z)
  end.

End JS.

(* ===================================================================== *)
(** * The JavaScript runtime: numbers *)
(* ===================================================================== *)

(** Numbers outside [calculate] are modelled by their exact decimal value,
    [(-1)^neg * m * 10^e], extended with the two infinities, NaN and the
    sign of zero. Rounding to binary64 is not modelled: every decimal is
    its own number, and the operations below are exact: [add], [sub] and
    [mul] neither round nor overflow to an infinity. A property of the
    code that rests on them bounds its operands to where binary64 agrees.
    The sign of a zero that an operation produces is not tracked (it is
    [+0]). *)
Module Num.
Import JS.

Inductive number : Type :=
  | Fin (neg : bool) (m : N) (e : Z)
  | Inf (neg : bool)
  | NaN.

#[global] Instance number_eq_dec : EqDecision number.
Proof. solve_decision. Defined.

(** Strip the trailing zeros of a mantissa, at most [fuel] of them. *)
Fixpoint strip_zeros (fuel : nat) (m : N) (e : Z) : N * Z :=
  match fuel with
  | O => (m, e)
  | S fuel' =>
      if (m mod 10 =? 0)%N then strip_zeros fuel' (m / 10)%N (e + 1)%Z
      else (m, e)
  end.

(** The canonical finite number of sign [neg] and value [m * 10^e]: no
    trailing zero in the mantissa, exponent [0] for zero. *)
Definition finite (neg : bool) (m : N) (e : Z) : number :=
  if (m =? 0)%N then Fin neg 0 0
  else let '(m', e') := strip_zeros (N.to_nat (N.log2 m)) m e in Fin neg m' e'.

Definition canonical (x : number) : Prop :=
  match x with
  | Fin _ m e => (m = 0%N /\ e = 0%Z) \/ (m mod 10 <> 0)%N
  | _ => True
  end.

(** The signed mantissa. *)
Definition signed (neg : bool) (m : N) : Z :=
  if neg then (- Z.of_N m)%Z else Z.of_N m.

Definition of_signed (s e : Z) : number :=
  finite (s <? 0)%Z (Z.abs_N s) e.

Definition of_Z (z : Z) : number := of_signed z 0.

(** The [length] of an array or of a string, as a number. *)
Definition number_of_length {A} (l : list A) : number :=
  of_Z (Z.of_nat (length l)).

(** [s * 10^(e - e0)], for [e0 <= e]: the mantissa at the smaller exponent. *)
Definition scaled (s e e0 : Z) : Z := (s * 10 ^ (e - e0))%Z.

(** The order between a number and an integer; [None] for NaN. The
    handlers compare numbers with integer constants and integer counters
    only. *)
Definition compare_Z (x : number) (z : Z) : option comparison :=
  match x with
  | NaN => None
  | Inf neg => Some (if neg then Lt else Gt)
  | Fin neg m e =>
      Some (if (0 <=? e)%Z then (signed neg m * 10 ^ e ?= z)%Z
            else (signed neg m ?= z * 10 ^ (- e))%Z)
  end.

(** [x < z], [z < x], [x <= z], [z <= x] and [x === z] for an integer [z];
    all false for NaN. *)
Definition lt_Z (x : number) (z : Z) : bool :=
  match compare_Z x z with Some Lt => true | _ => false end.
Definition Z_lt (z : Z) (x : number) : bool :=
  match compare_Z x z with Some Gt => true | _ => false end.
Definition le_Z (x : number) (z : Z) : bool :=
  match compare_Z x z with Some Lt | Some Eq => true | _ => false end.
Definition Z_le (z : Z) (x : number) : bool :=
  match compare_Z x z with Some Gt | Some Eq => true | _ => false end.
Definition strict_equal_Z (x : number) (z : Z) : bool :=
  match compare_Z x z with Some Eq => true | _ => false end.

(** [ToBoolean]: zero and NaN are falsy. *)
Definition truthy (x : number) : bool :=
  match x with
  | Fin _ m _ => negb (m =? 0)%N
  | Inf _ => true
  | NaN => false
  end.

(** [Number.isInteger]. *)
Definition isInteger (x : number) : bool :=
  match x with
  | Fin _ m e => (m =? 0)%N || (0 <=? e)%Z
  | _ => false
  end.

Definition opp (x : number) : number :=
  match x with
  | Fin neg m e => Fin (negb neg) m e
  | Inf neg => Inf (negb neg)
  | NaN => NaN
  end.

Definition add (x y : number) : number :=
  match x, y with
  | NaN, _ | _, NaN => NaN
  | Inf nx, Inf ny => if Bool.eqb nx ny then Inf nx else NaN
  | Inf nx, Fin _ _ _ => Inf nx
  | Fin _ _ _, Inf ny => Inf ny
  | Fin nx mx ex, Fin ny my ey =>
      let e0 := Z.min ex ey in
      of_signed (scaled (signed nx mx) ex e0 + scaled (signed ny my) ey e0) e0
  end.

Definition sub (x y : number) : number := add x (opp y).

Definition mul (x y : number) : number :=
  match x, y with
  | NaN, _ | _, NaN => NaN
  | Inf nx, Inf ny => Inf (xorb nx ny)
  | Inf nx, Fin ny my _ => if (my =? 0)%N then NaN else Inf (xorb nx ny)
  | Fin nx mx _, Inf ny => if (mx =? 0)%N then NaN else Inf (xorb nx ny)
  | Fin nx mx ex, Fin ny my ey => finite (xorb nx ny) (mx * my) (ex + ey)
  end.

(** [Math.floor]. *)
Definition floor (x : number) : number :=
  match x with
  | Fin neg m e =>
      if (0 <=? e)%Z then x
      else of_signed (signed neg m / 10 ^ (- e)) 0
  | _ => x
  end.

(** [ToIntegerOrInfinity], where it is finite: NaN gives [0], a finite
    number is truncated toward zero. *)
Definition to_integer (x : number) : option Z :=
  match x with
  | NaN => Some 0%Z
  | Inf _ => None
  | Fin neg m e =>
      Some (if (0 <=? e)%Z then signed neg m * 10 ^ e
            else Z.quot (signed neg m) (10 ^ (- e)))%Z
  end.

(** ** [Number::toString], radix 10 *)

Definition zeros (n : nat) : js_string := replicate n 48%N.

(** The digits [s] of the mantissa and the position [n] of the decimal
    point ([value = 0.s * 10^n]), laid out as ECMAScript does. *)
Definition layout (s : js_string) (n : Z) : js_string :=
  let k := Z.of_nat (length s) in
  if ((k <=? n) && (n <=? 21))%Z then
    s ++ zeros (Z.to_nat (n - k))
  else if ((0 <? n) && (n <=? 21))%Z then
    take (Z.to_nat n) s ++ lit "." ++ drop (Z.to_nat n) s
  else if ((-6 <? n) && (n <=? 0))%Z then
    lit "0." ++ zeros (Z.to_nat (- n)) ++ s
  else
    let exponent :=
      (if (0 <=? n - 1)%Z then lit "+" else lit "-")
        ++ digits_of_N (Z.abs_N (n - 1)) in
    match s with
    | [d] => [d] ++ lit "e" ++ exponent
    | _ => take 1 s ++ lit "." ++ drop 1 s ++ lit "e" ++ exponent
    end.

Definition toString (x : number) : js_string :=
  match x with
  | NaN => lit "NaN"
  | Inf neg => (if neg then lit "-" else []) ++ lit "Infinity"
  | Fin neg m e =>
      if (m =? 0)%N then lit "0"
      else
        let s := digits_of_N m in
        (if neg then lit "-" else [])
          ++ layout s (Z.of_nat (length s) + e)
  end.

(** The least integer not below a finite number: the number of turns of a
    counting loop that runs while the counter is below it. *)
Definition ceiling (neg : bool) (m : N) (e : Z) : Z :=
  if (0 <=? e)%Z then signed neg m * 10 ^ e
  else - ((- signed neg m) / 10 ^ (- e)).

(** ** Facts about the order *)

Lemma strip_zeros_spec fuel m e :
  ∃ k : nat, (strip_zeros fuel m e).2 = (e + Z.of_nat k)%Z
             ∧ m = ((strip_zeros fuel m e).1 * 10 ^ N.of_nat k)%N.
Proof.
  revert m e. induction fuel as [|fuel IH]; intros m e; simpl.
  - exists 0%nat. split; [lia|]. rewrite N.pow_0_r. lia.
  - destruct (N.eqb_spec (m mod 10) 0) as [Hz|Hz].
    + destruct (IH (m / 10)%N (e + 1)%Z) as (k & He & Hm).
      exists (S k). split; [lia|].
      rewrite Nat2N.inj_succ, N.pow_succ_r'.
      pose proof (N.div_mod m 10 ltac:(lia)) as Hdm. rewrite Hz in Hdm.
      rewrite Hdm at 1. rewrite Hm at 1. lia.
    + exists 0%nat. simpl. split; [lia|]. rewrite N.pow_0_r. lia.
Qed.

Lemma signed_mul neg a b : signed neg (a * b) = (signed neg a * Z.of_N b)%Z.
Proof. unfold signed. destruct neg; lia. Qed.

Lemma signed_abs (n : Z) : signed (n <? 0)%Z (Z.abs_N n) = n.
Proof. unfold signed. destruct (Z.ltb_spec n 0); lia. Qed.

Lemma compare_scale (a b p : Z) : (0 < p)%Z → (a * p ?= b * p)%Z = (a ?= b)%Z.
Proof.
  intros Hp.
  destruct (Z.compare_spec a b) as [->|Hlt|Hgt].
  - apply Z.compare_refl.
  - apply Z.compare_lt_iff. nia.
  - apply Z.compare_gt_iff. nia.
Qed.

(** Moving powers of ten between mantissa and exponent keeps the order. *)
Lemma compare_Z_scale neg m e (k : nat) z :
  compare_Z (Fin neg (m * 10 ^ N.of_nat k) e) z
  = compare_Z (Fin neg m (e + Z.of_nat k)) z.
Proof.
  unfold compare_Z. f_equal. rewrite signed_mul.
  rewrite N2Z.inj_pow, nat_N_Z. change (Z.of_N 10) with 10%Z.
  set (s := signed neg m). set (K := Z.of_nat k).
  assert (0 <= K)%Z by lia.
  assert (0 < 10 ^ K)%Z by (apply Z.pow_pos_nonneg; lia).
  destruct (Z.leb_spec 0 e) as [He|He].
  - rewrite (proj2 (Z.leb_le 0 (e + K)) ltac:(lia)).
    rewrite Z.pow_add_r by lia. f_equal. lia.
  - destruct (Z.leb_spec 0 (e + K)) as [He'|He'].
    + replace K with ((e + K) + (- e))%Z at 1 by lia.
      rewrite Z.pow_add_r by lia.
      rewrite Z.mul_assoc. apply compare_scale.
      apply Z.pow_pos_nonneg; lia.
    + replace (- e)%Z with (- (e + K) + K)%Z by lia.
      rewrite Z.pow_add_r by lia. rewrite Z.mul_assoc. by apply compare_scale.
Qed.

Lemma compare_Z_finite neg m e z :
  compare_Z (finite neg m e) z = compare_Z (Fin neg m e) z.
Proof.
  unfold finite. destruct (N.eqb_spec m 0) as [->|Hm].
  - unfold compare_Z. f_equal.
    replace (signed neg 0) with 0%Z by (by destruct neg).
    destruct (Z.leb_spec 0 e); simpl (0 <=? 0)%Z; cbv iota.
    + by rewrite !Z.mul_0_l.
    + rewrite Z.mul_0_l. simpl (10 ^ 0)%Z.
      by rewrite <- (compare_scale 0 z (10 ^ (- e)))
        by (apply Z.pow_pos_nonneg; lia).
  - destruct (strip_zeros_spec (N.to_nat (N.log2 m)) m e) as (k & He & Hk).
    destruct (strip_zeros _ m e) as [m' e']. cbn [fst snd] in *. subst e'.
    by rewrite <- compare_Z_scale, <- Hk.
Qed.

Lemma compare_Z_of_Z n z : compare_Z (of_Z n) z = Some (n ?= z)%Z.
Proof.
  unfold of_Z, of_signed. rewrite compare_Z_finite. unfold compare_Z.
  simpl (0 <=? 0)%Z. cbv iota. rewrite signed_abs. f_equal. f_equal. lia.
Qed.

Lemma Z_lt_ceiling i neg m e :
  Z_lt i (Fin neg m e) = true ↔ (i < ceiling neg m e)%Z.
Proof.
  unfold Z_lt, compare_Z, ceiling. set (s := signed neg m).
  destruct (Z.leb_spec 0 e) as [He|He].
  - destruct (Z.compare_spec (s * 10 ^ e) i); split; intros; try done; lia.
  - assert (Hp : (0 < 10 ^ (- e))%Z) by (apply Z.pow_pos_nonneg; lia).
    set (p := (10 ^ (- e))%Z) in *.
    pose proof (Z.div_mod (- s) p ltac:(lia)) as Hdm.
    pose proof (Z.mod_pos_bound (- s) p Hp) as Hr.
    destruct (Z.compare_spec s (i * p)); split; intros; try done; nia.
Qed.

(** Integers as numbers. *)
Lemma of_Z_Fin n :
  ∃ neg m e, of_Z n = Fin neg m e ∧ (0 ≤ e)%Z ∧ (signed neg m * 10 ^ e)%Z = n.
Proof.
  unfold of_Z, of_signed, finite.
  destruct (N.eqb_spec (Z.abs_N n) 0) as [H0|H0].
  - eexists _, _, _. split; [done|]. split; [done|]. unfold signed. simpl.
    destruct (n <? 0)%Z; lia.
  - destruct (strip_zeros_spec (N.to_nat (N.log2 (Z.abs_N n))) (Z.abs_N n) 0)
      as (k & He & Hk).
    destruct (strip_zeros _ _ _) as [m' e']. cbn [fst snd] in *.
    eexists _, _, _. split; [done|]. split; [lia|]. subst e'.
    rewrite Z.add_0_l.
    rewrite <- (signed_abs n) at 2. rewrite Hk, signed_mul.
    by rewrite N2Z.inj_pow, nat_N_Z.
Qed.

Lemma of_Z_finite n : ∃ neg m e, of_Z n = Fin neg m e ∧ ceiling neg m e = n.
Proof.
  destruct (of_Z_Fin n) as (neg & m & e & H & He & Hn).
  exists neg, m, e. split; [done|]. unfold ceiling.
  by rewrite (proj2 (Z.leb_le 0 e) He).
Qed.

Lemma to_integer_of_Z n : to_integer (of_Z n) = Some n.
Proof.
  destruct (of_Z_Fin n) as (neg & m & e & -> & He & Hn).
  unfold to_integer. by rewrite (proj2 (Z.leb_le 0 e) He), Hn.
Qed.

Lemma isInteger_of_Z n : isInteger (of_Z n) = true.
Proof.
  destruct (of_Z_Fin n) as (neg & m & e & -> & He & _).
  unfold isInteger. by rewrite (proj2 (Z.leb_le 0 e) He), orb_true_r.
Qed.

Lemma Z_lt_of_Z a n : Z_lt a (of_Z n) = bool_decide (a < n)%Z.
Proof.
  unfold Z_lt. rewrite compare_Z_of_Z.
  destruct (Z.compare_spec n a); case_bool_decide; done || lia.
Qed.

Lemma lt_Z_of_Z n a : lt_Z (of_Z n) a = bool_decide (n < a)%Z.
Proof.
  unfold lt_Z. rewrite compare_Z_of_Z.
  destruct (Z.compare_spec n a); case_bool_decide; done || lia.
Qed.

Lemma Z_le_of_Z a n : Z_le a (of_Z n) = bool_decide (a ≤ n)%Z.
Proof.
  unfold Z_le. rewrite compare_Z_of_Z.
  destruct (Z.compare_spec n a); case_bool_decide; done || lia.
Qed.

Lemma le_Z_of_Z n a : le_Z (of_Z n) a = bool_decide (n ≤ a)%Z.
Proof.
  unfold le_Z. rewrite compare_Z_of_Z.
  destruct (Z.compare_spec n a); case_bool_decide; done || lia.
Qed.

Lemma strict_equal_Z_of_Z n a : strict_equal_Z (of_Z n) a = bool_decide (n = a).
Proof.
  unfold strict_equal_Z. rewrite compare_Z_of_Z.
  destruct (Z.compare_spec n a); case_bool_decide; done || lia.
Qed.

End Num.

(* ===================================================================== *)
(** * The JavaScript runtime: JSON values and objects *)
(* ===================================================================== *)

Module Json.
Import JS.
Export Num.

#[local] Set Warnings "-register-all".

(** The values [JSON.parse] builds. An object is the list of its own
    properties in enumeration order. *)
Inductive value : Type :=
  | JNull
  | JBool (b : bool)
  | JNum (x : number)
  | JStr (s : js_string)
  | JArr (items : list value)
  | JObj (fields : list (js_string * value)).

(** The value of a string of decimal digits, if it is one. *)
Fixpoint N_of_digits_from (acc : N) (s : js_string) : option N :=
  match s with
  | [] => Some acc
  | c :: s' =>
      if ((48 <=? c) && (c <=? 57))%N
      then N_of_digits_from (10 * acc + (c - 48))%N s'
      else None
  end.

Definition N_of_digits (s : js_string) : option N :=
  match s with
  | [] => None
  | _ => N_of_digits_from 0 s
  end.

(** An array index is a property key that is the canonical decimal of an
    integer below [2^32 - 1]; objects enumerate these first, in
    ascending order, and the other keys after them in creation order. *)
Definition index_of_key (k : js_string) : option N :=
  match N_of_digits k with
  | Some n =>
      if bool_decide (digits_of_N n = k) && (n <=? 4294967294)%N
      then Some n else None
  | None => None
  end.

(** [k] is enumerated before [k'], whenever [k] is created. *)
Definition goes_before (k k' : js_string) : bool :=
  match index_of_key k, index_of_key k' with
  | Some i, Some i' => (i <? i')%N
  | Some _, None => true
  | None, _ => false
  end.

(** [CreateDataProperty(obj, k, v)]: an existing property keeps its place
    and takes the new value; a new one goes to its place in the
    enumeration order. *)
Fixpoint obj_set (k : js_string) (v : value) (fields : list (js_string * value))
  : list (js_string * value) :=
  match fields with
  | [] => [(k, v)]
  | (k', v') :: rest =>
      if bool_decide (k = k') then (k, v) :: rest
      else if goes_before k k' then (k, v) :: fields
      else (k', v') :: obj_set k v rest
  end.

(** An own property of an object. *)
Fixpoint obj_get (k : js_string) (fields : list (js_string * value))
  : option value :=
  match fields with
  | [] => None
  | (k', v') :: rest => if bool_decide (k = k') then Some v' else obj_get k rest
  end.

(** An object literal [{k1: v1, ..., kn: vn}], or a spread: the properties
    are created from left to right. *)
Definition obj_assign (fields extra : list (js_string * value))
  : list (js_string * value) :=
  foldl (fun o kv => obj_set kv.1 kv.2 o) fields extra.

Definition obj_literal (fields : list (js_string * value)) : value :=
  JObj (obj_assign [] fields).


(** ** [JSON.stringify] *)

Definition hex_digit (d : N) : N := if (d <? 10)%N then (48 + d)%N else (87 + d)%N.

(** [\uXXXX], four lower-case hexadecimal digits. *)
Definition unicode_escape (c : N) : js_string :=
  [92; 117; hex_digit (c / 4096 mod 16); hex_digit (c / 256 mod 16);
   hex_digit (c / 16 mod 16); hex_digit (c mod 16)]%N.

(** A code unit that is no surrogate, inside a string literal. *)
Definition escape_unit (c : N) : js_string :=
  if (c =? 8)%N then lit "\b"
  else if (c =? 9)%N then lit "\t"
  else if (c =? 10)%N then lit "\n"
  else if (c =? 12)%N then lit "\f"
  else if (c =? 13)%N then lit "\r"
  else if (c =? 34)%N then [92; 34]%N
  else if (c =? 92)%N then [92; 92]%N
  else if (c <? 32)%N then unicode_escape c
  else [c].

Definition is_lead (c : N) : bool := ((55296 <=? c) && (c <=? 56319))%N.
Definition is_trail (c : N) : bool := ((56320 <=? c) && (c <=? 57343))%N.

(** The body of [QuoteJSONString]: a surrogate pair stays as it is, a lone
    surrogate is escaped. *)
Fixpoint quote_units (s : js_string) : js_string :=
  match s with
  | [] => []
  | c :: s' =>
      if is_lead c then
        match s' with
        | d :: s'' =>
            if is_trail d then c :: d :: quote_units s''
            else unicode_escape c ++ quote_units s'
        | [] => unicode_escape c
        end
      else if is_trail c then unicode_escape c ++ quote_units s'
      else escape_unit c ++ quote_units s'
  end.

Definition quote (s : js_string) : js_string := [34%N] ++ quote_units s ++ [34%N].

(** A number: finite numbers as [Number::toString] writes them, the others
    as [null]. *)
Definition number_text (x : number) : js_string :=
  match x with
  | Fin _ _ _ => toString x
  | _ => lit "null"
  end.

(** Items between brackets: on one line when [gap] is empty, else one per
    line, indented by [indent ++ gap]. *)
Definition bracketed (opening closing : N) (gap indent : js_string)
  (items : list js_string) : js_string :=
  match items with
  | [] => [opening; closing]
  | _ =>
      match gap with
      | [] => [opening] ++ join (lit ",") items ++ [closing]
      | _ =>
          let inner := indent ++ gap in
          [opening] ++ newline ++ inner
            ++ join (lit "," ++ newline ++ inner) items
            ++ newline ++ indent ++ [closing]
      end
  end.

(** [SerializeJSONProperty] at indentation [indent]. *)
Fixpoint serialize (gap indent : js_string) (v : value) : js_string :=
  match v with
  | JNull => lit "null"
  | JBool b => if b then lit "true" else lit "false"
  | JNum x => number_text x
  | JStr s => quote s
  | JArr items =>
      bracketed 91 93 gap indent (serialize gap (indent ++ gap) <$> items)
  | JObj fields =>
      bracketed 123 125 gap indent
        ((fun kv : js_string * value =>
            quote kv.1 ++ lit ":" ++ (match gap with [] => [] | _ => lit " " end)
              ++ serialize gap (indent ++ gap) kv.2) <$> fields)
  end.

(** [JSON.stringify(v)] and [JSON.stringify(v, null, 2)]. *)
Definition JSON_stringify (v : value) : js_string := serialize [] [] v.
Definition JSON_stringify_2 (v : value) : js_string := serialize (lit "  ") [] v.

(** ** [JSON.parse] *)

Inductive token : Type :=
  | TLBrace | TRBrace | TLBracket | TRBracket | TColon | TComma
  | TNull | TTrue | TFalse
  | TNum (x : number)
  | TStr (s : js_string).

Definition is_json_space (c : N) : bool :=
  ((c =? 32) || (c =? 9) || (c =? 10) || (c =? 13))%N.

Definition is_digit (c : N) : bool := ((48 <=? c) && (c <=? 57))%N.

Definition hex_value (c : N) : option N :=
  if is_digit c then Some (c - 48)%N
  else if ((97 <=? c) && (c <=? 102))%N then Some (c - 87)%N
  else if ((65 <=? c) && (c <=? 70))%N then Some (c - 55)%N
  else None.

(** The unit a one-letter escape stands for. *)
Definition simple_escape (c : N) : option N :=
  if (c =? 34)%N then Some 34%N
  else if (c =? 92)%N then Some 92%N
  else if (c =? 47)%N then Some 47%N
  else if (c =? 98)%N then Some 8%N
  else if (c =? 102)%N then Some 12%N
  else if (c =? 110)%N then Some 10%N
  else if (c =? 114)%N then Some 13%N
  else if (c =? 116)%N then Some 9%N
  else None.

Definition prepend (c : N) (r : option (js_string * js_string))
  : option (js_string * js_string) :=
  match r with
  | Some (str, rest) => Some (c :: str, rest)
  | None => None
  end.

(** The rest of a string literal after its opening quote: the string and
    what follows the closing quote. *)
Fixpoint lex_string (s : js_string) : option (js_string * js_string) :=
  match s with
  | [] => None
  | c :: s' =>
      if (c =? 34)%N then Some ([], s')
      else if (c =? 92)%N then
        match s' with
        | [] => None
        | e :: s'' =>
            if (e =? 117)%N then
              match s'' with
              | h1 :: h2 :: h3 :: h4 :: s3 =>
                  match hex_value h1, hex_value h2, hex_value h3, hex_value h4 with
                  | Some a, Some b, Some c', Some d =>
                      prepend (4096 * a + 256 * b + 16 * c' + d)%N (lex_string s3)
                  | _, _, _, _ => None
                  end
              | _ => None
              end
            else
              match simple_escape e with
              | Some u => prepend u (lex_string s'')
              | None => None
              end
        end
      else if (c <? 32)%N then None
      else prepend c (lex_string s')
  end.

(** The longest prefix of digits, and the rest. *)
Fixpoint span_digits (s : js_string) : js_string * js_string :=
  match s with
  | c :: s' =>
      if is_digit c then let '(ds, rest) := span_digits s' in (c :: ds, rest)
      else ([], s)
  | [] => ([], [])
  end.

(** Numbers from [2^1024 - 2^970] on are beyond the largest finite number
    and read as [Infinity]. *)
Definition overflow_threshold : Z := (2 ^ 1024 - 2 ^ 970)%Z.

Definition overflows (m : N) (e : Z) : bool := Z_le overflow_threshold (Fin false m e).

(** Numbers up to [2^-1075], half the least positive number, read as zero:
    [m * 10^e <= 2^-1075]. *)
Definition underflows (m : N) (e : Z) : bool :=
  ((e <? 0) && (Z.of_N m * 2 ^ 1075 <=? 10 ^ (- e)))%Z.

(** The number a literal of sign [neg], digits [ds] and exponent [e]
    denotes. Between the two ends of the range the literal is not rounded:
    it denotes its decimal value. *)
Definition number_of_literal (neg : bool) (ds : js_string) (e : Z) : number :=
  let m := default 0%N (N_of_digits ds) in
  if overflows m e then Inf neg
  else if underflows m e then Fin neg 0 0
  else finite neg m e.

(** The integer part of a number: [0], or digits that start with a
    non-zero digit. *)
Definition lex_int (s : js_string) : option (js_string * js_string) :=
  match s with
  | c :: s' =>
      if (c =? 48)%N then Some ([c], s')
      else if is_digit c then Some (span_digits s)
      else None
  | [] => None
  end.

(** The fraction, if there is one: a point and at least one digit. *)
Definition lex_frac (s : js_string) : option (js_string * js_string) :=
  match s with
  | c :: s' =>
      if (c =? 46)%N then
        match span_digits s' with
        | ([], _) => None
        | (ds, rest) => Some (ds, rest)
        end
      else Some ([], s)
  | [] => Some ([], s)
  end.

(** The exponent, if there is one: [e] or [E], a sign or none, and at
    least one digit. *)
Definition lex_exp (s : js_string) : option (Z * js_string) :=
  match s with
  | c :: s' =>
      if ((c =? 101) || (c =? 69))%N then
        let '(neg, s'') :=
          match s' with
          | d :: r =>
              if (d =? 45)%N then (true, r)
              else if (d =? 43)%N then (false, r)
              else (false, s')
          | [] => (false, s')
          end in
        match span_digits s'' with
        | ([], _) => None
        | (ds, rest) =>
            let x := Z.of_N (default 0%N (N_of_digits ds)) in
            Some (if neg then (- x)%Z else x, rest)
        end
      else Some (0%Z, s)
  | [] => Some (0%Z, s)
  end.

(** A literal without its sign: its digits, the exponent that goes with
    them, and the rest. *)
Definition lex_unsigned (s : js_string) : option (js_string * Z * js_string) :=
  '(int, s2) ← lex_int s;
  '(frac, s3) ← lex_frac s2;
  '(e, s4) ← lex_exp s3;
  Some (int ++ frac, (e - Z.of_nat (length frac))%Z, s4).

Definition lex_number (s : js_string) : option (number * js_string) :=
  let '(neg, s1) :=
    match s with
    | c :: r => if (c =? 45)%N then (true, r) else (false, s)
    | [] => (false, s)
    end in
  '(ds, e, rest) ← lex_unsigned s1;
  Some (number_of_literal neg ds e, rest).

(** A literal name: the units of [name] are the next ones. *)
Fixpoint lex_name (name s : js_string) : option js_string :=
  match name with
  | [] => Some s
  | c :: name' =>
      match s with
      | d :: s' => if (c =? d)%N then lex_name name' s' else None
      | [] => None
      end
  end.

(** The tokens of a text; [None] when some unit starts no token. Every
    token takes at least one unit, so [length s] is fuel enough. *)
Fixpoint lex (fuel : nat) (s : js_string) : option (list token) :=
  match s with
  | [] => Some []
  | c :: s' =>
      match fuel with
      | O => None
      | S fuel' =>
          if is_json_space c then lex fuel' s'
          else if (c =? 123)%N then cons TLBrace <$> lex fuel' s'
          else if (c =? 125)%N then cons TRBrace <$> lex fuel' s'
          else if (c =? 91)%N then cons TLBracket <$> lex fuel' s'
          else if (c =? 93)%N then cons TRBracket <$> lex fuel' s'
          else if (c =? 58)%N then cons TColon <$> lex fuel' s'
          else if (c =? 44)%N then cons TComma <$> lex fuel' s'
          else if (c =? 34)%N then
            '(str, rest) ← lex_string s'; cons (TStr str) <$> lex fuel' rest
          else if (c =? 110)%N then
            rest ← lex_name (lit "null") s; cons TNull <$> lex fuel' rest
          else if (c =? 116)%N then
            rest ← lex_name (lit "true") s; cons TTrue <$> lex fuel' rest
          else if (c =? 102)%N then
            rest ← lex_name (lit "false") s; cons TFalse <$> lex fuel' rest
          else
            '(x, rest) ← lex_number s; cons (TNum x) <$> lex fuel' rest
      end
  end.

(** A value at the head of the tokens, and the tokens after it. Arrays and
    objects are read element by element; a property is created in the
    object as soon as it is read. *)
Fixpoint parse_value (fuel : nat) (ts : list token) : option (value * list token) :=
  match fuel with
  | O => None
  | S fuel' =>
      match ts with
      | TNull :: r => Some (JNull, r)
      | TTrue :: r => Some (JBool true, r)
      | TFalse :: r => Some (JBool false, r)
      | TNum x :: r => Some (JNum x, r)
      | TStr s :: r => Some (JStr s, r)
      | TLBracket :: TRBracket :: r => Some (JArr [], r)
      | TLBracket :: r => parse_elements fuel' r []
      | TLBrace :: TRBrace :: r => Some (JObj [], r)
      | TLBrace :: r => parse_members fuel' r []
      | _ => None
      end
  end
with parse_elements (fuel : nat) (ts : list token) (items : list value)
  : option (value * list token) :=
  match fuel with
  | O => None
  | S fuel' =>
      '(v, r) ← parse_value fuel' ts;
      match r with
      | TComma :: r' => parse_elements fuel' r' (items ++ [v])
      | TRBracket :: r' => Some (JArr (items ++ [v]), r')
      | _ => None
      end
  end
with parse_members (fuel : nat) (ts : list token)
  (fields : list (js_string * value)) : option (value * list token) :=
  match fuel with
  | O => None
  | S fuel' =>
      match ts with
      | TStr k :: TColon :: r =>
          '(v, r1) ← parse_value fuel' r;
          match r1 with
          | TComma :: r' => parse_members fuel' r' (obj_set k v fields)
          | TRBrace :: r' => Some (JObj (obj_set k v fields), r')
          | _ => None
          end
      | _ => None
      end
  end.

(** [JSON.parse(text)]: the value the text denotes, or a [SyntaxError]
    (the wording of the message is the engine's; one fixed text stands for
    it here). *)
Definition JSON_parse (text : js_string) : outcome value :=
  match lex (length text) text with
  | Some ts =>
      match parse_value (S (length ts)) ts with
      | Some (v, []) => Return v
      | _ => Throw (SyntaxError (lit "Unexpected token in JSON"))
      end
  | None => Throw (SyntaxError (lit "Unexpected token in JSON"))
  end.

End Json.

(* ===================================================================== *)
(** * The JavaScript runtime: [JSON.stringify] and [JSON.parse] agree *)
(* ===================================================================== *)

Module JsonFacts.
Import JS Json.

(** The value of a string of digits, and strings of digits. *)
Fixpoint digits_value (s : js_string) : N :=
  match s with
  | [] => 0
  | c :: s' => (c - 48) * 10 ^ N.of_nat (length s') + digits_value s'
  end.

Definition all_digits (s : js_string) : bool := forallb is_digit s.

(** What may follow a number literal. *)
Definition delimited (rest : js_string) : bool :=
  match rest with
  | [] => true
  | c :: _ => negb (is_digit c || (c =? 46) || (c =? 101) || (c =? 69))%N
  end.

(** The numbers [JSON.parse] gives: canonical ones within the range, zero
    of either sign, and the infinities. *)
Definition wf_number (x : number) : Prop :=
  match x with
  | Fin _ m e =>
      (m = 0%N ∧ e = 0%Z)
      ∨ ((m mod 10)%N ≠ 0%N ∧ overflows m e = false ∧ underflows m e = false)
  | Inf _ => True
  | NaN => False
  end.

(** The numbers [JSON.stringify] writes so that they read back: the finite
    ones, but for negative zero. *)
Definition plain_number (x : number) : bool :=
  match x with
  | Fin neg m _ => negb (neg && (m =? 0)%N)
  | _ => false
  end.

Definition ends_digits (rest : js_string) : Prop :=
  match rest with [] => True | c :: _ => is_digit c = false end.

(** White space between tokens. *)
Definition blank (s : js_string) : Prop := Forall (λ c, is_json_space c = true) s.

(** A text and its tokens, for some amount of fuel. *)
Definition lexes (s : js_string) (ts : list token) : Prop :=
  ∃ fuel, lex fuel s = Some ts.

(** The token of a punctuation mark. *)
Definition punct_token (c : N) : option token :=
  if (c =? 123)%N then Some TLBrace
  else if (c =? 125)%N then Some TRBrace
  else if (c =? 91)%N then Some TLBracket
  else if (c =? 93)%N then Some TRBracket
  else if (c =? 58)%N then Some TColon
  else if (c =? 44)%N then Some TComma
  else None.

(** Token lists separated by commas. *)
Fixpoint commas (parts : list (list token)) : list token :=
  match parts with
  | [] => []
  | [p] => p
  | p :: ps => p ++ TComma :: commas ps
  end.

(** The tokens of the text of a value. *)
Fixpoint tokens (v : value) : list token :=
  match v with
  | JNull => [TNull]
  | JBool b => [if b then TTrue else TFalse]
  | JNum x => [TNum x]
  | JStr s => [TStr s]
  | JArr items => TLBracket :: commas (tokens <$> items) ++ [TRBracket]
  | JObj fields =>
      TLBrace
        :: commas ((fun kv : js_string * value =>
                      TStr kv.1 :: TColon :: tokens kv.2) <$> fields)
        ++ [TRBrace]
  end.

(** Values all of whose numbers are written so that they read back. *)
Fixpoint plain (v : value) : bool :=
  match v with
  | JNum x => plain_number x
  | JArr items => forallb plain items
  | JObj fields => forallb (fun kv : js_string * value => plain kv.2) fields
  | _ => true
  end.

(** The keys of an object in the order objects keep them: no key twice,
    and none that would have been put before an earlier one. *)
Fixpoint wf_keys (ks : list js_string) : Prop :=
  match ks with
  | [] => True
  | k0 :: ks' =>
      Forall (λ k, k0 ≠ k ∧ goes_before k k0 = false) ks' ∧ wf_keys ks'
  end.

(** The values [JSON.parse] builds. *)
Fixpoint wf (v : value) : Prop :=
  match v with
  | JNum x => wf_number x
  | JArr items => foldr (fun v P => wf v ∧ P) True items
  | JObj fields =>
      wf_keys (fields.*1)
      ∧ foldr (fun (kv : js_string * value) P => wf kv.2 ∧ P) True fields
  | _ => True
  end.

(** What is left of a value once it is written: the infinities and NaN
    become [null], and zero loses its sign. *)
Definition normalize_number (x : number) : value :=
  match x with
  | Fin neg m e => if (m =? 0)%N then JNum (Fin false 0 0) else JNum x
  | _ => JNull
  end.

Fixpoint normalize (v : value) : value :=
  match v with
  | JNum x => normalize_number x
  | JArr items => JArr (normalize <$> items)
  | JObj fields =>
      JObj ((fun kv : js_string * value => (kv.1, normalize kv.2)) <$> fields)
  | _ => v
  end.

(** A text without a C0 control character: no code unit below U+0020, so
    no line feed, no carriage return and no tab. The units from U+0020 on
    are all allowed, DEL and the separators U+0085, U+2028 and U+2029
    among them. *)
Definition no_c0_control (s : js_string) : Prop := Forall (λ c, (32 ≤ c)%N) s.

(** Induction on values, with the property of the items of an array and of
    the values of an object at hand. *)
Section value_induction.
Variable P : value → Prop.
Hypothesis Pnull : P JNull.
Hypothesis Pbool : ∀ b, P (JBool b).
Hypothesis Pnum : ∀ x, P (JNum x).
Hypothesis Pstr : ∀ s, P (JStr s).
Hypothesis Parr : ∀ items, Forall P items → P (JArr items).
Hypothesis Pobj : ∀ fields, Forall (λ kv, P kv.2) fields → P (JObj fields).

Fixpoint value_induction (v : value) : P v :=
  match v with
  | JNull => Pnull
  | JBool b => Pbool b
  | JNum x => Pnum x
  | JStr s => Pstr s
  | JArr items =>
      Parr items
        ((fix all (l : list value) : Forall P l :=
            match l with
            | [] => List.Forall_nil P
            | v' :: l' => @List.Forall_cons _ P v' l' (value_induction v') (all l')
            end) items)
  | JObj fields =>
      Pobj fields
        ((fix all (l : list (js_string * value)) : Forall (λ kv, P kv.2) l :=
            match l with
            | [] => List.Forall_nil _
            | kv :: l' =>
                @List.Forall_cons _ (λ kv, P kv.2) kv l' (value_induction kv.2) (all l')
            end) fields)
  end.
End value_induction.

(** The text of an item lexes to its tokens, before any delimited text. *)
Definition item_lexes {A} (text : A → js_string) (toks : A → list token)
  (x : A) : Prop :=
  ∀ rest ts, delimited rest = true → lexes rest ts →
    lexes (text x ++ rest) (toks x ++ ts).

Definition opens (t : token) : Prop :=
  match t with
  | TRBracket | TRBrace | TColon | TComma => False
  | _ => True
  end.

(** The value of [v]'s tokens, for enough fuel. *)
Definition parses (v : value) : Prop :=
  ∀ fuel rest, (length (tokens v) ≤ fuel)%nat →
    parse_value fuel (tokens v ++ rest) = Some (v, rest).

Definition wf_token (t : token) : Prop :=
  match t with
  | TNum x => wf_number x
  | _ => True
  end.

(** ** Decimal digits *)

Lemma N_of_digits_from_value acc s :
  all_digits s = true →
  N_of_digits_from acc s = Some (acc * 10 ^ N.of_nat (length s) + digits_value s)%N.
Proof.
  revert acc. induction s as [|c s IH]; intros acc Hs.
  - simpl. f_equal. lia.
  - cbn [all_digits forallb] in Hs. apply andb_true_iff in Hs as [Hc Hs].
    cbn [N_of_digits_from digits_value length].
    unfold is_digit in Hc. rewrite Hc, IH by done. f_equal.
    rewrite Nat2N.inj_succ, N.pow_succ_r'. lia.
Qed.

Lemma N_of_digits_value s :
  all_digits s = true → s ≠ [] → N_of_digits s = Some (digits_value s).
Proof.
  intros Hs Hne. destruct s as [|c s]; [done|].
  unfold N_of_digits. rewrite N_of_digits_from_value by done. f_equal; lia.
Qed.

Lemma digits_value_app s1 s2 :
  digits_value (s1 ++ s2)
  = (digits_value s1 * 10 ^ N.of_nat (length s2) + digits_value s2)%N.
Proof.
  induction s1 as [|c s1 IH]; [simpl; lia|].
  cbn [app digits_value length]. rewrite IH, length_app, Nat2N.inj_add, N.pow_add_r.
  lia.
Qed.

Lemma all_digits_app s1 s2 :
  all_digits (s1 ++ s2) = all_digits s1 && all_digits s2.
Proof. apply forallb_app. Qed.

Lemma all_digits_zeros n : all_digits (zeros n) = true.
Proof.
  induction n as [|n IH]; [done|].
  change (is_digit 48 && all_digits (zeros n) = true). by rewrite IH.
Qed.

Lemma digits_value_zeros n : digits_value (zeros n) = 0%N.
Proof.
  induction n as [|n IH]; [done|].
  change (((48 - 48) * 10 ^ N.of_nat (length (zeros n)) + digits_value (zeros n))%N = 0%N).
  rewrite IH. lia.
Qed.

Lemma length_zeros n : length (zeros n) = n.
Proof. apply length_replicate. Qed.

Lemma digit_unit_digit d : (d < 10)%N → is_digit (digit_unit d) = true.
Proof. intros. unfold is_digit, digit_unit. apply andb_true_iff. split; apply N.leb_le; lia. Qed.

(** The digits [digits_fuel] puts in front of [acc]. *)
Lemma digits_fuel_spec fuel n acc :
  (n < 10 ^ N.of_nat fuel)%N →
  ∃ ds, digits_fuel fuel n acc = ds ++ acc
        ∧ all_digits ds = true
        ∧ digits_value ds = n
        ∧ (n ≠ 0%N → ∃ c ds', ds = c :: ds' ∧ c ≠ 48%N)
        ∧ (fuel ≠ 0%nat → ds ≠ []).
Proof.
  revert n acc. induction fuel as [|fuel IH]; intros n acc Hn.
  - simpl in Hn. exists []. assert (n = 0%N) as -> by lia. by repeat split.
  - cbn [digits_fuel].
    pose proof (N.div_mod n 10 ltac:(lia)) as Hdm.
    pose proof (N.mod_lt n 10 ltac:(lia)) as Hlt.
    destruct (N.eqb_spec (n / 10) 0) as [Hz|Hz].
    + exists [digit_unit (n mod 10)]. split; [done|].
      split; [by cbn; rewrite digit_unit_digit|].
      split; [unfold digit_unit; simpl; lia|].
      split; [|done]. intros Hn0. eexists _, _. split; [done|].
      unfold digit_unit. lia.
    + rewrite Nat2N.inj_succ, N.pow_succ_r' in Hn.
      destruct (IH (n / 10)%N (digit_unit (n mod 10) :: acc)) as (ds & -> & Hd & Hv & Hh & _).
      { apply N.Div0.div_lt_upper_bound. lia. }
      exists (ds ++ [digit_unit (n mod 10)]).
      split; [by rewrite <- app_assoc|].
      split; [by rewrite all_digits_app, Hd; cbn; rewrite digit_unit_digit|].
      split.
      { rewrite digits_value_app, Hv. unfold digit_unit.
        cbn [digits_value length]. change (N.of_nat 1) with 1%N.
        change (N.of_nat 0) with 0%N. rewrite N.pow_1_r, N.pow_0_r. generalize dependent (n `div` 10)%N; generalize dependent (n `mod` 10)%N; intros; lia. }
      split.
      * intros _. destruct (Hh Hz) as (c & ds' & -> & Hc). by eexists _, _.
      * intros _. by destruct ds.
Qed.

Lemma digits_of_N_spec n :
  all_digits (digits_of_N n) = true
  ∧ digits_value (digits_of_N n) = n
  ∧ digits_of_N n ≠ []
  ∧ (n ≠ 0%N → ∃ c ds', digits_of_N n = c :: ds' ∧ c ≠ 48%N).
Proof.
  unfold digits_of_N.
  destruct (digits_fuel_spec (S (N.to_nat (N.log2 n))) n []) as (ds & -> & Hd & Hv & Hh & Hne).
  { rewrite Nat2N.inj_succ, N2Nat.id.
    destruct (N.eq_dec n 0%N) as [->|Hn0]; [done|].
    assert (0 < n)%N as Hpos by lia.
    pose proof (N.log2_spec n Hpos) as [_ Hlt].
    eapply N.lt_le_trans; [exact Hlt|].
    apply N.pow_le_mono_l. lia. }
  rewrite app_nil_r. by auto.
Qed.

Lemma span_digits_app ds rest :
  all_digits ds = true →
  match rest with [] => True | c :: _ => is_digit c = false end →
  span_digits (ds ++ rest) = (ds, rest).
Proof.
  intros Hd Hrest. induction ds as [|c ds IH].
  - destruct rest as [|c rest]; [done|]. simpl. by rewrite Hrest.
  - cbn [all_digits forallb] in Hd. apply andb_true_iff in Hd as [Hc Hd].
    cbn [app span_digits]. rewrite Hc, IH by done. done.
Qed.

(** ** Scaling a literal *)

Lemma strip_zeros_exact fuel (k : nat) m e :
  (m mod 10)%N ≠ 0%N → (k ≤ fuel)%nat →
  strip_zeros fuel (m * 10 ^ N.of_nat k) e = (m, (e + Z.of_nat k)%Z).
Proof.
  intros Hm. revert fuel e. induction k as [|k IH]; intros fuel e Hk.
  - rewrite N.pow_0_r, N.mul_1_r, Z.add_0_r.
    destruct fuel; [done|]. simpl.
    by destruct (N.eqb_spec (m mod 10) 0).
  - destruct fuel as [|fuel]; [lia|]. cbn [strip_zeros].
    rewrite Nat2N.inj_succ, N.pow_succ_r'.
    replace (m * (10 * 10 ^ N.of_nat k))%N with (m * 10 ^ N.of_nat k * 10)%N by lia.
    rewrite N.Div0.mod_mul, N.eqb_refl, N.div_mul by lia.
    rewrite IH by lia. f_equal. lia.
Qed.

Lemma log2_scaled m (k : nat) : m ≠ 0%N → (k ≤ N.to_nat (N.log2 (m * 10 ^ N.of_nat k)))%nat.
Proof.
  intros Hm.
  assert (2 ^ N.of_nat k ≤ m * 10 ^ N.of_nat k)%N as Hle.
  { transitivity (10 ^ N.of_nat k)%N; [apply N.pow_le_mono_l; lia|].
    assert (0 < 10 ^ N.of_nat k)%N by (apply N.neq_0_lt_0, N.pow_nonzero; lia). nia. }
  apply N.log2_le_mono in Hle. rewrite N.log2_pow2 in Hle by lia. lia.
Qed.

Lemma finite_scaled neg m (k : nat) e :
  (m mod 10)%N ≠ 0%N →
  finite neg (m * 10 ^ N.of_nat k) (e - Z.of_nat k) = Fin neg m e.
Proof.
  intros Hm. assert (m ≠ 0%N) as Hm0 by (intros ->; by apply Hm).
  unfold finite.
  destruct (N.eqb_spec (m * 10 ^ N.of_nat k) 0) as [Hz|_].
  { apply N.eq_mul_0 in Hz as [?|Hz]; [done|]. by apply N.pow_nonzero in Hz. }
  rewrite strip_zeros_exact by (done || by apply log2_scaled).
  f_equal. lia.
Qed.

Lemma overflows_scaled m (k : nat) e :
  overflows (m * 10 ^ N.of_nat k) (e - Z.of_nat k) = overflows m e.
Proof.
  unfold overflows, Z_le. rewrite compare_Z_scale.
  by replace (e - Z.of_nat k + Z.of_nat k)%Z with e by lia.
Qed.

Lemma underflows_scaled m (k : nat) e :
  m ≠ 0%N →
  underflows (m * 10 ^ N.of_nat k) (e - Z.of_nat k) = underflows m e.
Proof.
  intros Hm. unfold underflows.
  rewrite N2Z.inj_mul, N2Z.inj_pow, nat_N_Z. change (Z.of_N 10) with 10%Z.
  set (K := Z.of_nat k). set (M := Z.of_N m).
  assert (0 ≤ K)%Z by lia. assert (1 ≤ M)%Z by lia.
  assert (0 < 10 ^ K)%Z by (apply Z.pow_pos_nonneg; lia).
  assert (2 ≤ 2 ^ 1075)%Z as Hp by done.
  generalize dependent (2 ^ 1075)%Z. intros P HP.
  destruct (Z.ltb_spec e 0) as [He|He].
  - rewrite (proj2 (Z.ltb_lt (e - K) 0)) by lia. cbn [andb].
    replace (- (e - K))%Z with (K + - e)%Z by lia.
    rewrite Z.pow_add_r by lia.
    assert (0 < 10 ^ (- e))%Z by (apply Z.pow_pos_nonneg; lia).
    destruct (Z.leb_spec (M * P) (10 ^ (- e))); apply Z.leb_le || apply Z.leb_gt; nia.
  - cbn [andb]. destruct (Z.ltb_spec (e - K) 0) as [He'|He']; [|done].
    cbn [andb]. apply Z.leb_gt.
    assert (10 ^ (- (e - K)) ≤ 10 ^ K)%Z by (apply Z.pow_le_mono_r; lia).
    assert (10 ^ K * 2 ≤ M * 10 ^ K * P)%Z; [|lia].
    transitivity (10 ^ K * P)%Z; nia.
Qed.

(** A literal that writes [m * 10^e] with [k] more zeros at the end of its
    digits denotes [Fin neg m e]. *)
Lemma number_of_literal_scaled neg ds (k : nat) m e :
  all_digits ds = true → ds ≠ [] →
  digits_value ds = (m * 10 ^ N.of_nat k)%N →
  (m mod 10)%N ≠ 0%N → overflows m e = false → underflows m e = false →
  number_of_literal neg ds (e - Z.of_nat k) = Fin neg m e.
Proof.
  intros Hd Hne Hv Hm Ho Hu. unfold number_of_literal.
  rewrite N_of_digits_value, Hv by done. cbn [from_option id]. cbv zeta.
  assert (m ≠ 0%N) as Hm0 by (intros ->; by apply Hm).
  rewrite overflows_scaled, Ho, underflows_scaled, Hu by done.
  by apply finite_scaled.
Qed.

(** ** The parts of a number literal *)

Lemma delimited_spec rest :
  delimited rest = true →
  match rest with
  | [] => True
  | c :: _ => is_digit c = false ∧ c ≠ 46%N ∧ c ≠ 101%N ∧ c ≠ 69%N
  end.
Proof.
  destruct rest as [|c rest]; [done|]. unfold delimited.
  rewrite negb_true_iff, !orb_false_iff.
  intros [[[? ?%N.eqb_neq] ?%N.eqb_neq] ?%N.eqb_neq]. done.
Qed.

Lemma delimited_ends rest : delimited rest = true → ends_digits rest.
Proof. intros H%delimited_spec. destruct rest; naive_solver. Qed.

Lemma lex_int_digits c ds rest :
  is_digit c = true → c ≠ 48%N → all_digits ds = true → ends_digits rest →
  lex_int (c :: ds ++ rest) = Some (c :: ds, rest).
Proof.
  intros Hc Hz Hd Hr. unfold lex_int.
  rewrite (proj2 (N.eqb_neq c 48) Hz), Hc.
  change (c :: ds ++ rest) with ((c :: ds) ++ rest).
  rewrite span_digits_app; [done| |done].
  cbn [all_digits forallb]. by rewrite Hc.
Qed.

Lemma lex_int_zero rest : lex_int (48%N :: rest) = Some ([48%N], rest).
Proof. done. Qed.

Lemma lex_frac_none rest :
  match rest with [] => True | c :: _ => c ≠ 46%N end →
  lex_frac rest = Some ([], rest).
Proof.
  destruct rest as [|c rest]; [done|]. intros Hc. unfold lex_frac.
  by rewrite (proj2 (N.eqb_neq c 46) Hc).
Qed.

Lemma lex_frac_digits ds rest :
  all_digits ds = true → ds ≠ [] → ends_digits rest →
  lex_frac (46%N :: ds ++ rest) = Some (ds, rest).
Proof.
  intros Hd Hne Hr. unfold lex_frac. rewrite N.eqb_refl, span_digits_app by done.
  by destruct ds.
Qed.

Lemma lex_exp_none rest :
  match rest with [] => True | c :: _ => c ≠ 101%N ∧ c ≠ 69%N end →
  lex_exp rest = Some (0%Z, rest).
Proof.
  destruct rest as [|c rest]; [done|]. intros [H1 H2]. unfold lex_exp.
  by rewrite (proj2 (N.eqb_neq c 101) H1), (proj2 (N.eqb_neq c 69) H2).
Qed.

Lemma lex_exp_digits (x : Z) rest :
  ends_digits rest →
  lex_exp (101%N :: (if (0 <=? x)%Z then 43%N else 45%N)
             :: digits_of_N (Z.abs_N x) ++ rest) = Some (x, rest).
Proof.
  intros Hr. destruct (digits_of_N_spec (Z.abs_N x)) as (Hd & Hv & Hne & _).
  revert Hd Hv Hne. generalize (digits_of_N (Z.abs_N x)). intros D Hd Hv Hne.
  unfold lex_exp. cbn [N.eqb Pos.eqb orb].
  destruct (Z.leb_spec 0 x) as [Hx|Hx]; cbn [N.eqb Pos.eqb].
  all: rewrite span_digits_app by done.
  all: destruct D as [|d ds]; [done|].
  all: rewrite N_of_digits_value, Hv by done.
  all: cbn [from_option id]; f_equal; f_equal; lia.
Qed.

Lemma all_digits_take n s : all_digits s = true → all_digits (take n s) = true.
Proof.
  intros H. rewrite <- (take_drop n s), all_digits_app in H.
  by apply andb_true_iff in H as [? _].
Qed.

Lemma all_digits_drop n s : all_digits s = true → all_digits (drop n s) = true.
Proof.
  intros H. rewrite <- (take_drop n s), all_digits_app in H.
  by apply andb_true_iff in H as [_ ?].
Qed.

Lemma lex_int_digit c rest :
  is_digit c = true → c ≠ 48%N → ends_digits rest →
  lex_int (c :: rest) = Some ([c], rest).
Proof. intros Hc Hz Hr. by apply (lex_int_digits c [] rest). Qed.

(** ** What [Number::toString] writes reads back *)

Lemma lex_unsigned_layout m e rest :
  (m mod 10)%N ≠ 0%N → overflows m e = false → underflows m e = false →
  delimited rest = true →
  ∃ ds el,
    lex_unsigned (layout (digits_of_N m) (Z.of_nat (length (digits_of_N m)) + e) ++ rest)
    = Some (ds, el, rest)
    ∧ ∀ neg, number_of_literal neg ds el = Fin neg m e.
Proof.
  intros Hm Ho Hu Hrest.
  assert (m ≠ 0%N) as Hm0 by (intros ->; by apply Hm).
  destruct (digits_of_N_spec m) as (Hd & Hv & Hne & Hh).
  destruct (Hh Hm0) as (c & ds' & Hs & Hc). clear Hh.
  pose proof (delimited_spec rest Hrest) as Hdel.
  pose proof (delimited_ends rest Hrest) as Hend.
  assert (match rest with [] => True | c :: _ => c ≠ 46%N end) as Hdot
    by (destruct rest; naive_solver).
  assert (match rest with [] => True | c :: _ => c ≠ 101%N ∧ c ≠ 69%N end) as Hexp
    by (destruct rest; naive_solver).
  revert Hd Hv Hne Hs. generalize (digits_of_N m). intros s Hd Hv Hne ->.
  set (s := c :: ds') in *. set (k := length s).
  assert (Hcd : is_digit c = true ∧ all_digits ds' = true).
  { cbn [all_digits forallb] in Hd. by apply andb_true_iff in Hd. }
  destruct Hcd as [Hcd Hds'].
  unfold lex_unsigned, layout. fold k.
  set (exponent := (if (0 <=? Z.of_nat k + e - 1)%Z then lit "+" else lit "-")
                     ++ digits_of_N (Z.abs_N (Z.of_nat k + e - 1))).
  assert (exponent_form :
    ∃ ds el,
      (int_s2 ← lex_int
         (match s with
          | [d] => [d] ++ lit "e" ++ exponent
          | _ => take 1 s ++ lit "." ++ drop 1 s ++ lit "e" ++ exponent
          end ++ rest);
       let '(int, s2) := int_s2 in
       frac_s3 ← lex_frac s2;
       let '(frac, s3) := frac_s3 in
       e_s4 ← lex_exp s3;
       let '(e0, s4) := e_s4 in
       Some (int ++ frac, (e0 - Z.of_nat (length frac))%Z, s4))
      = Some (ds, el, rest)
      ∧ ∀ neg, number_of_literal neg ds el = Fin neg m e).
  { assert (lit "e" ++ exponent ++ rest
            = 101%N :: (if (0 <=? Z.of_nat k + e - 1)%Z then 43%N else 45%N)
                :: digits_of_N (Z.abs_N (Z.of_nat k + e - 1)) ++ rest) as Hexp'.
    { subst exponent. by destruct (0 <=? Z.of_nat k + e - 1)%Z. }
    subst s. destruct ds' as [|d ds'].
    - rewrite <- !app_assoc, Hexp'. cbn [app].
      rewrite lex_int_digit by done.
      cbn [mbind option_bind]. rewrite lex_frac_none by done.
      cbn [mbind option_bind]. rewrite lex_exp_digits by done.
      cbn [mbind option_bind]. eexists _, _. split; [done|]. intros neg.
      rewrite app_nil_r. cbn [length].
      replace (Z.of_nat k + e - 1 - Z.of_nat 0)%Z with (e - Z.of_nat 0)%Z
        by (subst k; simpl; lia).
      apply number_of_literal_scaled; try done. rewrite Hv. simpl. lia.
    - cbn [take drop]. rewrite <- !app_assoc, Hexp'.
      set (tail := 101%N :: _).
      change ([c] ++ lit "." ++ (d :: ds') ++ tail)
        with (c :: 46%N :: (d :: ds') ++ tail).
      rewrite lex_int_digit by done. subst tail.
      cbn [mbind option_bind].
      rewrite lex_frac_digits by done.
      cbn [mbind option_bind]. rewrite lex_exp_digits by done.
      cbn [mbind option_bind]. eexists _, _. split; [done|]. intros neg.
      cbn [app].
      replace (Z.of_nat k + e - 1 - Z.of_nat (length (d :: ds')))%Z
        with (e - Z.of_nat 0)%Z by (subst k; cbn [length]; lia).
      apply number_of_literal_scaled; try done. rewrite Hv. simpl. lia. }
  clearbody exponent.
  destruct (Z.leb_spec (Z.of_nat k) (Z.of_nat k + e)) as [H1|H1];
    [destruct (Z.leb_spec (Z.of_nat k + e) 21) as [H2|H2]|]; cbn [andb].
  - (* digits, then zeros *)
    replace (Z.of_nat k + e - Z.of_nat k)%Z with e by lia.
    subst s. rewrite <- app_assoc. cbn [app]. rewrite app_assoc.
    rewrite lex_int_digits by (done || by rewrite all_digits_app, Hds', all_digits_zeros).
    cbn [mbind option_bind]. rewrite lex_frac_none by done.
    cbn [mbind option_bind]. rewrite lex_exp_none by done.
    cbn [mbind option_bind]. eexists _, _. split; [done|]. intros neg.
    rewrite app_nil_r. cbn [length].
    replace (0 - Z.of_nat 0)%Z with (e - Z.of_nat (Z.to_nat e))%Z by lia.
    apply number_of_literal_scaled; try done.
    + change (all_digits ((c :: ds') ++ zeros (Z.to_nat e)) = true).
      by rewrite all_digits_app, Hd, all_digits_zeros.
    + change (digits_value ((c :: ds') ++ zeros (Z.to_nat e)) = (m * 10 ^ N.of_nat (Z.to_nat e))%N).
      rewrite digits_value_app, Hv, digits_value_zeros, length_zeros. lia.
  - (* exponent form, large numbers *)
    rewrite andb_false_r, (proj2 (Z.leb_gt _ 0)), andb_false_r by lia.
    by apply exponent_form.
  - destruct (Z.ltb_spec 0 (Z.of_nat k + e)) as [H3|H3]; cbn [andb].
    + destruct (Z.leb_spec (Z.of_nat k + e) 21) as [H2|H2].
      2:{ rewrite (proj2 (Z.leb_gt _ 0)), andb_false_r by lia.
          by apply exponent_form. }
      (* digits, a point, digits *)
      set (n := Z.to_nat (Z.of_nat k + e)).
      assert (0 < n < k)%nat as Hn by lia.
      assert (take n s = c :: take (pred n) ds') as Htake.
      { subst s. destruct n; [lia|]. done. }
      rewrite <- !app_assoc, Htake. cbn [app].
      rewrite lex_int_digits; [|done|done|by apply all_digits_take|done].
      cbn [mbind option_bind]. change (lit ".") with [46%N]. cbn [app].
      rewrite lex_frac_digits; [|by apply all_digits_drop| |done].
      2:{ intros Hnil. apply (f_equal length) in Hnil.
          rewrite length_drop in Hnil. change (length s) with k in Hnil.
          cbn [length] in Hnil. lia. }
      cbn [mbind option_bind]. rewrite lex_exp_none by done.
      cbn [mbind option_bind]. eexists _, _. split; [done|]. intros neg.
      assert ((c :: take (pred n) ds') ++ drop n s = s) as Hds
        by (by rewrite <- Htake, take_drop).
      cbn [app] in Hds. rewrite Hds, length_drop.
      change (length s) with k.
      replace (0 - Z.of_nat (k - n))%Z with (e - Z.of_nat 0)%Z by lia.
      apply number_of_literal_scaled; try done.
      rewrite Hv. simpl. lia.
    + destruct (Z.ltb_spec (-6) (Z.of_nat k + e)) as [H4|H4]; cbn [andb].
      * (* zero, a point, zeros, digits *)
        rewrite (proj2 (Z.leb_le _ 0)) by lia.
        change (lit "0.") with [48%N; 46%N]. rewrite <- !app_assoc. cbn [app].
        rewrite lex_int_zero. cbn [mbind option_bind].
        rewrite app_assoc.
        rewrite lex_frac_digits;
          [|by rewrite all_digits_app, all_digits_zeros, Hd|by destruct (zeros _)|done].
        cbn [mbind option_bind]. rewrite lex_exp_none by done.
        cbn [mbind option_bind]. eexists _, _. split; [done|]. intros neg.
        rewrite length_app, length_zeros. change (length s) with k.
        replace (0 - Z.of_nat (Z.to_nat (- (Z.of_nat k + e)) + k))%Z
          with (e - Z.of_nat 0)%Z by lia.
        apply number_of_literal_scaled; try done.
        -- change (all_digits ([48%N] ++ zeros (Z.to_nat (- (Z.of_nat k + e))) ++ s) = true).
           by rewrite !all_digits_app, all_digits_zeros, Hd.
        -- change (digits_value ([48%N] ++ zeros (Z.to_nat (- (Z.of_nat k + e))) ++ s)
                   = (m * 10 ^ N.of_nat 0)%N).
           rewrite !digits_value_app, digits_value_zeros, Hv. simpl. lia.
      * (* exponent form, small numbers *)
        by apply exponent_form.
Qed.

Lemma lex_unsigned_head s r :
  lex_unsigned s = Some r → ∃ c s', s = c :: s' ∧ is_digit c = true.
Proof.
  unfold lex_unsigned, lex_int. destruct s as [|c s']; [done|].
  intros H. exists c, s'. split; [done|].
  destruct (N.eqb_spec c 48) as [->|_]; [done|].
  by destruct (is_digit c).
Qed.

Lemma lex_number_text x rest :
  wf_number x → plain_number x = true → delimited rest = true →
  lex_number (number_text x ++ rest) = Some (x, rest).
Proof.
  destruct x as [neg m e| |]; [|done..]. intros Hwf Hplain Hrest.
  cbn [number_text toString].
  destruct (N.eqb_spec m 0) as [->|Hm0].
  - destruct Hwf as [[_ ->]|[Hm _]]; [|done].
    destruct neg; [done|]. change (lit "0" ++ rest) with (48%N :: rest).
    unfold lex_number. cbn [N.eqb Pos.eqb]. unfold lex_unsigned.
    rewrite lex_int_zero. cbn [mbind option_bind].
    pose proof (delimited_spec rest Hrest) as Hdel.
    rewrite lex_frac_none by (destruct rest; naive_solver).
    cbn [mbind option_bind].
    rewrite lex_exp_none by (destruct rest; naive_solver).
    cbn [mbind option_bind]. by vm_compute.
  - destruct Hwf as [[-> _]|(Hm & Ho & Hu)]; [done|].
    destruct (lex_unsigned_layout m e rest Hm Ho Hu Hrest) as (ds & el & Hlex & Hnum).
    destruct (lex_unsigned_head _ _ Hlex) as (c & s' & Hs & Hc).
    unfold lex_number. rewrite <- app_assoc. destruct neg.
    + change (lit "-" ++ ?t) with (45%N :: t). cbn [N.eqb Pos.eqb]. 
      rewrite Hlex. cbn [mbind option_bind]. by rewrite Hnum.
    + rewrite app_nil_l, Hs.
      assert (c ≠ 45%N) as Hc45 by (intros ->; done).
      rewrite (proj2 (N.eqb_neq c 45) Hc45), <- Hs, Hlex.
      cbn [mbind option_bind]. by rewrite Hnum.
Qed.

(** ** String literals *)

Lemma hex_value_digit d : (d < 16)%N → hex_value (hex_digit d) = Some d.
Proof.
  intros H. destruct d as [|p]; [done|].
  do 4 (destruct p as [p|p|]; try done); lia.
Qed.

Lemma four_hex_digits c :
  (c < 65536)%N →
  (4096 * (c / 4096 mod 16) + 256 * (c / 256 mod 16)
   + 16 * (c / 16 mod 16) + c mod 16)%N = c.
Proof.
  intros Hc.
  pose proof (N.div_mod c 16 ltac:(done)) as H1.
  pose proof (N.div_mod (c / 16) 16 ltac:(done)) as H2.
  pose proof (N.div_mod (c / 16 / 16) 16 ltac:(done)) as H3.
  rewrite N.Div0.div_div in H3. change (16 * 16)%N with 256%N in H3.
  rewrite N.Div0.div_div in H2, H3.
  change (16 * 16)%N with 256%N in H2. change (256 * 16)%N with 4096%N in H3.
  assert (c / 4096 < 16)%N by (apply N.Div0.div_lt_upper_bound; lia).
  rewrite (N.mod_small (c / 4096) 16) by done.
  lia.
Qed.

Lemma lex_string_unicode c rest :
  (c < 65536)%N →
  lex_string (unicode_escape c ++ rest) = prepend c (lex_string rest).
Proof.
  intros Hc. unfold unicode_escape. cbn [app lex_string N.eqb Pos.eqb N.ltb].
  assert (∀ x, (x mod 16 < 16)%N) as Hmod by (intros; by apply N.mod_lt).
  rewrite !hex_value_digit by done.
  by rewrite four_hex_digits.
Qed.

Lemma lex_string_plain c rest :
  c ≠ 34%N → c ≠ 92%N → (32 ≤ c)%N →
  lex_string (c :: rest) = prepend c (lex_string rest).
Proof.
  intros H1 H2 H3. cbn [lex_string].
  rewrite (proj2 (N.eqb_neq c 34) H1), (proj2 (N.eqb_neq c 92) H2).
  by rewrite (proj2 (N.ltb_ge c 32) H3).
Qed.

Lemma lex_string_escape c rest :
  is_lead c = false → is_trail c = false →
  lex_string (escape_unit c ++ rest) = prepend c (lex_string rest).
Proof.
  intros Hl Ht. unfold escape_unit.
  destruct (N.eqb_spec c 8) as [->|?]; [done|].
  destruct (N.eqb_spec c 9) as [->|?]; [done|].
  destruct (N.eqb_spec c 10) as [->|?]; [done|].
  destruct (N.eqb_spec c 12) as [->|?]; [done|].
  destruct (N.eqb_spec c 13) as [->|?]; [done|].
  destruct (N.eqb_spec c 34) as [->|?]; [done|].
  destruct (N.eqb_spec c 92) as [->|?]; [done|].
  destruct (N.ltb_spec c 32).
  - apply lex_string_unicode. lia.
  - by apply lex_string_plain.
Qed.

Lemma surrogate_bounds c :
  is_lead c = true ∨ is_trail c = true → (55296 ≤ c < 65536)%N.
Proof.
  unfold is_lead, is_trail.
  intros [H|H]; apply andb_true_iff in H as [?%N.leb_le ?%N.leb_le]; lia.
Qed.

Lemma lex_string_quote s rest :
  lex_string (quote_units s ++ 34%N :: rest) = Some (s, rest).
Proof.
  remember (length s) as n eqn:Hn. revert s Hn.
  induction n as [n IH] using lt_wf_ind. intros s ->.
  destruct s as [|c s]; [done|]. cbn [quote_units].
  assert (Hrec : ∀ t, (length t ≤ length s)%nat →
            lex_string (quote_units t ++ 34%N :: rest) = Some (t, rest)).
  { intros t Ht. apply (IH (length t)); [simpl; lia|done]. }
  destruct (is_lead c) eqn:Hl.
  - pose proof (surrogate_bounds c (or_introl Hl)) as Hc.
    destruct s as [|d s].
    + by rewrite lex_string_unicode by lia.
    + destruct (is_trail d) eqn:Ht.
      * pose proof (surrogate_bounds d (or_intror Ht)) as Hd.
        cbn [app]. rewrite !lex_string_plain by lia.
        rewrite (Hrec s) by (simpl; lia). done.
      * rewrite <- app_assoc, lex_string_unicode by lia. by rewrite Hrec.
  - destruct (is_trail c) eqn:Ht.
    + pose proof (surrogate_bounds c (or_intror Ht)) as Hc.
      rewrite <- app_assoc, lex_string_unicode by lia. by rewrite Hrec.
    + rewrite <- app_assoc, lex_string_escape by done. by rewrite Hrec.
Qed.

(** ** Tokens of a text *)

Lemma lexes_nil : lexes [] [].
Proof. by exists 0%nat. Qed.

Lemma lexes_space c s ts :
  is_json_space c = true → lexes s ts → lexes (c :: s) ts.
Proof. intros Hc [f Hf]. exists (S f). cbn [lex]. by rewrite Hc. Qed.

Lemma lexes_blank b s ts : blank b → lexes s ts → lexes (b ++ s) ts.
Proof.
  intros Hb Hs. induction Hb as [|c b Hc _ IH]; [done|].
  by apply lexes_space.
Qed.

Lemma lexes_punct c t s ts :
  punct_token c = Some t → lexes s ts → lexes (c :: s) (t :: ts).
Proof.
  unfold punct_token. intros Hc [f Hf]. exists (S f).
  repeat match type of Hc with
         | (if (c =? ?k)%N then _ else _) = _ =>
             destruct (N.eqb_spec c k) as [->|?];
               [injection Hc as <-; simpl; by rewrite Hf|]
         end.
  done.
Qed.

Lemma punct_delimited c t rest : punct_token c = Some t → delimited (c :: rest) = true.
Proof.
  unfold punct_token. intros Hc.
  repeat match type of Hc with
         | (if (c =? ?k)%N then _ else _) = _ =>
             destruct (N.eqb_spec c k) as [->|?]; [done|]
         end.
  done.
Qed.

Lemma lexes_string s rest ts :
  lexes rest ts → lexes (quote s ++ rest) (TStr s :: ts).
Proof.
  intros [f Hf]. exists (S f). unfold quote. rewrite <- !app_assoc.
  cbn [app lex is_json_space N.eqb Pos.eqb orb].
  rewrite lex_string_quote. cbn [mbind option_bind]. by rewrite Hf.
Qed.

Lemma lexes_number x rest ts :
  wf_number x → plain_number x = true → delimited rest = true →
  lexes rest ts → lexes (number_text x ++ rest) (TNum x :: ts).
Proof.
  intros Hwf Hplain Hrest [f Hf]. exists (S f).
  pose proof (lex_number_text x rest Hwf Hplain Hrest) as Hnum.
  assert (∃ c s', number_text x ++ rest = c :: s'
                  ∧ (is_digit c = true ∨ c = 45%N)) as (c & s' & Hs & Hc).
  { unfold lex_number in Hnum. destruct (number_text x ++ rest) as [|c s']; [done|].
    exists c, s'. split; [done|].
    destruct (N.eqb_spec c 45) as [->|_]; [by right|left].
    destruct (lex_unsigned (c :: s')) as [r|] eqn:Hu; [|done].
    apply lex_unsigned_head in Hu as (? & ? & [= <- <-] & ?). done. }
  rewrite Hs in *. cbn [lex].
  assert (is_json_space c = false ∧ ∀ k, k ∈ [123; 125; 91; 93; 58; 44; 34; 110; 116; 102]%N
                                         → (c =? k)%N = false) as [-> Hk].
  { unfold is_json_space, is_digit in *.
    destruct Hc as [[?%N.leb_le ?%N.leb_le]%andb_true_iff| ->].
    - split; [repeat (apply orb_false_iff; split); apply N.eqb_neq; lia|].
      intros k Hk. apply N.eqb_neq.
      repeat (apply elem_of_cons in Hk as [->|Hk]; [lia|]). by apply elem_of_nil in Hk.
    - split; [done|]. intros k Hk.
      repeat (apply elem_of_cons in Hk as [->|Hk]; [done|]). by apply elem_of_nil in Hk. }
  rewrite !Hk by set_solver.
  rewrite Hnum. cbn [mbind option_bind]. by rewrite Hf.
Qed.

Lemma lexes_null rest ts : lexes rest ts → lexes (lit "null" ++ rest) (TNull :: ts).
Proof. intros [f Hf]. exists (S f). simpl. by rewrite Hf. Qed.

Lemma lexes_true rest ts : lexes rest ts → lexes (lit "true" ++ rest) (TTrue :: ts).
Proof. intros [f Hf]. exists (S f). simpl. by rewrite Hf. Qed.

Lemma lexes_false rest ts : lexes rest ts → lexes (lit "false" ++ rest) (TFalse :: ts).
Proof. intros [f Hf]. exists (S f). simpl. by rewrite Hf. Qed.

(** ** Tokens of the text of a value *)

Section items.
Context {A : Type} (text : A → js_string) (toks : A → list token).

Lemma lexes_join b items rest ts :
  blank b → Forall (item_lexes text toks) items → items ≠ [] →
  delimited rest = true → lexes rest ts →
  lexes (join (44%N :: b) (text <$> items) ++ rest) (commas (toks <$> items) ++ ts).
Proof.
  intros Hb Hitems Hne Hrest Hlex.
  induction Hitems as [|x items Hx Hitems IH]; [done|]. clear Hne.
  destruct items as [|y items].
  - cbn [fmap list_fmap join commas]. by apply Hx.
  - change (join (44%N :: b) (text <$> x :: y :: items))
      with (text x ++ (44%N :: b) ++ join (44%N :: b) (text <$> y :: items)).
    change (commas (toks <$> x :: y :: items))
      with (toks x ++ TComma :: commas (toks <$> y :: items)).
    rewrite <- !app_assoc. cbn [app]. apply Hx; [done|].
    apply (lexes_punct 44 TComma); [done|]. apply lexes_blank; [done|].
    by apply IH.
Qed.

Lemma lexes_bracketed o c to tc gap indent items rest ts :
  punct_token o = Some to → punct_token c = Some tc →
  blank gap → blank indent → Forall (item_lexes text toks) items →
  lexes rest ts →
  lexes (bracketed o c gap indent (text <$> items) ++ rest)
        (to :: commas (toks <$> items) ++ tc :: ts).
Proof.
  intros Ho Hc Hgap Hindent Hitems Hlex. unfold bracketed.
  destruct items as [|x items].
  - cbn [fmap list_fmap commas app].
    apply (lexes_punct o to); [done|]. by apply (lexes_punct c tc).
  - assert (x :: items ≠ []) as Hne by done. revert Hne Hitems.
    generalize (x :: items). clear x items. intros items Hne Hitems.
    destruct (text <$> items) as [|t texts] eqn:Htexts; [by destruct items|].
    rewrite <- Htexts. clear t texts Htexts.
    destruct gap as [|g gap].
    + change (lit ",") with [44%N]. rewrite <- !app_assoc. cbn [app].
      apply (lexes_punct o to); [done|].
      apply (lexes_join []); [done|done|done|by apply (punct_delimited c tc)|].
      by apply (lexes_punct c tc).
    + set (gap' := g :: gap) in *.
      change (lit "," ++ newline ++ indent ++ gap')
        with (44%N :: newline ++ indent ++ gap').
      rewrite <- !app_assoc. cbn [app].
      assert (blank newline) as Hnl by (by repeat constructor).
      apply (lexes_punct o to); [done|].
      apply lexes_blank; [done|]. apply lexes_blank; [done|].
      apply lexes_blank; [done|].
      apply (lexes_join (newline ++ indent ++ gap')).
      * by repeat apply Forall_app_2.
      * done.
      * done.
      * done.
      * apply lexes_blank; [done|]. apply lexes_blank; [done|].
        by apply (lexes_punct c tc).
Qed.
End items.

Lemma Forall_foldr_and {A} (P : A → Prop) (l : list A) :
  foldr (λ x Q, P x ∧ Q) True l ↔ Forall P l.
Proof.
  induction l as [|x l IH]; simpl.
  - split; [by constructor|done].
  - rewrite Forall_cons. by rewrite IH.
Qed.

Lemma forallb_true_Forall {A} (f : A → bool) (l : list A) :
  forallb f l = true ↔ Forall (λ x, f x = true) l.
Proof.
  induction l as [|x l IH]; simpl.
  - split; [by constructor|done].
  - by rewrite andb_true_iff, Forall_cons, IH.
Qed.

Lemma lexes_serialize v :
  ∀ gap indent rest ts,
    blank gap → blank indent → wf v → plain v = true →
    delimited rest = true → lexes rest ts →
    lexes (serialize gap indent v ++ rest) (tokens v ++ ts).
Proof.
  induction v as [|b|x|s|items IH|fields IH] using value_induction;
    intros gap indent rest ts Hgap Hindent Hwf Hplain Hrest Hlex.
  - by apply lexes_null.
  - destruct b; [by apply lexes_true|by apply lexes_false].
  - by apply lexes_number.
  - by apply lexes_string.
  - cbn [serialize tokens app]. rewrite <- app_assoc. cbn [app].
    apply (lexes_bracketed _ tokens 91 93 TLBracket TRBracket); try done.
    cbn [wf plain] in Hwf, Hplain. apply Forall_foldr_and in Hwf.
    apply forallb_true_Forall in Hplain.
    rewrite Forall_forall in IH, Hwf, Hplain. apply Forall_forall.
    intros v Hv rest' ts' Hrest' Hlex'.
    apply IH; try done.
    + by apply Forall_app_2.
    + by apply Hwf.
    + by apply Hplain.
  - cbn [serialize tokens app]. rewrite <- app_assoc. cbn [app].
    apply (lexes_bracketed _ (λ kv, TStr kv.1 :: TColon :: tokens kv.2)
             123 125 TLBrace TRBrace); try done.
    cbn [wf plain] in Hwf, Hplain. destruct Hwf as [_ Hwf].
    apply Forall_foldr_and in Hwf. apply forallb_true_Forall in Hplain.
    rewrite Forall_forall in IH, Hwf, Hplain. apply Forall_forall.
    intros kv Hkv rest' ts' Hrest' Hlex'.
    rewrite <- !app_assoc. cbn [app]. apply lexes_string.
    change (lit ":" ++ ?t) with (58%N :: t).
    apply (lexes_punct 58 TColon); [done|].
    apply lexes_blank; [destruct gap; by repeat constructor|].
    apply (IH kv Hkv); try done.
    + by apply Forall_app_2.
    + by apply Hwf.
    + by apply (Hplain kv).
Qed.

(** ** Objects keep their keys in order *)

Lemma goes_before_asym a b : goes_before a b = true → goes_before b a = false.
Proof.
  unfold goes_before.
  destruct (index_of_key a) as [i|], (index_of_key b) as [j|]; try done.
  intros H%N.ltb_lt. apply N.ltb_ge. lia.
Qed.

Lemma goes_before_trans a b c :
  goes_before a b = true → goes_before b c = true → goes_before a c = true.
Proof.
  unfold goes_before.
  destruct (index_of_key a) as [i|], (index_of_key b) as [j|],
    (index_of_key c) as [k|]; try done.
  intros H1%N.ltb_lt H2%N.ltb_lt. apply N.ltb_lt. lia.
Qed.

Lemma goes_before_irrefl a : goes_before a a = false.
Proof.
  unfold goes_before. destruct (index_of_key a); [|done]. apply N.ltb_irrefl.
Qed.

Lemma wf_keys_app_l l1 l2 : wf_keys (l1 ++ l2) → wf_keys l1.
Proof.
  induction l1 as [|k l1 IH]; [done|]. cbn [app wf_keys].
  intros [H1 H2]. split; [|by apply IH].
  by apply Forall_app in H1 as [? _].
Qed.

Lemma obj_set_append k v acc :
  wf_keys ((acc ++ [(k, v)]).*1) → obj_set k v acc = acc ++ [(k, v)].
Proof.
  induction acc as [|[k0 v0] acc IH]; [done|].
  cbn [app fmap list_fmap wf_keys fst obj_set]. intros [H1 H2].
  rewrite fmap_app in H1. apply Forall_app in H1 as [_ H1].
  apply Forall_singleton in H1 as [Hne Hgb]. cbn [fst] in *.
  rewrite bool_decide_eq_false_2 by done. rewrite Hgb.
  f_equal. by apply IH.
Qed.

Lemma obj_set_keys k v acc x :
  x ∈ (obj_set k v acc).*1 → x = k ∨ x ∈ acc.*1.
Proof.
  induction acc as [|[k0 v0] acc IH]; cbn [obj_set].
  - intros ?%list_elem_of_singleton. by left.
  - case_bool_decide as Hk; [subst; set_solver|].
    destruct (goes_before k k0); [set_solver|].
    cbn [fmap list_fmap fst]. rewrite !elem_of_cons. naive_solver.
Qed.

Lemma obj_set_wf_keys k v acc :
  wf_keys (acc.*1) → wf_keys ((obj_set k v acc).*1).
Proof.
  induction acc as [|[k0 v0] acc IH]; [done|].
  cbn [fmap list_fmap fst wf_keys obj_set]. intros [H1 H2].
  case_bool_decide as Hk; [by subst|].
  destruct (goes_before k k0) eqn:Hgb.
  - cbn [fmap list_fmap fst wf_keys]. split; [|done].
    constructor; [split; [done|by apply goes_before_asym]|].
    eapply Forall_impl; [exact H1|]. intros x [Hx Hxb]. cbn beta. split.
    + intros ->. congruence.
    + destruct (goes_before x k) eqn:Hxk; [|done].
      by rewrite (goes_before_trans x k k0) in Hxb.
  - cbn [fmap list_fmap fst wf_keys]. split; [|by apply IH].
    apply Forall_forall. intros x [->|Hx]%obj_set_keys.
    + split; [congruence|done].
    + rewrite Forall_forall in H1. by apply H1.
Qed.

Lemma obj_set_values (P : value → Prop) k v acc :
  P v → Forall (λ kv, P kv.2) acc → Forall (λ kv, P kv.2) (obj_set k v acc).
Proof.
  intros Hv. induction 1 as [|[k0 v0] acc H0 Hacc IH]; cbn [obj_set].
  - by repeat constructor.
  - case_bool_decide; [by constructor|].
    destruct (goes_before k k0); by repeat constructor.
Qed.

(** ** Parsing the tokens of a value *)

Lemma tokens_head v : ∃ t ts, tokens v = t :: ts ∧ opens t.
Proof. destruct v as [|[]| | | |]; by eexists _, _. Qed.

Lemma commas_cons {A} (f : A → list token) x y l :
  commas (f <$> x :: y :: l) = f x ++ TComma :: commas (f <$> y :: l).
Proof. done. Qed.

Lemma parse_elements_tokens items :
  Forall parses items → items ≠ [] →
  ∀ fuel acc rest,
    (length (commas (tokens <$> items)) < fuel)%nat →
    parse_elements fuel (commas (tokens <$> items) ++ TRBracket :: rest) acc
    = Some (JArr (acc ++ items), rest).
Proof.
  induction 1 as [|x items Hx Hitems IH]; [done|]. intros _ fuel acc rest Hfuel.
  destruct fuel as [|fuel]; [lia|]. cbn [parse_elements].
  destruct items as [|y items].
  - cbn [fmap list_fmap commas] in *. rewrite Hx by lia. done.
  - rewrite commas_cons in *. rewrite length_app in Hfuel. cbn [length] in Hfuel.
    rewrite <- app_assoc. cbn [app]. rewrite Hx by lia. cbn [mbind option_bind].
    rewrite IH by (done || lia). by rewrite <- app_assoc.
Qed.

Lemma parse_members_tokens fields :
  Forall (λ kv, parses kv.2) fields → fields ≠ [] →
  ∀ fuel acc rest,
    wf_keys ((acc ++ fields).*1) →
    (length (commas ((λ kv, TStr kv.1 :: TColon :: tokens kv.2) <$> fields)) < fuel)%nat →
    parse_members fuel
      (commas ((λ kv, TStr kv.1 :: TColon :: tokens kv.2) <$> fields)
         ++ TRBrace :: rest) acc
    = Some (JObj (acc ++ fields), rest).
Proof.
  induction 1 as [|[k v] fields Hx Hfields IH]; [done|].
  intros _ fuel acc rest Hwf Hfuel.
  destruct fuel as [|fuel]; [lia|]. cbn [parse_members].
  assert (obj_set k v acc = acc ++ [(k, v)]) as Hset.
  { apply obj_set_append. apply (wf_keys_app_l _ (fields.*1)).
    by rewrite <- fmap_app, <- app_assoc. }
  destruct fields as [|y fields].
  - cbn [fmap list_fmap commas fst snd app length] in *.
    rewrite Hx by lia. cbn [mbind option_bind]. by rewrite Hset.
  - rewrite commas_cons in *. cbn [fst snd app length] in *.
    rewrite length_app in Hfuel. cbn [length] in Hfuel.
    rewrite <- app_assoc. cbn [app]. rewrite Hx by lia. cbn [mbind option_bind].
    rewrite Hset, IH; [by rewrite <- app_assoc|done| |lia].
    by rewrite <- app_assoc.
Qed.

Lemma parse_value_tokens v : wf v → parses v.
Proof.
  induction v as [|b|x|s|items IH|fields IH] using value_induction;
    intros Hwf fuel rest Hfuel.
  1-4: destruct fuel as [|fuel]; [simpl in Hfuel; lia|]; try done.
  - by destruct b.
  - cbn [tokens length] in *. rewrite length_app in Hfuel. cbn [length] in Hfuel.
    destruct fuel as [|fuel]; [lia|]. cbn [wf] in Hwf.
    apply Forall_foldr_and in Hwf.
    assert (Forall parses items) as Hitems.
    { rewrite Forall_forall in IH, Hwf. apply Forall_forall.
      intros v Hv. apply IH; [done|]. by apply Hwf. }
    destruct items as [|x items]; [done|].
    cbn [app]. rewrite <- app_assoc. cbn [app].
    destruct (tokens_head x) as (t & ts & Ht & Hopen).
    assert (parse_value (S fuel)
              (TLBracket :: commas (tokens <$> x :: items) ++ TRBracket :: rest)
            = parse_elements fuel
                (commas (tokens <$> x :: items) ++ TRBracket :: rest) []) as ->.
    { destruct items; cbn [fmap list_fmap commas]; rewrite Ht; by destruct t. }
    rewrite parse_elements_tokens by (done || lia). done.
  - cbn [tokens length] in *. rewrite length_app in Hfuel. cbn [length] in Hfuel.
    destruct fuel as [|fuel]; [lia|]. cbn [wf] in Hwf. destruct Hwf as [Hkeys Hwf].
    apply Forall_foldr_and in Hwf.
    assert (Forall (λ kv, parses kv.2) fields) as Hfields.
    { rewrite Forall_forall in IH, Hwf. apply Forall_forall.
      intros kv Hkv. apply IH; [done|]. by apply Hwf. }
    destruct fields as [|[k v] fields]; [done|].
    cbn [app]. rewrite <- app_assoc. cbn [app].
    assert (parse_value (S fuel)
              (TLBrace :: commas ((λ kv, TStr kv.1 :: TColon :: tokens kv.2)
                                    <$> (k, v) :: fields) ++ TRBrace :: rest)
            = parse_members fuel
                (commas ((λ kv, TStr kv.1 :: TColon :: tokens kv.2)
                           <$> (k, v) :: fields) ++ TRBrace :: rest) []) as ->.
    { by destruct fields. }
    rewrite parse_members_tokens by (done || lia). done.
Qed.

(** ** Fuel of the lexer *)

Lemma prepend_Some c r str rest :
  prepend c r = Some (str, rest) → ∃ str', r = Some (str', rest).
Proof. destruct r as [[? ?]|]; [|done]. intros [= <- <-]. by eexists. Qed.

Lemma lex_string_shorter s str rest :
  lex_string s = Some (str, rest) → (length rest < length s)%nat.
Proof.
  remember (length s) as n eqn:Hn. revert s str Hn.
  induction n as [n IH] using lt_wf_ind. intros s str -> H.
  destruct s as [|c s]; [done|]. cbn [lex_string] in H.
  destruct (c =? 34)%N; [injection H as <- <-; simpl; lia|].
  destruct (c =? 92)%N.
  - destruct s as [|e s]; [done|].
    destruct (e =? 117)%N.
    + destruct s as [|h1 [|h2 [|h3 [|h4 s]]]]; try done.
      destruct (hex_value h1), (hex_value h2), (hex_value h3), (hex_value h4);
        try done.
      apply prepend_Some in H as [str' H].
      pose proof (IH (length s) ltac:(simpl; lia) s _ eq_refl H). simpl. lia.
    + destruct (simple_escape e); [|done].
      apply prepend_Some in H as [str' H].
      pose proof (IH (length s) ltac:(simpl; lia) s _ eq_refl H). simpl. lia.
  - destruct (c <? 32)%N; [done|].
    apply prepend_Some in H as [str' H].
    pose proof (IH (length s) ltac:(simpl; lia) s _ eq_refl H). simpl. lia.
Qed.

Lemma span_digits_shorter s : (length (span_digits s).2 ≤ length s)%nat.
Proof.
  induction s as [|c s IH]; [done|]. cbn [span_digits].
  destruct (is_digit c); [|done].
  destruct (span_digits s) as [ds rest]. simpl in *. lia.
Qed.

Lemma lex_number_shorter s x rest :
  lex_number s = Some (x, rest) → (length rest < length s)%nat.
Proof.
  assert (Hu : ∀ t r, lex_unsigned t = Some r → (length r.2 < length t)%nat).
  { intros t [[ds e] r]. unfold lex_unsigned.
    destruct (lex_int t) as [[int s2]|] eqn:Hint; [|done]. cbn [mbind option_bind].
    destruct (lex_frac s2) as [[frac s3]|] eqn:Hfrac; [|done]. cbn [mbind option_bind].
    destruct (lex_exp s3) as [[e' s4]|] eqn:Hexp; [|done]. cbn [mbind option_bind].
    intros [= <- <- <-]. cbn [snd].
    assert (length s2 < length t)%nat.
    { unfold lex_int in Hint. destruct t as [|c t]; [done|].
      destruct (c =? 48)%N; [injection Hint as <- <-; simpl; lia|].
      destruct (is_digit c) eqn:Hc; [|done].
      cbn [span_digits] in Hint. rewrite Hc in Hint.
      pose proof (span_digits_shorter t).
      destruct (span_digits t). injection Hint as <- <-. simpl in *. lia. }
    assert (length s3 ≤ length s2)%nat.
    { unfold lex_frac in Hfrac. destruct s2 as [|c s2]; [by injection Hfrac as <- <-|].
      destruct (c =? 46)%N; [|by injection Hfrac as <- <-].
      pose proof (span_digits_shorter s2).
      destruct (span_digits s2) as [[|d ds'] r']; [done|].
      injection Hfrac as <- <-. simpl in *. lia. }
    assert (length s4 ≤ length s3)%nat.
    { unfold lex_exp in Hexp. destruct s3 as [|c s3]; [by injection Hexp as <- <-|].
      destruct ((c =? 101) || (c =? 69))%N; [|by injection Hexp as <- <-].
      destruct s3 as [|d s3]; [by simpl in Hexp|].
      destruct (d =? 45)%N; [|destruct (d =? 43)%N].
      all: match type of Hexp with
           | context [span_digits ?t] =>
               pose proof (span_digits_shorter t);
               destruct (span_digits t) as [[|? ?] ?]; [done|];
               injection Hexp as _ <-; simpl in *; lia
           end. }
    lia. }
  unfold lex_number. intros H.
  destruct s as [|c s].
  - destruct (lex_unsigned []) as [[[ds e] r]|] eqn:E; [|done].
    apply Hu in E. simpl in E. lia.
  - destruct (c =? 45)%N.
    + destruct (lex_unsigned s) as [[[ds e] r]|] eqn:E; [|done].
      apply Hu in E. injection H as _ <-. simpl in *. lia.
    + destruct (lex_unsigned (c :: s)) as [[[ds e] r]|] eqn:E; [|done].
      apply Hu in E. injection H as _ <-. simpl in *. lia.
Qed.

Lemma lex_name_shorter name s rest :
  lex_name name s = Some rest → length s = (length name + length rest)%nat.
Proof.
  revert s. induction name as [|c name IH]; intros s; cbn [lex_name].
  - by intros [= ->].
  - destruct s as [|d s]; [done|]. destruct (c =? d)%N; [|done].
    intros H%IH. simpl. lia.
Qed.

Lemma fmap_cons_Some {A} (t : A) (r : option (list A)) ts :
  cons t <$> r = Some ts → ∃ ts', r = Some ts' ∧ ts = t :: ts'.
Proof. destruct r; [|done]. intros [= <-]. by eexists. Qed.

(** The length of a text is enough fuel for the lexer. *)
Lemma lex_fuel fuel s ts :
  lex fuel s = Some ts → ∀ fuel', (length s ≤ fuel')%nat → lex fuel' s = Some ts.
Proof.
  revert s ts. induction fuel as [|fuel IH]; intros s ts H fuel' Hlen.
  { destruct s; [by destruct fuel'|done]. }
  destruct s as [|c s]; [by destruct fuel'|].
  destruct fuel' as [|fuel']; [simpl in Hlen; lia|].
  cbn [length] in Hlen. cbn [lex] in *.
  destruct (is_json_space c); [apply IH; [done|lia]|].
  repeat match type of H with
         | (if (c =? ?k)%N then cons ?t <$> _ else _) = _ =>
             destruct (c =? k)%N;
               [apply fmap_cons_Some in H as (ts' & H & ->);
                rewrite (IH _ _ H) by lia; done|]
         end.
  destruct (c =? 34)%N.
  { destruct (lex_string s) as [[str rest]|] eqn:Hs; [|done].
    cbn [mbind option_bind] in *.
    apply lex_string_shorter in Hs.
    apply fmap_cons_Some in H as (ts' & H & ->).
    rewrite (IH _ _ H) by lia. done. }
  repeat match type of H with
         | (if (c =? ?k)%N then lex_name ?n ?s ≫= _ else _) = _ =>
             destruct (c =? k)%N;
               [destruct (lex_name n s) as [rest|] eqn:Hn; [|done];
                cbn [mbind option_bind] in *;
                apply lex_name_shorter in Hn; simpl in Hn;
                apply fmap_cons_Some in H as (ts' & H & ->);
                rewrite (IH _ _ H) by lia; done|]
         end.
  destruct (lex_number (c :: s)) as [[x rest]|] eqn:Hn; [|done].
  cbn [mbind option_bind] in *. apply lex_number_shorter in Hn. simpl in Hn.
  apply fmap_cons_Some in H as (ts' & H & ->).
  rewrite (IH _ _ H) by lia. done.
Qed.

(** ** The text of a value parses to the value *)

Lemma JSON_parse_serialize gap v :
  blank gap → wf v → plain v = true →
  JSON_parse (serialize gap [] v) = Return v.
Proof.
  intros Hgap Hwf Hplain.
  destruct (lexes_serialize v gap [] [] [] Hgap (Forall_nil_2 _) Hwf Hplain
              eq_refl lexes_nil) as [fuel Hlex].
  rewrite !app_nil_r in Hlex.
  unfold JSON_parse. rewrite (lex_fuel _ _ _ Hlex) by done.
  pose proof (parse_value_tokens v Hwf (S (length (tokens v))) []) as Hparse.
  rewrite app_nil_r in Hparse. by rewrite Hparse by lia.
Qed.

(** ** What [JSON.parse] builds is well formed *)

Lemma strip_zeros_canonical fuel m e :
  m ≠ 0%N → (N.to_nat (N.log2 m) ≤ fuel)%nat →
  ((strip_zeros fuel m e).1 mod 10)%N ≠ 0%N.
Proof.
  revert m e. induction fuel as [|fuel IH]; intros m e Hm Hfuel.
  - assert (N.log2 m = 0%N) as Hlog by lia.
    apply N.log2_null in Hlog. assert (m = 1%N) as -> by lia. done.
  - cbn [strip_zeros]. destruct (N.eqb_spec (m mod 10) 0) as [Hz|Hz]; [|done].
    pose proof (N.div_mod m 10 ltac:(done)) as Hdm. rewrite Hz, N.add_0_r in Hdm.
    apply IH; [lia|].
    assert (N.log2 (m / 10) < N.log2 m)%N; [|lia].
    assert (0 < m / 10)%N as Hq by lia.
    pose proof (N.log2_double (m / 10) Hq) as Hd.
    assert (2 * (m / 10) ≤ m)%N as Hle by lia.
    apply N.log2_le_mono in Hle. lia.
Qed.

Lemma number_of_literal_wf neg ds e : wf_number (number_of_literal neg ds e).
Proof.
  unfold number_of_literal. set (m := default 0%N (N_of_digits ds)).
  destruct (overflows m e) eqn:Ho; [done|].
  destruct (underflows m e) eqn:Hu; [by left|].
  unfold finite. destruct (N.eqb_spec m 0) as [Hm|Hm]; [by left|].
  pose proof (strip_zeros_canonical (N.to_nat (N.log2 m)) m e Hm ltac:(done)) as Hc.
  destruct (strip_zeros_spec (N.to_nat (N.log2 m)) m e) as (k & He & Hk).
  destruct (strip_zeros _ m e) as [m' e']. cbn [fst snd] in *. right.
  assert (m' ≠ 0%N) as Hm' by (intros ->; done).
  split; [done|].
  rewrite <- (overflows_scaled m' k e'), <- (underflows_scaled m' k e') by done.
  rewrite <- Hk. replace (e' - Z.of_nat k)%Z with e by lia. done.
Qed.

Lemma lex_number_wf s x rest : lex_number s = Some (x, rest) → wf_number x.
Proof.
  unfold lex_number.
  destruct (match s with
            | [] => (false, s)
            | c :: r => if (c =? 45)%N then (true, r) else (false, s)
            end) as [neg s1].
  destruct (lex_unsigned s1) as [[[ds e] r]|]; [|done].
  intros [= <- _]. apply number_of_literal_wf.
Qed.

Lemma lex_wf fuel s ts : lex fuel s = Some ts → Forall wf_token ts.
Proof.
  revert s ts. induction fuel as [|fuel IH]; intros s ts H.
  { destruct s; [|done]. injection H as <-. constructor. }
  destruct s as [|c s]; [injection H as <-; constructor|].
  cbn [lex] in H.
  destruct (is_json_space c); [by eapply IH|].
  repeat match type of H with
         | (if (c =? ?k)%N then cons ?t <$> _ else _) = _ =>
             destruct (c =? k)%N;
               [apply fmap_cons_Some in H as (ts' & H & ->);
                constructor; [done|by eapply IH]|]
         end.
  destruct (c =? 34)%N.
  { destruct (lex_string s) as [[str rest]|]; [|done].
    apply fmap_cons_Some in H as (ts' & H & ->).
    constructor; [done|by eapply IH]. }
  repeat match type of H with
         | (if (c =? ?k)%N then lex_name ?n ?s ≫= _ else _) = _ =>
             destruct (c =? k)%N;
               [destruct (lex_name n s) as [rest|]; [|done];
                apply fmap_cons_Some in H as (ts' & H & ->);
                constructor; [done|by eapply IH]|]
         end.
  destruct (lex_number (c :: s)) as [[x rest]|] eqn:Hn; [|done].
  apply fmap_cons_Some in H as (ts' & H & ->).
  constructor; [by eapply lex_number_wf|by eapply IH].
Qed.

Lemma wf_arr items : wf (JArr items) ↔ Forall wf items.
Proof. apply Forall_foldr_and. Qed.

Lemma wf_obj fields :
  wf (JObj fields) ↔ wf_keys (fields.*1) ∧ Forall (λ kv, wf kv.2) fields.
Proof. cbn [wf]. by rewrite Forall_foldr_and. Qed.

Lemma parse_wf fuel :
  (∀ ts v r, Forall wf_token ts → parse_value fuel ts = Some (v, r) →
     wf v ∧ Forall wf_token r)
  ∧ (∀ ts items v r, Forall wf_token ts → Forall wf items →
       parse_elements fuel ts items = Some (v, r) → wf v ∧ Forall wf_token r)
  ∧ (∀ ts fields v r, Forall wf_token ts → wf (JObj fields) →
       parse_members fuel ts fields = Some (v, r) → wf v ∧ Forall wf_token r).
Proof.
  induction fuel as [|fuel (IHv & IHe & IHm)]; [done|]. split_and!.
  - intros ts v r Hts H. cbn [parse_value] in H.
    destruct ts as [|t ts]; [done|].
    apply Forall_cons in Hts as [Ht Hts].
    destruct t; try done; try (injection H as <- <-; done).
    + assert (wf (JObj [])) as Hempty by done.
      destruct ts as [|t' ts]; [by apply (IHm _ _ _ _ (Forall_nil_2 _) Hempty H)|].
      destruct t';
        try (by apply (IHm _ _ _ _ Hts Hempty H)).
      apply Forall_cons in Hts as [_ Hts]. by injection H as <- <-.
    + assert (Forall wf []) as Hempty by constructor.
      destruct ts as [|t' ts]; [by apply (IHe _ _ _ _ (Forall_nil_2 _) Hempty H)|].
      destruct t';
        try (by apply (IHe _ _ _ _ Hts Hempty H)).
      apply Forall_cons in Hts as [_ Hts]. by injection H as <- <-.
  - intros ts items v r Hts Hitems H. cbn [parse_elements] in H.
    destruct (parse_value fuel ts) as [[v' r']|] eqn:Hv; [|done].
    cbn [mbind option_bind] in H.
    destruct (IHv _ _ _ Hts Hv) as [Hv' Hr'].
    assert (Forall wf (items ++ [v'])) as Hitems'
      by (apply Forall_app; split; [done|by constructor]).
    destruct r' as [|t r']; [done|]. apply Forall_cons in Hr' as [_ Hr'].
    destruct t; try done.
    + injection H as <- <-. split; [by apply wf_arr|done].
    + by eapply IHe.
  - intros ts fields v r Hts Hfields H. cbn [parse_members] in H.
    destruct ts as [|[] [|[] ts]]; try done.
    apply Forall_cons in Hts as [_ [_ Hts]%Forall_cons].
    destruct (parse_value fuel ts) as [[v' r']|] eqn:Hv; [|done].
    cbn [mbind option_bind] in H.
    destruct (IHv _ _ _ Hts Hv) as [Hv' Hr'].
    assert (wf (JObj (obj_set s v' fields))) as Hfields'.
    { apply wf_obj in Hfields as [Hk Hvs]. apply wf_obj. split.
      - by apply obj_set_wf_keys.
      - by apply (obj_set_values wf). }
    destruct r' as [|t r']; [done|]. apply Forall_cons in Hr' as [_ Hr'].
    destruct t; try done.
    + by injection H as <- <-.
    + by eapply IHm.
Qed.

Lemma JSON_parse_wf text v : JSON_parse text = Return v → wf v.
Proof.
  unfold JSON_parse. destruct (lex (length text) text) as [ts|] eqn:Hlex; [|done].
  destruct (parse_value (S (length ts)) ts) as [[v' [|? ?]]|] eqn:Hparse; try done.
  intros [= <-].
  by destruct (proj1 (parse_wf _) _ _ _ (lex_wf _ _ _ Hlex) Hparse).
Qed.

(** ** What is written and read back, and texts of one line *)

Lemma serialize_normalize gap indent v :
  serialize gap indent (normalize v) = serialize gap indent v.
Proof.
  revert indent.
  induction v as [|b|x|s|items IH|fields IH] using value_induction;
    intros indent; try done.
  - destruct x as [neg m e|neg|]; try done. cbn [normalize normalize_number].
    destruct (N.eqb_spec m 0) as [->|Hm]; done.
  - cbn [normalize serialize]. f_equal. rewrite <- list_fmap_compose.
    apply Forall_fmap_ext_1. eapply Forall_impl; [exact IH|].
    intros v Hv. apply Hv.
  - cbn [normalize serialize]. f_equal. rewrite <- list_fmap_compose.
    apply Forall_fmap_ext_1. eapply Forall_impl; [exact IH|].
    intros [k v] Hv. cbn [fst snd compose] in *. by rewrite Hv.
Qed.

Lemma normalize_plain v : plain (normalize v) = true.
Proof.
  induction v as [|b|x|s|items IH|fields IH] using value_induction; try done.
  - destruct x as [neg m e|neg|]; try done. cbn [normalize normalize_number].
    destruct (N.eqb_spec m 0) as [->|Hm]; [done|]. cbn [plain plain_number].
    by rewrite (proj2 (N.eqb_neq m 0) Hm), andb_false_r.
  - cbn [normalize plain]. apply forallb_true_Forall, Forall_fmap.
    eapply Forall_impl; [exact IH|]. done.
  - cbn [normalize plain]. apply forallb_true_Forall, Forall_fmap.
    eapply Forall_impl; [exact IH|]. done.
Qed.

Lemma normalize_wf v : wf v → wf (normalize v).
Proof.
  induction v as [|b|x|s|items IH|fields IH] using value_induction; try done.
  - destruct x as [neg m e|neg|]; try done. cbn [normalize normalize_number].
    destruct (N.eqb_spec m 0) as [->|Hm]; [by left|done].
  - rewrite !wf_arr. intros Hwf. cbn [normalize]. apply wf_arr, Forall_fmap.
    rewrite Forall_forall in IH, Hwf. apply Forall_forall. intros v Hv.
    by apply IH, Hwf.
  - rewrite wf_obj. intros [Hk Hwf]. cbn [normalize]. apply wf_obj. split.
    + rewrite <- list_fmap_compose.
      by replace (fst ∘ (λ kv : js_string * value, (kv.1, normalize kv.2)))
        with (fst : js_string * value → js_string).
    + apply Forall_fmap. rewrite Forall_forall in IH, Hwf. apply Forall_forall.
      intros kv Hkv. by apply (IH kv Hkv), Hwf.
Qed.

(** What a text that was written parses to: the value, normalized. *)
Lemma JSON_parse_serialize_normalize gap v :
  blank gap → wf v → JSON_parse (serialize gap [] v) = Return (normalize v).
Proof.
  intros Hgap Hwf. rewrite <- serialize_normalize.
  apply JSON_parse_serialize; [done|by apply normalize_wf|apply normalize_plain].
Qed.

Lemma no_c0_control_digits s : all_digits s = true → no_c0_control s.
Proof.
  unfold all_digits, no_c0_control. intros H. apply forallb_true_Forall in H.
  eapply Forall_impl; [exact H|]. intros c Hc. unfold is_digit in Hc.
  apply andb_true_iff in Hc as [Hc _]. apply N.leb_le in Hc. lia.
Qed.

Lemma no_c0_control_join sep items :
  no_c0_control sep → Forall no_c0_control items → no_c0_control (join sep items).
Proof.
  intros Hsep Hitems. induction Hitems as [|x l Hx Hl IH]; [constructor|].
  destruct l as [|y l]; [by simpl; rewrite ?app_nil_r|].
  change (join sep (x :: y :: l)) with (x ++ sep ++ join sep (y :: l)).
  by repeat apply Forall_app_2.
Qed.

Lemma hex_digit_printable d : (32 ≤ hex_digit d)%N.
Proof. unfold hex_digit. case_match; lia. Qed.

Lemma no_c0_control_unicode_escape c : no_c0_control (unicode_escape c).
Proof.
  unfold unicode_escape, no_c0_control.
  repeat apply Forall_cons_2; try apply Forall_nil_2;
    try apply hex_digit_printable; lia.
Qed.

Lemma no_c0_control_escape_unit c : no_c0_control (escape_unit c).
Proof.
  unfold escape_unit.
  repeat (case_match; [by repeat constructor|]).
  destruct (N.ltb_spec c 32); [apply no_c0_control_unicode_escape|].
  by repeat constructor.
Qed.

Lemma no_c0_control_quote_units s : no_c0_control (quote_units s).
Proof.
  remember (length s) as n eqn:Hn. revert s Hn.
  induction n as [n IH] using lt_wf_ind. intros s ->.
  destruct s as [|c s]; [constructor|]. cbn [quote_units].
  assert (no_c0_control (quote_units s)) as Hs.
  { apply (IH (length s)); [simpl; lia|done]. }
  destruct (is_lead c) eqn:Hlead.
  - destruct s as [|d s]; [apply no_c0_control_unicode_escape|].
    destruct (is_trail d) eqn:Htrail.
    + unfold is_lead in Hlead. unfold is_trail in Htrail.
      apply andb_true_iff in Hlead as [Hc%N.leb_le _].
      apply andb_true_iff in Htrail as [Hd%N.leb_le _].
      constructor; [lia|]. constructor; [lia|].
      apply (IH (length s)); [simpl; lia|done].
    + apply Forall_app_2; [apply no_c0_control_unicode_escape|done].
  - destruct (is_trail c).
    + apply Forall_app_2; [apply no_c0_control_unicode_escape|done].
    + apply Forall_app_2; [apply no_c0_control_escape_unit|done].
Qed.

Lemma no_c0_control_quote s : no_c0_control (quote s).
Proof.
  unfold quote. apply Forall_app_2; [by repeat constructor|].
  apply Forall_app_2; [apply no_c0_control_quote_units|by repeat constructor].
Qed.

Lemma no_c0_control_lit_app (s1 s2 : js_string) :
  no_c0_control s1 → no_c0_control s2 → no_c0_control (s1 ++ s2).
Proof. apply Forall_app_2. Qed.

Lemma no_c0_control_layout s n : all_digits s = true → no_c0_control (layout s n).
Proof.
  intros Hs. pose proof (no_c0_control_digits s Hs) as Hl. unfold layout.
  assert (∀ k, no_c0_control (zeros k)) as Hz.
  { intros k. apply no_c0_control_digits, all_digits_zeros. }
  assert (∀ k, no_c0_control (take k s)) as Ht by (intros; by apply Forall_take).
  assert (∀ k, no_c0_control (drop k s)) as Hd by (intros; by apply Forall_drop).
  assert (∀ k, no_c0_control (digits_of_N k)) as Hk.
  { intros k. apply no_c0_control_digits, digits_of_N_spec. }
  assert (no_c0_control (lit ".")) by (by repeat constructor).
  assert (no_c0_control (lit "0.")) by (by repeat constructor).
  assert (no_c0_control (lit "e")) by (by repeat constructor).
  assert (no_c0_control (lit "+")) by (by repeat constructor).
  assert (no_c0_control (lit "-")) by (by repeat constructor).
  repeat case_match; repeat apply no_c0_control_lit_app; try done;
    try (by repeat constructor); subst; try done.
  all: by inversion Hl; subst.
Qed.

Lemma no_c0_control_number_text x : no_c0_control (number_text x).
Proof.
  destruct x as [neg m e|neg|]; try (by repeat constructor).
  unfold number_text, toString. case_match; [by repeat constructor|].
  apply no_c0_control_lit_app; [destruct neg; by repeat constructor|].
  apply no_c0_control_layout, digits_of_N_spec.
Qed.

Lemma no_c0_control_bracketed opening closing indent items :
  (32 ≤ opening)%N → (32 ≤ closing)%N → Forall no_c0_control items →
  no_c0_control (bracketed opening closing [] indent items).
Proof.
  intros Ho Hc Hitems. unfold bracketed.
  destruct items as [|x l]; [by repeat constructor|].
  apply no_c0_control_lit_app; [by repeat constructor|].
  apply no_c0_control_lit_app; [|by repeat constructor].
  apply no_c0_control_join; [by repeat constructor|done].
Qed.

Lemma no_c0_control_serialize indent v : no_c0_control (serialize [] indent v).
Proof.
  revert indent.
  induction v as [|b|x|s|items IH|fields IH] using value_induction;
    intros indent.
  - by repeat constructor.
  - destruct b; by repeat constructor.
  - apply no_c0_control_number_text.
  - apply no_c0_control_quote.
  - cbn [serialize]. apply no_c0_control_bracketed; [lia..|].
    apply Forall_fmap. eapply Forall_impl; [exact IH|]. intros v Hv. apply Hv.
  - cbn [serialize]. apply no_c0_control_bracketed; [lia..|].
    apply Forall_fmap. eapply Forall_impl; [exact IH|]. intros [k v] Hv.
    cbn [fst snd compose] in *.
    apply no_c0_control_lit_app; [apply no_c0_control_quote|].
    apply no_c0_control_lit_app; [by repeat constructor|]. apply Hv.
Qed.

End JsonFacts.

(* ===================================================================== *)
(** * Schemas and dispatch *)
(* ===================================================================== *)

(** The schema combinators of zod that the tools use. A schema reads one
    argument (the property of the argument object, [None] when it is
    absent) and gives the validated value or throws a [ZodError]. *)
Module Zod.
Import JS Json.

Definition schema (A : Type) : Type := option value -> outcome A.

Definition invalid {A} (msg : string) : outcome A := Throw (ZodError (lit msg)).

(** [z.string()]. *)
Definition z_string : schema js_string := fun arg =>
  match arg with
  | Some (JStr s) => Return s
  | Some _ => invalid "Expected string"
  | None => invalid "Required"
  end.

(** [z.number()]: a number that is not NaN. *)
Definition z_number : schema number := fun arg =>
  match arg with
  | Some (JNum NaN) => invalid "Expected number, received nan"
  | Some (JNum x) => Return x
  | Some _ => invalid "Expected number"
  | None => invalid "Required"
  end.

(** [.int()], [.min(bound)] and [.max(bound)] on a number schema. *)
Definition z_int (s : schema number) : schema number := fun arg =>
  x ← s arg;
  if isInteger x then Return x else invalid "Expected integer, received float".

Definition z_min (bound : Z) (s : schema number) : schema number := fun arg =>
  x ← s arg;
  if Z_le bound x then Return x
  else invalid "Number must be greater than or equal to the minimum".

Definition z_max (bound : Z) (s : schema number) : schema number := fun arg =>
  x ← s arg;
  if le_Z x bound then Return x
  else invalid "Number must be less than or equal to the maximum".

(** [.url()] on a string schema; [is_url] is the runtime's URL parser. *)
Definition z_url (is_url : js_string -> bool) (s : schema js_string)
  : schema js_string := fun arg =>
  x ← s arg;
  if is_url x then Return x else invalid "Invalid url".

(** [.optional()] and [.default(d)]: an absent argument is accepted, or
    replaced by [d] before the inner schema reads it. *)
Definition z_optional {A} (s : schema A) : schema (option A) := fun arg =>
  match arg with
  | None => Return None
  | Some _ => x ← s arg; Return (Some x)
  end.

Definition z_default {A} (d : value) (s : schema A) : schema A := fun arg =>
  match arg with
  | None => s (Some d)
  | Some _ => s arg
  end.

(** [z.enum([...])]: one of the listed strings. *)
Definition z_enum {A} (values : list (js_string * A)) : schema A := fun arg =>
  match arg with
  | Some (JStr s) =>
      match list_find (fun nv => s = nv.1) values with
      | Some (_, (_, a)) => Return a
      | None => invalid "Invalid enum value"
      end
  | Some _ => invalid "Expected string"
  | None => invalid "Required"
  end.

(** [z.object({...})]: the argument is an object; [read] validates its
    properties, looked up by name. Properties the schema does not name are
    dropped. *)
Definition z_object {A} (read : (string -> option value) -> outcome A)
  : schema A := fun arg =>
  match arg with
  | Some (JObj fields) => read (fun name => obj_get (lit name) fields)
  | Some _ => invalid "Expected object"
  | None => invalid "Required"
  end.

(** A schema fails with a [ZodError] only. *)
Definition throws_ZodError {A} (s : Zod.schema A) : Prop :=
  ∀ arg e, s arg = Throw e → ∃ msg, e = ZodError msg.

End Zod.

(** Modelled from the spec: the dispatcher of section 4.3 (the server
    library that calls the handlers is not part of the repository). A call
    validates the argument bag against the tool's schema; the handler runs
    on the validated arguments, and only when validation succeeds. *)
Module Dispatch.
Import JS Json.

Inductive call_result (R : Type) : Type :=
  | Rejected (e : exn)
  | Executed (r : R).
Arguments Rejected {R} e.
Arguments Executed {R} r.

Definition call_tool {P R} (parameters : Zod.schema P) (execute : P -> R)
  (args : value) : call_result R :=
  match parameters (Some args) with
  | Throw e => Rejected e
  | Return params => Executed (execute params)
  end.

End Dispatch.

(* ===================================================================== *)
(** * src/core/tools.ts *)
(* ===================================================================== *)

Module Tools.
Import JS Json JsonFacts.

(** ** text_transform *)

Inductive text_operation : Type :=
  | uppercase | lowercase | capitalize | reverse_op | word_count | char_count.

Section TextTransform.
(** [String.prototype.toUpperCase] and [toLowerCase]: Unicode case
    mapping, a table of the runtime. *)
Variables toUpperCase toLowerCase : js_string -> js_string.

(** The handler of [text_transform]. The operation is a value of the
    schema's enumeration, so the [default] branch of the switch has no
    input. *)
Definition text_transform (text : js_string) (operation : text_operation)
  : js_string :=
  match operation with
  | uppercase => toUpperCase text
  | lowercase => toLowerCase text
  | capitalize =>
      join (lit " ")
        ((fun word => toUpperCase (charAt0 word) ++ toLowerCase (slice1 word))
           <$> split_on 32 text)
  | reverse_op => join [] (reverse (split_units text))
  | word_count =>
      lit "Word count: "
        ++ string_of_Z (Z.of_nat (length (split_spaces (trim text))))
  | char_count =>
      lit "Character count: " ++ string_of_Z (Z.of_nat (length text))
  end.
End TextTransform.

(** ** calculate *)

Inductive calc_operation : Type :=
  | add | subtract | multiply | divide | power.

Definition calc_operation_name (op : calc_operation) : js_string :=
  match op with
  | add => lit "add"
  | subtract => lit "subtract"
  | multiply => lit "multiply"
  | divide => lit "divide"
  | power => lit "power"
  end.

Section Calculate.
(** [Math.pow] and the rendering of a number inside a template literal
    ([Number::toString]) belong to the runtime. The arithmetic operators
    are those of IEEE 754 binary64, the primitive floats. *)
Variable Math_pow : float -> float -> float.
Variable Number_toString : float -> js_string.

(** The text the handler returns: [`${a} ${operation} ${b} = ${result}`]. *)
Definition calc_report (a : float) (op : calc_operation) (b result : float)
  : js_string :=
  Number_toString a ++ lit " " ++ calc_operation_name op ++ lit " "
    ++ Number_toString b ++ lit " = " ++ Number_toString result.

(** The handler of [calculate]; [b === 0] is IEEE equality, which holds of
    both zeros and of nothing else. *)
Definition calculate (operation : calc_operation) (a b : float)
  : outcome js_string :=
  match operation with
  | add => Return (calc_report a add b (a + b)%float)
  | subtract => Return (calc_report a subtract b (a - b)%float)
  | multiply => Return (calc_report a multiply b (a * b)%float)
  | divide =>
      if PrimFloat.eqb b 0%float
      then Throw (Error (lit "Division by zero is not allowed"))
      else Return (calc_report a divide b (a / b)%float)
  | power => Return (calc_report a power b (Math_pow a b))
  end.
End Calculate.

(** A rendering of numbers for sample calls: 1, 4 and 0.25 as JavaScript
    prints them. *)
Definition sample_show (x : float) : js_string :=
  if PrimFloat.eqb x 1%float then lit "1"
  else if PrimFloat.eqb x 4%float then lit "4"
  else if PrimFloat.eqb x 0.25%float then lit "0.25"
  else lit "?".

(** ** generate_data *)

Inductive data_type : Type :=
  | uuid | password | email | phone | color | number_type.

Record gen_options : Type := {
  opt_length : option number;
  opt_min : option number;
  opt_max : option number
}.

Record generate_data_params : Type := {
  type : data_type;
  count : number;
  options : option gen_options
}.

(** The schema of [generate_data]: [count] is a number between 1 and 100
    (the schema does not ask for an integer), 1 when absent. *)
Definition generate_data_parameters : Zod.schema generate_data_params :=
  Zod.z_object (fun get =>
    ty ← Zod.z_enum
             [(lit "uuid", uuid); (lit "password", password);
              (lit "email", email); (lit "phone", phone);
              (lit "color", color); (lit "number", number_type)]
             (get "type");
    cnt ← Zod.z_default (JNum (of_Z 1))
              (Zod.z_max 100 (Zod.z_min 1 Zod.z_number)) (get "count");
    opts ← Zod.z_optional
                (Zod.z_object (fun get' =>
                   len ← Zod.z_optional Zod.z_number (get' "length");
                   lo ← Zod.z_optional Zod.z_number (get' "min");
                   hi ← Zod.z_optional Zod.z_number (get' "max");
                   Return {| opt_length := len; opt_min := lo;
                             opt_max := hi |}))
                (get "options");
    Return {| type := ty; count := cnt; options := opts |}).

(** [for (let i = 0; i < bound; i++) body], from counter [i] on. The
    counter is an integer. [None]: the loop is still running when the
    fuel is spent. *)
Fixpoint for_loop {S : Type} (fuel : nat) (bound : number) (i : Z)
  (body : S -> option S) (s : S) : option S :=
  if Z_lt i bound then
    match fuel with
    | O => None
    | S fuel' =>
        match body s with
        | Some s' => for_loop fuel' bound (i + 1) body s'
        | None => None
        end
    end
  else Some s.

(** [x || d] for an optional number: [d] when [x] is absent or falsy. *)
Definition or_default (x : option number) (d : number) : number :=
  match x with
  | Some v => if truthy v then v else d
  | None => d
  end.

(** [s.charAt(pos)]. *)
Definition charAt (s : js_string) (pos : number) : js_string :=
  match to_integer pos with
  | Some z =>
      if ((0 <=? z) && (z <? Z.of_nat (length s)))%Z
      then take 1 (drop (Z.to_nat z) s) else []
  | None => []
  end.

(** [a[x]] inside a template literal: the element when [x] is an index of
    the array, the text of [undefined] otherwise. *)
Definition element_text (a : list js_string) (x : number) : js_string :=
  match x with
  | Fin _ _ _ =>
      if isInteger x then
        match to_integer x with
        | Some z =>
            if (0 <=? z)%Z then default (lit "undefined") (a !! Z.to_nat z)
            else lit "undefined"
        | None => lit "undefined"
        end
      else lit "undefined"
  | _ => lit "undefined"
  end.

(** [s.padStart(6, '0')] and [s.substring(2, 8)]. *)
Definition padStart6 (s : js_string) : js_string := zeros (6 - length s) ++ s.
Definition substring_2_8 (s : js_string) : js_string := take 6 (drop 2 s).

Definition password_chars : js_string :=
  lit "ABCDEFGHIJKLMNOPQRSTUVWXYZabcdefghijklmnopqrstuvwxyz0123456789!@#$%^&*".

Definition email_domains : list js_string :=
  [lit "example.com"; lit "test.org"; lit "demo.net"].

Section GenerateData.
(** The sources of randomness, [Math.random] and [crypto.randomUUID],
    read a generator state and advance it. [Number.prototype.toString]
    with a radix is the runtime's. *)
Variable rng : Type.
Variable Math_random : rng -> number * rng.
Variable crypto_randomUUID : rng -> js_string * rng.
Variable Number_toString_radix : number -> N -> js_string.

(** [Math.floor(Math.random() * a + b)]. *)
Definition random_floor (a b : number) (r : rng) : number * rng :=
  let '(x, r') := Math_random r in (floor (Num.add (Num.mul x a) b), r').

(** The body of [case "password"]: one character per turn of the inner
    loop. *)
Definition password_step (st : js_string * rng) : option (js_string * rng) :=
  let '(pw, r) := st in
  let '(pos, r') := random_floor (number_of_length password_chars) (of_Z 0) r in
  Some (pw ++ charAt password_chars pos, r').

(** One turn of the loop of the handler: the [switch] on the type pushes
    one value. *)
Definition generate_item (fuel : nat) (t : data_type) (opts : option gen_options)
  (st : list js_string * rng) : option (list js_string * rng) :=
  let '(results, r) := st in
  match t with
  | uuid =>
      let '(u, r') := crypto_randomUUID r in
      Some (results ++ [u], r')
  | password =>
      let len := or_default (opts ≫= opt_length) (of_Z 12) in
      '(pw, r') ← for_loop fuel len 0 password_step ([], r);
      Some (results ++ [pw], r')
  | email =>
      let '(x, r1) := Math_random r in
      let username := substring_2_8 (Number_toString_radix x 36) in
      let '(pos, r2) := random_floor (number_of_length email_domains) (of_Z 0) r1 in
      let domain := element_text email_domains pos in
      Some (results ++ [username ++ lit "@" ++ domain], r2)
  | phone =>
      let '(a, r1) := random_floor (of_Z 900) (of_Z 100) r in
      let '(b, r2) := random_floor (of_Z 900) (of_Z 100) r1 in
      let '(c, r3) := random_floor (of_Z 9000) (of_Z 1000) r2 in
      Some (results ++ [lit "+1-" ++ toString a ++ lit "-" ++ toString b
                          ++ lit "-" ++ toString c], r3)
  | color =>
      let '(x, r') := random_floor (of_Z 16777215) (of_Z 0) r in
      Some (results ++ [lit "#" ++ padStart6 (Number_toString_radix x 16)], r')
  | number_type =>
      let min := or_default (opts ≫= opt_min) (of_Z 1) in
      let max := or_default (opts ≫= opt_max) (of_Z 100) in
      let '(x, r') := Math_random r in
      let number := Num.add (floor (Num.mul x (Num.add (Num.sub max min) (of_Z 1)))) min in
      Some (results ++ [toString number], r')
  end.

(** The loop of the handler: [results] after [for (let i = 0; i < count; i++)]. *)
Definition generate_results (fuel : nat) (params : generate_data_params)
  (r : rng) : option (list js_string * rng) :=
  for_loop fuel (count params) 0
    (generate_item fuel (type params) (options params)) ([], r).

(** The handler of [generate_data]. It returns
    [count === 1 ? results[0] : results.join('\n')]; the inner option is
    [None] for [undefined]. *)
Definition generate_data (fuel : nat) (params : generate_data_params)
  (r : rng) : option (option js_string * rng) :=
  '(results, r') ← generate_results fuel params r;
  Some (if strict_equal_Z (count params) 1 then results !! 0%nat
        else Some (join newline results),
        r').
End GenerateData.

(** The format of a UUID: groups of 8, 4, 4, 4 and 12 lower-case
    hexadecimal digits, a hyphen between two groups. *)
Definition is_hex (c : N) : bool :=
  ((48 <=? c) && (c <=? 57) || (97 <=? c) && (c <=? 102))%N.

Fixpoint hex_groups (groups : list nat) (s : js_string) : bool :=
  match groups with
  | [] => false
  | [g] => (length s =? g)%nat && forallb is_hex s
  | g :: gs =>
      (length (take g s) =? g)%nat && forallb is_hex (take g s)
      && match drop g s with
         | c :: s' => (c =? 45)%N && hex_groups gs s'
         | [] => false
         end
  end.

Definition is_uuid (s : js_string) : bool := hex_groups [8; 4; 4; 4; 12]%nat s.

(** The argument bag [{type: "uuid", count: n}]. *)
Definition uuid_request (n : Z) : value :=
  obj_literal [(lit "type", JStr (lit "uuid")); (lit "count", JNum (of_Z n))].

(** The number of turns of [for (let i = 0; i < bound; i++)] when the
    loop ends: none unless the bound is a positive number. *)
Definition turns (bound : number) : nat :=
  match bound with
  | Fin neg m e => Z.to_nat (ceiling neg m e)
  | _ => 0
  end.

(** The length of the passwords the handler builds, [options.length || 12]. *)
Definition password_length (params : generate_data_params) : number :=
  or_default (options params ≫= opt_length) (of_Z 12).

(** A generator for running the handlers: the state counts the draws;
    [Math.random] gives 0.37 times the count modulo 1, and
    [crypto.randomUUID] a fixed UUID ending in the last digit of the count. *)
Definition sample_random (n : nat) : number * nat :=
  (finite false (N.of_nat (37 * n mod 100)) (-2), S n).

Definition sample_randomUUID (n : nat) : js_string * nat :=
  (lit "123e4567-e89b-42d3-a456-42661417400"
     ++ digits_of_N (N.of_nat (n mod 10)), S n).

Definition sample_toString_radix (x : number) (radix : N) : js_string :=
  toString x.

(* --------------------------------------------------------------------- *)
(** ** json_utility *)

Inductive json_operation : Type :=
  | validate | format | minify | extract_keys | extract_values.

#[global] Instance json_operation_eq_dec : EqDecision json_operation.
Proof. solve_decision. Defined.

(** What the handler returns: a text, the array of key paths, or the value
    found at a path ([null] standing for JavaScript's [null]). *)
Inductive json_result : Type :=
  | Text (s : js_string)
  | Strings (keys : list js_string)
  | Data (v : value).

(** [prefix ? `${prefix}.${key}` : key]. *)
Definition full_key (prefix key : js_string) : js_string :=
  match prefix with
  | [] => key
  | _ => prefix ++ lit "." ++ key
  end.

(** The closure [extractKeys]: [for (const key in obj)] runs over the
    properties of an object, the indices of an array and the indices of a
    string, in enumeration order, and over nothing for the other values;
    only objects that are no arrays are entered. *)
Fixpoint extractKeys (obj : value) (prefix : js_string) : list js_string :=
  match obj with
  | JObj fields =>
      mjoin ((fun kv : js_string * value =>
                let fullKey := full_key prefix kv.1 in
                fullKey :: match kv.2 with
                           | JObj _ => extractKeys kv.2 fullKey
                           | _ => []
                           end) <$> fields)
  | JArr items =>
      (fix each (i : N) (l : list value) : list js_string :=
         match l with
         | [] => []
         | child :: l' =>
             let fullKey := full_key prefix (digits_of_N i) in
             (fullKey :: match child with
                         | JObj _ => extractKeys child fullKey
                         | _ => []
                         end) ++ each (i + 1)%N l'
         end) 0%N items
  | JStr s => imap (fun i _ => full_key prefix (digits_of_N (N.of_nat i))) s
  | _ => []
  end.

(** The own property [key] of a value of JSON data: a property of an
    object, an element or the length of an array, a unit or the length of
    a string. *)
Definition own_property (v : value) (key : js_string) : option value :=
  match v with
  | JObj fields => obj_get key fields
  | JArr items =>
      if bool_decide (key = lit "length") then Some (JNum (number_of_length items))
      else i ← index_of_key key; items !! N.to_nat i
  | JStr s =>
      if bool_decide (key = lit "length") then Some (JNum (number_of_length s))
      else i ← index_of_key key; c ← s !! N.to_nat i; Some (JStr [c])
  | _ => None
  end.

Section JsonUtility.

(** A property that a value inherits from its built-in prototype, as what
    the rest of the walk along a path gives from it; [None] when the value
    has no such property and the access gives [undefined]. *)
Variable inherited : value -> js_string -> option (list js_string -> outcome json_result).

(** The loop of [extract_values] over the keys of the path. *)
Fixpoint walk (keys : list js_string) (v : value) : outcome json_result :=
  match keys with
  | [] => Return (Data v)
  | key :: keys' =>
      match v with
      | JNull =>
          Throw (TypeError (lit "Cannot read properties of null (reading '"
                              ++ key ++ lit "')"))
      | _ =>
          match own_property v key with
          | Some v' => walk keys' v'
          | None =>
              match inherited v key with
              | Some rest => rest keys'
              | None => Return (Data JNull)
              end
          end
      end
  end.

Definition json_utility (operation : json_operation) (json : js_string)
  (key_path : option js_string) : outcome json_result :=
  match
    parsed ← JSON_parse json;
    match operation with
    | validate => Return (Text (lit "Valid JSON"))
    | format => Return (Text (JSON_stringify_2 parsed))
    | minify => Return (Text (JSON_stringify parsed))
    | extract_keys => Return (Strings (extractKeys parsed []))
    | extract_values =>
        match key_path with
        | None | Some [] =>
            Throw (Error (lit "key_path required for extract_values operation"))
        | Some key_path => walk (split_on 46%N key_path) parsed
        end
    end
  with
  | Return r => Return r
  | Throw error =>
      if bool_decide (operation = validate)
      then Return (Text (lit "Invalid JSON: " ++ message error))
      else Throw error
  end.

End JsonUtility.

(** ** Notions for stating the properties *)

(** A key that a dotted path can name: not empty, and without a dot. *)
Definition simple_key (k : js_string) : bool :=
  negb (bool_decide (k = [])) && forallb (λ c, negb (c =? 46)%N) k.

(** Values all of whose keys a dotted path can name; an array or a string
    has no more elements than JavaScript lets it have. *)
Fixpoint simple (v : value) : bool :=
  match v with
  | JStr s => (N.of_nat (length s) <=? 4294967295)%N
  | JArr items =>
      (N.of_nat (length items) <=? 4294967295)%N && forallb simple items
  | JObj fields =>
      forallb (fun kv : js_string * value => simple_key kv.1 && simple kv.2) fields
  | _ => true
  end.

(** The properties that [for (const key in v)] runs over, each with its
    value. *)
Definition enumerable (v : value) : list (js_string * value) :=
  match v with
  | JObj fields => fields
  | JArr items => imap (fun i child => (digits_of_N (N.of_nat i), child)) items
  | JStr s => imap (fun i c => (digits_of_N (N.of_nat i), JStr [c])) s
  | _ => []
  end.

(** [reaches v ks w]: the keys [ks] lead from [v] to [w], each key an
    enumerable property, and every value on the way but [v] and [w] an
    object that is no array. *)
Inductive reaches : value → list js_string → value → Prop :=
  | reaches_one v k w : (k, w) ∈ enumerable v → reaches v [k] w
  | reaches_step v k fields ks w :
      (k, JObj fields) ∈ enumerable v → reaches (JObj fields) ks w →
      reaches v (k :: ks) w.

(** What one turn of the loop of [extractKeys] adds for the property
    [kv]: its full key, and the keys below it when its value is an object
    that is no array. *)
Definition entered (prefix : js_string) (kv : js_string * value)
  : list js_string :=
  let fullKey := full_key prefix kv.1 in
  fullKey :: match kv.2 with
             | JObj _ => extractKeys kv.2 fullKey
             | _ => []
             end.

(** Every key that [extractKeys] lists below [v], under the prefix of the
    keys [pre], is the path of a value that can be reached from [v]. *)
Definition keys_reach (v : value) : Prop :=
  ∀ pre p, simple v = true → Forall (λ k, k ≠ []) pre →
    p ∈ extractKeys v (join [46%N] pre) →
    ∃ ks w, reaches v ks w ∧ p = join [46%N] (pre ++ ks).

(** [at_end v ks w]: the keys [ks] lead from [v] to [w]; no key at all
    leads from [v] to itself. *)
Definition at_end (v : value) (ks : list js_string) (w : value) : Prop :=
  (ks = [] ∧ w = v) ∨ reaches v ks w.

(** White space, and a word: a non-empty run of units that are no white
    space. *)
Definition white (s : js_string) : Prop := Forall (λ c, is_space c = true) s.
Definition word (s : js_string) : Prop :=
  s ≠ [] ∧ Forall (λ c, is_space c = false) s.

(** A first word followed by more words, each after its run of white
    space. *)
Definition spaced (w0 : js_string) (others : list (js_string * js_string))
  : js_string :=
  w0 ++ mjoin ((fun p : js_string * js_string => p.1 ++ p.2) <$> others).

(** Case mapping on the letters of ASCII, for running the handler. *)
Definition sample_toUpperCase (s : js_string) : js_string :=
  (fun c => if ((97 <=? c) && (c <=? 122))%N then (c - 32)%N else c) <$> s.
Definition sample_toLowerCase (s : js_string) : js_string :=
  (fun c => if ((65 <=? c) && (c <=? 90))%N then (c + 32)%N else c) <$> s.

(** A finite number seen at [d] decimal places: [x * 10^d], an integer
    when [d] is large enough for [x]. *)
Definition at_scale (d : Z) (x : number) : Z :=
  match x with
  | Fin neg m e => signed neg m * 10 ^ (e + d)
  | _ => 0
  end.

(** [d] decimal places are enough for [x]: [x * 10^d] is an integer. *)
Definition fits (d : Z) (x : number) : Prop :=
  match x with
  | Fin _ _ e => (0 ≤ d ∧ 0 ≤ e + d)%Z
  | _ => False
  end.

(** A number of the unit interval, [0 <= x < 1]: what [Math.random]
    gives. *)
Definition unit_interval (x : number) : Prop :=
  Z_le 0 x = true ∧ lt_Z x 1 = true.

(** A whole number written with exactly [len] decimal digits. *)
Definition decimal (len : nat) (s : js_string) : Prop :=
  length s = len ∧ all_digits s = true.

(** The text [{"user": {"name": "x", "tags": [{"a": 1}]}, "n": null}]. *)
Definition sample_json : js_string :=
  lit "{" ++ quote (lit "user") ++ lit ": {" ++ quote (lit "name") ++ lit ": "
    ++ quote (lit "x") ++ lit ", " ++ quote (lit "tags") ++ lit ": [{"
    ++ quote (lit "a") ++ lit ": 1}]}, " ++ quote (lit "n") ++ lit ": null}".

(** What it parses to. *)
Definition sample_parsed : value :=
  JObj [(lit "user",
         JObj [(lit "name", JStr (lit "x"));
               (lit "tags", JArr [JObj [(lit "a", JNum (Fin false 1 0))]])]);
        (lit "n", JNull)].

(** ** Properties *)

Lemma join_empty_split_units (s : js_string) : join [] (split_units s) = s.
Proof.
  induction s as [|c s IH]; [reflexivity|].
  change (split_units (c :: s)) with ([c] :: split_units s).
  destruct s as [|c' s']; [reflexivity|].
  change (split_units (c' :: s')) with ([c'] :: split_units s') in *.
  cbn [join]. cbn [join] in IH. simpl. f_equal. exact IH.
Qed.

Lemma reverse_split_units (s : js_string) :
  reverse (split_units s) = split_units (reverse s).
Proof. unfold split_units. by rewrite fmap_reverse. Qed.

Lemma text_transform_reverse_spec up low (s : js_string) :
  text_transform up low s reverse_op = reverse s.
Proof.
  unfold text_transform.
  by rewrite reverse_split_units, join_empty_split_units.
Qed.

(** C6. Reversing twice gives the text back: for every string [s] (every
    sequence of code units, surrogate halves included),
    [text_transform(reverse, text_transform(reverse, s)) = s]. *)
Theorem text_transform_reverse_involutive up low (s : js_string) :
  text_transform up low (text_transform up low s reverse_op) reverse_op = s.
Proof.
  rewrite !text_transform_reverse_spec. apply reverse_involutive.
Qed.


(** *** calculate *)

(** [b === 0] holds of the two zeros and of no other number. *)
Lemma strict_equal_zero (b : float) :
  PrimFloat.eqb b 0%float = true ↔ b = 0%float ∨ b = (-0)%float.
Proof.
  split.
  - intros H. rewrite FloatAxioms.eqb_spec in H.
    change (Prim2SF 0%float) with (S754_zero false) in H.
    rewrite <- (FloatAxioms.SF2Prim_Prim2SF b).
    destruct (Prim2SF b) as [[]|[]| |[] m e]; try done; [by right|by left].
  - by intros [-> | ->].
Qed.

(** C5. Division: for every [a], dividing by zero throws "Division by zero
    is not allowed" and gives no numeric result; the divisors this happens
    for are the two zeros, [0] and [-0], and no other number. For every
    other [b] (NaN and the infinities included) the handler returns the
    text [`${a} divide ${b} = ${a / b}`]: the rendering of [a], the word
    [divide], the rendering of [b], an equals sign and the rendering of
    the binary64 quotient [a / b]. *)
Theorem calculate_divide_spec pow show (a b : float) :
  calculate pow show divide a 0%float
    = Throw (Error (lit "Division by zero is not allowed"))
  ∧ calculate pow show divide a (-0)%float
    = Throw (Error (lit "Division by zero is not allowed"))
  ∧ (PrimFloat.eqb b 0%float = true ↔ b = 0%float ∨ b = (-0)%float)
  ∧ (PrimFloat.eqb b 0%float = true →
     calculate pow show divide a b
     = Throw (Error (lit "Division by zero is not allowed")))
  ∧ (PrimFloat.eqb b 0%float = false →
     calculate pow show divide a b
     = Return (show a ++ lit " divide " ++ show b ++ lit " = "
                 ++ show (a / b)%float)).
Proof.
  split_and!; [done|done|apply strict_equal_zero| |].
  - intros Hb. unfold calculate. by rewrite Hb.
  - intros Hb. unfold calculate. by rewrite Hb.
Qed.

Lemma calculate_divide_spec_witness :
  calculate (λ x _, x) sample_show divide 1%float 0%float
    = Throw (Error (lit "Division by zero is not allowed"))
  ∧ calculate (λ x _, x) sample_show divide 1%float 4%float
    = Return (lit "1 divide 4 = 0.25").
Proof.
  destruct (calculate_divide_spec (λ x _, x) sample_show 1%float 4%float)
    as (_ & _ & _ & H0 & H4).
  split; [|exact (H4 eq_refl)].
  exact (proj1 (proj2 (proj2 (proj2
    (calculate_divide_spec (λ x _, x) sample_show 1%float 0%float)))) eq_refl).
Defined.

(** *** The counting loop *)

Lemma for_loop_unfold {S} fuel bound i (body : S → option S) s :
  for_loop fuel bound i body s =
  if Z_lt i bound then
    match fuel with
    | O => None
    | Datatypes.S fuel' =>
        match body s with
        | Some s' => for_loop fuel' bound (i + 1) body s'
        | None => None
        end
    end
  else Some s.
Proof. by destruct fuel. Qed.

(** From counter [i], a loop whose body keeps [P] runs the remaining
    turns and stops. *)
Lemma for_loop_from {S} (P : nat → S → Prop) (body : S → option S) neg m e :
  (∀ j s, P j s → ∃ s', body s = Some s' ∧ P (Datatypes.S j) s') →
  ∀ k fuel i j s,
    Z.to_nat (ceiling neg m e - i) = k → k ≤ fuel → P j s →
    ∃ s', for_loop fuel (Fin neg m e) i body s = Some s' ∧ P (j + k) s'.
Proof.
  intros Hbody. induction k as [|k IH]; intros fuel i j s Hk Hfuel HP;
    rewrite for_loop_unfold.
  - destruct (Z_lt i (Fin neg m e)) eqn:Hlt.
    + apply Z_lt_ceiling in Hlt. lia.
    + exists s. by rewrite Nat.add_0_r.
  - rewrite (proj2 (Z_lt_ceiling i neg m e)) by lia.
    destruct fuel as [|fuel]; [lia|].
    destruct (Hbody j s HP) as (s1 & -> & HP1).
    destruct (IH fuel (i + 1)%Z (Datatypes.S j) s1) as (s' & Hrun & HP');
      [lia|lia|done|].
    exists s'. split; [done|].
    by replace (j + Datatypes.S k) with (Datatypes.S j + k) by lia.
Qed.

Lemma for_loop_ends {S} (P : nat → S → Prop) (body : S → option S) bound fuel s :
  bound ≠ Inf false →
  (∀ j s, P j s → ∃ s', body s = Some s' ∧ P (Datatypes.S j) s') →
  turns bound ≤ fuel → P 0%nat s →
  ∃ s', for_loop fuel bound 0 body s = Some s' ∧ P (turns bound) s'.
Proof.
  intros Hb Hbody Hfuel HP. destruct bound as [neg m e|[|]|]; try done.
  - destruct (for_loop_from P body neg m e Hbody (Z.to_nat (ceiling neg m e))
                fuel 0%Z 0%nat s) as (s' & Hrun & HP'); [f_equal; lia|done|done|].
    by exists s'.
  - exists s. by rewrite for_loop_unfold.
  - exists s. by rewrite for_loop_unfold.
Qed.

(** A loop bounded by [Infinity] never stops, whatever the fuel. *)
Lemma for_loop_forever {S} (body : S → option S) fuel i s :
  (∀ s, is_Some (body s)) →
  for_loop fuel (Inf false) i body s = None.
Proof.
  intros Hbody. revert i s. induction fuel as [|fuel IH]; intros i s; [done|].
  rewrite for_loop_unfold. change (Z_lt i (Inf false)) with true. cbv iota.
  destruct (Hbody s) as [s' ->]. apply IH.
Qed.

(** *** Numbers of the schema *)

Lemma Z_le_one_Z_lt_zero x : Z_le 1 x = true → Z_lt 0 x = true.
Proof.
  unfold Z_le, Z_lt. destruct x as [neg m e|[]|]; try done.
  unfold compare_Z. destruct (0 <=? e)%Z eqn:He.
  - destruct (Z.compare_spec (signed neg m * 10 ^ e) 1); try done;
      destruct (Z.compare_spec (signed neg m * 10 ^ e) 0); try done; lia.
  - apply Z.leb_gt in He.
    assert (0 < 10 ^ (- e))%Z by (apply Z.pow_pos_nonneg; lia).
    destruct (Z.compare_spec (signed neg m) (1 * 10 ^ (- e))); try done;
      destruct (Z.compare_spec (signed neg m) (0 * 10 ^ (- e))); try done; lia.
Qed.

Lemma strict_equal_Z_one_turns x : strict_equal_Z x 1 = true → turns x = 1%nat.
Proof.
  intros H.
  assert (H0 : Z_lt 0 x = true).
  { apply Z_le_one_Z_lt_zero. unfold Z_le, strict_equal_Z in *.
    by destruct (compare_Z x 1) as [[]|]. }
  assert (H1 : Z_lt 1 x = false).
  { unfold Z_lt, strict_equal_Z in *. by destruct (compare_Z x 1) as [[]|]. }
  destruct x as [neg m e|[]|]; try done. simpl.
  apply Z_lt_ceiling in H0.
  assert (¬ (1 < ceiling neg m e)%Z) by (intros ?%Z_lt_ceiling; congruence).
  lia.
Qed.

Lemma count_schema_accepts (n : Z) :
  (1 ≤ n ≤ 100)%Z →
  Zod.z_max 100 (Zod.z_min 1 Zod.z_number) (Some (JNum (of_Z n)))
  = Return (of_Z n).
Proof.
  intros Hn. unfold Zod.z_max, Zod.z_min, Zod.z_number.
  pose proof (Z_le_of_Z 1 n) as H1. pose proof (le_Z_of_Z n 100) as H2.
  destruct (of_Z_finite n) as (neg & m & e & Hfin & _). rewrite Hfin in *.
  cbn [mbind outcome_bind].
  rewrite H1, bool_decide_eq_true_2 by lia.
  cbn [mbind outcome_bind].
  by rewrite H2, bool_decide_eq_true_2 by lia.
Qed.

Lemma generate_data_parameters_count (x : number) :
  generate_data_parameters
    (Some (obj_literal [(lit "type", JStr (lit "uuid")); (lit "count", JNum x)]))
  = (cnt ← Zod.z_max 100 (Zod.z_min 1 Zod.z_number) (Some (JNum x));
     Return {| type := uuid; count := cnt; options := None |}).
Proof. reflexivity. Qed.

(** *** Lines of text *)

Lemma split_on_no_sep sep (p : js_string) : sep ∉ p → split_on sep p = [p].
Proof.
  induction p as [|c p IH]; intros Hp; [done|].
  simpl. destruct (N.eqb_spec c sep) as [->|Hc]; [set_solver|].
  by rewrite IH by set_solver.
Qed.

Lemma split_on_app sep (p rest : js_string) :
  sep ∉ p → split_on sep (p ++ sep :: rest) = p :: split_on sep rest.
Proof.
  induction p as [|c p IH]; intros Hp; simpl.
  - by rewrite N.eqb_refl.
  - destruct (N.eqb_spec c sep) as [->|Hc]; [set_solver|].
    by rewrite IH by set_solver.
Qed.

Lemma split_on_join sep (parts : list js_string) :
  parts ≠ [] → Forall (λ p, sep ∉ p) parts →
  split_on sep (join [sep] parts) = parts.
Proof.
  induction parts as [|p parts IH]; intros Hne Hall; [done|].
  apply Forall_cons in Hall as [Hp Hall].
  destruct parts as [|q parts].
  - simpl. by apply split_on_no_sep.
  - change (join [sep] (p :: q :: parts))
      with (p ++ [sep] ++ join [sep] (q :: parts)).
    simpl app. rewrite split_on_app by done. f_equal. by apply IH.
Qed.

Lemma hex_groups_units groups s :
  hex_groups groups s = true → Forall (λ c, is_hex c = true ∨ c = 45%N) s.
Proof.
  revert s. induction groups as [|g gs IH]; intros s; [done|].
  destruct gs as [|g' gs].
  - simpl. intros [_ H]%andb_prop.
    apply Forall_forall. intros c Hc. left.
    apply (proj1 (forallb_forall _ _) H). by apply list_elem_of_In.
  - intros H. change (hex_groups (g :: g' :: gs) s) with
      ((length (take g s) =? g)%nat && forallb is_hex (take g s)
      && match drop g s with
         | c :: s' => (c =? 45)%N && hex_groups (g' :: gs) s'
         | [] => false
         end) in H.
    apply andb_prop in H as [[_ H1]%andb_prop H2].
    rewrite <- (take_drop g s). apply Forall_app. split.
    + apply Forall_forall. intros c Hc. left.
      apply (proj1 (forallb_forall _ _) H1). by apply list_elem_of_In.
    + destruct (drop g s) as [|c s']; [done|].
      apply andb_prop in H2 as [Hc H2]. apply Forall_cons. split.
      * right. by apply N.eqb_eq.
      * by apply IH.
Qed.

Lemma is_uuid_no_newline u : is_uuid u = true → 10%N ∉ u.
Proof.
  intros H%hex_groups_units Hin.
  rewrite Forall_forall in H. destruct (H _ Hin) as [Hh|Hh]; [|done].
  by vm_compute in Hh.
Qed.

(** *** generate_data *)

Section GenerateDataFacts.
Variable rng : Type.
Variable Math_random : rng → number * rng.
Variable crypto_randomUUID : rng → js_string * rng.
Variable Number_toString_radix : number → N → js_string.

Local Abbreviation gen_item :=
  (generate_item rng Math_random crypto_randomUUID Number_toString_radix).
Local Abbreviation gen_results :=
  (generate_results rng Math_random crypto_randomUUID Number_toString_radix).
Local Abbreviation gen_data :=
  (generate_data rng Math_random crypto_randomUUID Number_toString_radix).

(** Every turn of the loop pushes exactly one value, provided the
    password loop, when it runs, has a finite bound and the fuel for it. *)
Lemma generate_item_pushes fuel params results r :
  (type params = password → password_length params ≠ Inf false) →
  (type params = password → turns (password_length params) ≤ fuel) →
  ∃ x r', gen_item fuel (type params) (options params) (results, r)
          = Some (results ++ [x], r').
Proof.
  intros Hfin Hfuel. unfold generate_item.
  destruct (type params) eqn:Ht.
  - destruct (crypto_randomUUID r) as [u r']. by eexists _, _.
  - destruct (for_loop_ends (λ _ _, True)
                (password_step rng Math_random) (password_length params)
                fuel ([], r)) as ([pw r'] & Hrun & _); auto.
    { intros _ [pw r0] _. unfold password_step, random_floor.
      destruct (Math_random r0). by eexists. }
    unfold password_length in Hrun. rewrite Hrun. by eexists _, _.
  - unfold random_floor. destruct (Math_random r) as [x r1].
    destruct (Math_random r1) as [y r2]. by eexists _, _.
  - unfold random_floor. destruct (Math_random r) as [x r1].
    destruct (Math_random r1) as [y r2]. destruct (Math_random r2) as [z r3].
    by eexists _, _.
  - unfold random_floor. destruct (Math_random r) as [x r1]. by eexists _, _.
  - destruct (Math_random r) as [x r1]. by eexists _, _.
Qed.


(** X23. With a password length of [Infinity] the inner loop never ends: the
    handler does not return, whatever the fuel. *)
Lemma generate_data_password_forever params r fuel :
  type params = password → password_length params = Inf false →
  Z_le 1 (count params) = true →
  gen_data fuel params r = None.
Proof.
  intros Ht Hlen Hmin%Z_le_one_Z_lt_zero.
  unfold generate_data, generate_results.
  rewrite for_loop_unfold, Hmin.
  destruct fuel as [|fuel]; [done|].
  rewrite Ht. cbn [generate_item]. fold (password_length params).
  rewrite Hlen, for_loop_forever; [done|].
  intros [pw r0]. unfold password_step, random_floor.
  destruct (Math_random r0). by eexists.
Qed.

Hypothesis randomUUID_format : ∀ r, is_uuid (crypto_randomUUID r).1 = true.

Lemma generate_uuids fuel (n : Z) r :
  (0 ≤ n)%Z → Z.to_nat n ≤ fuel →
  ∃ uuids r',
    gen_results fuel {| type := uuid; count := of_Z n; options := None |} r
      = Some (uuids, r')
    ∧ length uuids = Z.to_nat n
    ∧ Forall (λ u, is_uuid u = true) uuids.
Proof using randomUUID_format.
  intros Hn Hfuel. unfold generate_results. simpl.
  destruct (of_Z_finite n) as (neg & m & e & -> & Hc).
  destruct (for_loop_from
    (λ j (st : list js_string * rng),
       length st.1 = j ∧ Forall (λ u, is_uuid u = true) st.1)
    (gen_item fuel uuid None)
    neg m e) with (k := Z.to_nat n) (fuel := fuel) (i := 0%Z) (j := 0%nat)
    (s := ([] : list js_string, r)) as ([uuids r'] & Hrun & Hlen & Hall).
  - intros j [results r0] [Hl Ha]. simpl in *.
    pose proof (randomUUID_format r0) as Hu.
    destruct (crypto_randomUUID r0) as [u r1]. eexists. split; [done|].
    simpl. split.
    + rewrite length_app. simpl. lia.
    + apply Forall_app. split; [done|]. by apply Forall_singleton.
  - rewrite Hc. f_equal. lia.
  - done.
  - done.
  - by exists uuids, r'.
Qed.

End GenerateDataFacts.

Lemma sample_randomUUID_format (n : nat) : is_uuid (sample_randomUUID n).1 = true.
Proof.
  unfold sample_randomUUID. cbn [fst].
  assert (Hn : (n mod 10 < 10)%nat) by (apply Nat.mod_upper_bound; lia).
  destruct (n mod 10) as [|[|[|[|[|[|[|[|[|[|k]]]]]]]]]]; try lia;
    vm_compute; reflexivity.
Qed.



(** *** json_utility *)

Section JsonUtilityFacts.
Variable inherited : value → js_string → option (list js_string → outcome json_result).

(** C4. On a text that [JSON.parse] rejects, [validate] returns the text
    "Invalid JSON: " followed by the message of the parse error, as a
    result and not as a failure, and each of the other four operations
    fails with that parse error, which is a [SyntaxError]. *)
Theorem json_utility_malformed (json : js_string) (key_path : option js_string)
  (error : exn) :
  JSON_parse json = Throw error →
  json_utility inherited validate json key_path
  = Return (Text (lit "Invalid JSON: " ++ message error))
  ∧ (∀ operation, operation ≠ validate →
       json_utility inherited operation json key_path = Throw error)
  ∧ ∃ msg, error = SyntaxError msg.
Proof.
  intros Hparse. unfold json_utility. rewrite Hparse. cbn [mbind outcome_bind].
  split_and!.
  - done.
  - intros operation Hop. by rewrite bool_decide_eq_false_2.
  - unfold JSON_parse in Hparse.
    destruct (lex _ json) as [ts|]; [|injection Hparse as <-; by eexists].
    destruct (parse_value _ ts) as [[v [|? ?]]|];
      try done; injection Hparse as <-; by eexists.
Qed.

(** C7, amended. For every valid JSON text whose numbers all read as
    finite numbers other than negative zero, [minify] returns a text,
    [format] of that text returns a text, and both texts parse to the value
    the original text parses to. *)
Theorem json_utility_format_minify (json : js_string) (parsed : value)
  (key_path key_path' : option js_string) :
  JSON_parse json = Return parsed → plain parsed = true →
  ∃ minified formatted,
    json_utility inherited minify json key_path = Return (Text minified)
    ∧ json_utility inherited format minified key_path' = Return (Text formatted)
    ∧ JSON_parse minified = Return parsed
    ∧ JSON_parse formatted = Return parsed.
Proof.
  intros Hparse Hplain. pose proof (JSON_parse_wf _ _ Hparse) as Hwf.
  assert (JSON_parse (JSON_stringify parsed) = Return parsed) as Hmin.
  { apply JSON_parse_serialize; [constructor|done..]. }
  assert (JSON_parse (JSON_stringify_2 parsed) = Return parsed) as Hfmt.
  { apply JSON_parse_serialize; [by repeat constructor|done..]. }
  exists (JSON_stringify parsed), (JSON_stringify_2 parsed).
  unfold json_utility. rewrite Hparse, Hmin. by cbn [mbind outcome_bind].
Qed.

End JsonUtilityFacts.

Lemma json_utility_malformed_witness :
  json_utility (λ _ _, None) validate (lit "not json") None
  = Return (Text (lit "Invalid JSON: Unexpected token in JSON"))
  ∧ (∀ operation, operation ≠ validate →
       json_utility (λ _ _, None) operation (lit "not json") None
       = Throw (SyntaxError (lit "Unexpected token in JSON")))
  ∧ ∃ msg, SyntaxError (lit "Unexpected token in JSON") = SyntaxError msg.
Proof.
  apply (json_utility_malformed (λ _ _, None) (lit "not json") None
           (SyntaxError (lit "Unexpected token in JSON"))).
  by vm_compute.
Defined.

(** C7 as stated fails: the valid JSON text [1e999] reads as [Infinity],
    which [minify] writes as [null]; formatting that gives [null], which
    parses to [null] and not to [Infinity]. *)
Lemma json_utility_format_minify_overflow :
  JSON_parse (lit "1e999") = Return (JNum (Inf false))
  ∧ json_utility (λ _ _, None) minify (lit "1e999") None = Return (Text (lit "null"))
  ∧ json_utility (λ _ _, None) format (lit "null") None = Return (Text (lit "null"))
  ∧ JSON_parse (lit "null") = Return JNull
  ∧ JNum (Inf false) ≠ JNull.
Proof. split_and!; by vm_compute. Qed.

(** Negative zero is lost in the same way: [-0] is written as [0]. *)
Lemma json_utility_format_minify_negative_zero :
  JSON_parse (lit "-0") = Return (JNum (Fin true 0 0))
  ∧ json_utility (λ _ _, None) minify (lit "-0") None = Return (Text (lit "0"))
  ∧ json_utility (λ _ _, None) format (lit "0") None = Return (Text (lit "0"))
  ∧ JSON_parse (lit "0") = Return (JNum (Fin false 0 0)).
Proof. split_and!; by vm_compute. Qed.

Lemma json_utility_format_minify_witness :
  ∃ minified formatted,
    json_utility (λ _ _, None) minify
      (lit "{ " ++ quote (lit "b") ++ lit ": [1.50, -2e3], "
         ++ quote (lit "1") ++ lit ": null }") None
    = Return (Text minified)
    ∧ json_utility (λ _ _, None) format minified None = Return (Text formatted)
    ∧ JSON_parse minified
      = Return (JObj [(lit "1", JNull);
                      (lit "b", JArr [JNum (Fin false 15 (-1)); JNum (Fin true 2 3)])])
    ∧ JSON_parse formatted
      = Return (JObj [(lit "1", JNull);
                      (lit "b", JArr [JNum (Fin false 15 (-1)); JNum (Fin true 2 3)])]).
Proof.
  apply (json_utility_format_minify (λ _ _, None)); by vm_compute.
Defined.

(** *** More about the handlers *)

Section JsonUtilityTexts.
Variable inherited : value → js_string → option (list js_string → outcome json_result).

Lemma json_utility_text_of parsed json op key_path :
  JSON_parse json = Return parsed →
  json_utility inherited op json key_path
  = match op with
    | validate => Return (Text (lit "Valid JSON"))
    | format => Return (Text (JSON_stringify_2 parsed))
    | minify => Return (Text (JSON_stringify parsed))
    | extract_keys => Return (Strings (extractKeys parsed []))
    | extract_values =>
        match key_path with
        | None | Some [] =>
            Throw (Error (lit "key_path required for extract_values operation"))
        | Some key_path => walk inherited (split_on 46%N key_path) parsed
        end
    end.
Proof.
  intros Hparse. unfold json_utility. rewrite Hparse. cbn [mbind outcome_bind].
  destruct op; try done.
  destruct key_path as [[|c p]|]; try done.
  by destruct (walk _ _ _).
Qed.

(** X14. For every valid JSON text, [format] and [minify] each give a text,
    and the two texts stand for one another: formatting the minified text
    gives the formatted text, minifying the formatted text gives the
    minified text, and either operation leaves its own output unchanged. *)
Theorem json_utility_format_minify_compose (json : js_string) (parsed : value)
  (k1 k2 k3 k4 k5 k6 : option js_string) :
  JSON_parse json = Return parsed →
  ∃ minified formatted,
    json_utility inherited minify json k1 = Return (Text minified)
    ∧ json_utility inherited format json k2 = Return (Text formatted)
    ∧ json_utility inherited format minified k3 = Return (Text formatted)
    ∧ json_utility inherited minify formatted k4 = Return (Text minified)
    ∧ json_utility inherited minify minified k5 = Return (Text minified)
    ∧ json_utility inherited format formatted k6 = Return (Text formatted).
Proof.
  intros Hparse. pose proof (JSON_parse_wf _ _ Hparse) as Hwf.
  assert (JSON_parse (JSON_stringify parsed) = Return (normalize parsed)) as Hmin.
  { apply JSON_parse_serialize_normalize; [constructor|done]. }
  assert (JSON_parse (JSON_stringify_2 parsed) = Return (normalize parsed)) as Hfmt.
  { apply JSON_parse_serialize_normalize; [by repeat constructor|done]. }
  exists (JSON_stringify parsed), (JSON_stringify_2 parsed).
  rewrite !(json_utility_text_of parsed json) by done.
  rewrite !(json_utility_text_of (normalize parsed)) by done.
  unfold JSON_stringify, JSON_stringify_2. by rewrite !serialize_normalize.
Qed.
End JsonUtilityTexts.

Lemma json_utility_format_minify_compose_witness :
  ∃ minified formatted,
    json_utility (λ _ _, None) minify (lit "[1e999, -0, {}]") None
    = Return (Text minified)
    ∧ json_utility (λ _ _, None) format (lit "[1e999, -0, {}]") None
      = Return (Text formatted)
    ∧ json_utility (λ _ _, None) format minified None = Return (Text formatted)
    ∧ json_utility (λ _ _, None) minify formatted None = Return (Text minified)
    ∧ json_utility (λ _ _, None) minify minified None = Return (Text minified)
    ∧ json_utility (λ _ _, None) format formatted None = Return (Text formatted).
Proof.
  apply (json_utility_format_minify_compose (λ _ _, None) (lit "[1e999, -0, {}]")
           (JArr [JNum (Inf false); JNum (Fin true 0 0); JObj []])).
  by vm_compute.
Defined.

Section JsonUtilityMinify.
Variable inherited : value → js_string → option (list js_string → outcome json_result).

End JsonUtilityMinify.

Lemma imap_mjoin_singleton {A B} (f : nat → A → B) (l : list A) :
  imap f l = mjoin (imap (λ i x, [f i x]) l).
Proof.
  revert f. induction l as [|x l IH]; intros f; [done|].
  cbn [imap mjoin list_join app]. f_equal. apply IH.
Qed.

Lemma extractKeys_elements prefix (items : list value) (i0 : N) :
  (fix each (i : N) (l : list value) : list js_string :=
     match l with
     | [] => []
     | child :: l' =>
         let fullKey := full_key prefix (digits_of_N i) in
         (fullKey :: match child with
                     | JObj _ => extractKeys child fullKey
                     | _ => []
                     end) ++ each (i + 1)%N l'
     end) i0 items
  = mjoin (imap (λ i child,
                   entered prefix (digits_of_N (i0 + N.of_nat i), child)) items).
Proof.
  revert i0. induction items as [|child items IH]; intros i0; [done|].
  cbn [imap mjoin list_join]. unfold entered at 1. cbn [fst snd].
  change (N.of_nat 0) with 0%N. rewrite N.add_0_r. cbv zeta. f_equal.
  rewrite IH. f_equal. apply imap_ext. intros i ? _. simpl. do 3 f_equal. lia.
Qed.

Lemma extractKeys_enumerable v prefix :
  extractKeys v prefix = mjoin (entered prefix <$> enumerable v).
Proof.
  destruct v as [|b|x|s|items|fields]; try done.
  - cbn [extractKeys enumerable]. rewrite fmap_imap.
    apply (imap_mjoin_singleton (λ i _, full_key prefix (digits_of_N (N.of_nat i)))).
  - cbn [extractKeys enumerable]. rewrite fmap_imap.
    etrans; [apply extractKeys_elements|]. f_equal.
Qed.

Lemma simple_key_spec k : simple_key k = true ↔ k ≠ [] ∧ 46%N ∉ k.
Proof.
  unfold simple_key. rewrite andb_true_iff, negb_true_iff, bool_decide_eq_false.
  apply and_iff_compat_l. split.
  - intros H%forallb_true_Forall Hin. rewrite Forall_forall in H.
    specialize (H _ Hin). by rewrite N.eqb_refl in H.
  - intros Hin. apply forallb_true_Forall, Forall_forall. intros c Hc.
    apply negb_true_iff, N.eqb_neq. by intros ->.
Qed.

Lemma simple_key_digits n : simple_key (digits_of_N n) = true.
Proof.
  destruct (digits_of_N_spec n) as (Hd & _ & Hne & _).
  apply simple_key_spec. split; [done|]. intros Hin.
  apply forallb_true_Forall in Hd. rewrite Forall_forall in Hd.
  by specialize (Hd _ Hin).
Qed.

Lemma join_snoc sep (parts : list js_string) k :
  parts ≠ [] → join sep (parts ++ [k]) = join sep parts ++ sep ++ k.
Proof.
  induction parts as [|p parts IH]; intros Hne; [done|].
  destruct parts as [|q parts]; [done|].
  change (join sep ((p :: q :: parts) ++ [k]))
    with (p ++ sep ++ join sep ((q :: parts) ++ [k])).
  rewrite IH by done.
  change (join sep (p :: q :: parts)) with (p ++ sep ++ join sep (q :: parts)).
  by rewrite <- !app_assoc.
Qed.

Lemma join_nonempty sep (parts : list js_string) :
  parts ≠ [] → Forall (λ k, k ≠ []) parts → join sep parts ≠ [].
Proof.
  intros Hne Hall. destruct Hall as [|p parts Hp Hall]; [done|].
  destruct p as [|c p]; [done|]. by destruct parts.
Qed.

Lemma full_key_join pre k :
  Forall (λ k, k ≠ []) pre →
  full_key (join [46%N] pre) k = join [46%N] (pre ++ [k]).
Proof.
  intros Hpre. destruct pre as [|p pre]; [done|].
  rewrite join_snoc by done. unfold full_key.
  pose proof (join_nonempty [46%N] (p :: pre) ltac:(done) Hpre) as Hne.
  by destruct (join [46%N] (p :: pre)).
Qed.

Lemma enumerable_simple v k w :
  simple v = true → (k, w) ∈ enumerable v →
  simple_key k = true ∧ simple w = true.
Proof.
  destruct v as [|b|x|s|items|fields]; cbn [simple enumerable];
    intros Hs Hin; try by apply not_elem_of_nil in Hin.
  - apply elem_of_lookup_imap_1 in Hin as (i & c & [= -> ->] & _).
    split; [apply simple_key_digits|done].
  - apply elem_of_lookup_imap_1 in Hin as (i & c & [= -> ->] & Hi).
    split; [apply simple_key_digits|].
    apply andb_true_iff in Hs as [_ Hs%forallb_true_Forall].
    rewrite Forall_forall in Hs. eapply Hs, list_elem_of_lookup_2, Hi.
  - apply forallb_true_Forall in Hs. rewrite Forall_forall in Hs.
    by apply andb_true_iff, (Hs _ Hin).
Qed.

Lemma enumerable_wf v k w : wf v → (k, w) ∈ enumerable v → wf w.
Proof.
  destruct v as [|b|x|s|items|fields]; cbn [enumerable];
    intros Hwf Hin; try by apply not_elem_of_nil in Hin.
  - by apply elem_of_lookup_imap_1 in Hin as (i & c & [= -> ->] & _).
  - apply elem_of_lookup_imap_1 in Hin as (i & c & [= -> ->] & Hi).
    apply wf_arr in Hwf. rewrite Forall_forall in Hwf.
    eapply Hwf, list_elem_of_lookup_2, Hi.
  - apply wf_obj in Hwf as [_ Hwf]. rewrite Forall_forall in Hwf.
    apply (Hwf _ Hin).
Qed.

Lemma index_of_key_digits n :
  (n ≤ 4294967294)%N → index_of_key (digits_of_N n) = Some n.
Proof.
  intros Hn. destruct (digits_of_N_spec n) as (Hd & Hv & Hne & _).
  unfold index_of_key. rewrite N_of_digits_value, Hv by done.
  rewrite bool_decide_eq_true_2 by done.
  by rewrite (proj2 (N.leb_le _ _) Hn).
Qed.

Lemma digits_not_length n : digits_of_N n ≠ lit "length".
Proof.
  intros H. destruct (digits_of_N_spec n) as (Hd & _). by rewrite H in Hd.
Qed.

Lemma obj_get_elem_of k w fields :
  wf_keys (fields.*1) → (k, w) ∈ fields → obj_get k fields = Some w.
Proof.
  induction fields as [|[k0 v0] fields IH]; intros Hkeys Hin.
  - by apply not_elem_of_nil in Hin.
  - cbn [fmap list_fmap fst wf_keys] in Hkeys. destruct Hkeys as [Hhd Hkeys].
    cbn [obj_get]. apply elem_of_cons in Hin as [[= -> ->]|Hin].
    + by rewrite bool_decide_eq_true_2.
    + rewrite Forall_forall in Hhd.
      assert (k ∈ fields.*1) as Hk.
      { apply list_elem_of_fmap. by exists (k, w). }
      destruct (Hhd _ Hk) as [Hne _].
      rewrite bool_decide_eq_false_2 by done. by apply IH.
Qed.

Lemma enumerable_own v k w :
  wf v → simple v = true → (k, w) ∈ enumerable v →
  own_property v k = Some w ∧ v ≠ JNull.
Proof.
  destruct v as [|b|x|s|items|fields]; cbn [simple enumerable own_property];
    intros Hwf Hs Hin; try by apply not_elem_of_nil in Hin.
  - apply elem_of_lookup_imap_1 in Hin as (i & c & [= -> ->] & Hi).
    split; [|done]. rewrite bool_decide_eq_false_2 by apply digits_not_length.
    apply N.leb_le in Hs. pose proof (lookup_lt_Some _ _ _ Hi).
    rewrite index_of_key_digits by lia. cbn [mbind option_bind].
    by rewrite Nat2N.id, Hi.
  - apply elem_of_lookup_imap_1 in Hin as (i & c & [= -> ->] & Hi).
    split; [|done]. rewrite bool_decide_eq_false_2 by apply digits_not_length.
    apply andb_true_iff in Hs as [Hs%N.leb_le _].
    pose proof (lookup_lt_Some _ _ _ Hi).
    rewrite index_of_key_digits by lia. cbn [mbind option_bind].
    by rewrite Nat2N.id.
  - split; [|done]. apply wf_obj in Hwf as [Hkeys _].
    by apply obj_get_elem_of.
Qed.

Lemma elem_of_extractKeys p v prefix :
  p ∈ extractKeys v prefix
  ↔ ∃ k w, (k, w) ∈ enumerable v
           ∧ (p = full_key prefix k
              ∨ ∃ fields, w = JObj fields
                          ∧ p ∈ extractKeys w (full_key prefix k)).
Proof.
  rewrite extractKeys_enumerable, list_elem_of_join. split.
  - intros (l & Hp & Hl). apply list_elem_of_fmap in Hl as ([k w] & -> & Hin).
    exists k, w. split; [done|]. unfold entered in Hp. cbn [fst snd] in Hp.
    apply elem_of_cons in Hp as [->|Hp]; [by left|right].
    destruct w; try by apply not_elem_of_nil in Hp. by eexists.
  - intros (k & w & Hin & Hp). exists (entered prefix (k, w)).
    split; [|apply list_elem_of_fmap; by exists (k, w)].
    unfold entered. cbn [fst snd].
    destruct Hp as [->|(fields & -> & Hp)]; [by left|by right].
Qed.

Lemma keys_reach_step v :
  (∀ k fields, (k, JObj fields) ∈ enumerable v → keys_reach (JObj fields)) →
  keys_reach v.
Proof.
  intros IH pre p Hs Hpre Hp.
  apply elem_of_extractKeys in Hp as (k & w & Hin & Hp).
  destruct (enumerable_simple _ _ _ Hs Hin) as [Hk Hw].
  apply simple_key_spec in Hk as [Hk _].
  destruct Hp as [->|(fields & -> & Hp)].
  - exists [k], w. split; [by constructor|]. by apply full_key_join.
  - rewrite full_key_join in Hp by done.
    apply (IH k fields Hin) in Hp as (ks & w & Hr & ->);
      [|done|apply Forall_app_2; [done|by apply Forall_singleton]].
    exists (k :: ks), w. split; [by eapply reaches_step|].
    by rewrite <- app_assoc.
Qed.

Lemma extractKeys_reaches v : keys_reach v.
Proof.
  induction v as [|b|x|s|items IH|fields IH] using value_induction;
    apply keys_reach_step; cbn [enumerable]; intros k fs Hin;
    try by apply not_elem_of_nil in Hin.
  - by apply elem_of_lookup_imap_1 in Hin as (i & c & [=] & _).
  - apply elem_of_lookup_imap_1 in Hin as (i & c & [= -> <-] & Hi).
    rewrite Forall_forall in IH. eapply IH, list_elem_of_lookup_2, Hi.
  - rewrite Forall_forall in IH. apply (IH _ Hin).
Qed.

Lemma reaches_extractKeys v ks w :
  reaches v ks w → ∀ pre, simple v = true → Forall (λ k, k ≠ []) pre →
  join [46%N] (pre ++ ks) ∈ extractKeys v (join [46%N] pre).
Proof.
  induction 1 as [v k w Hin|v k fields ks w Hin Hr IH]; intros pre Hs Hpre;
    apply elem_of_extractKeys; exists k; eexists; (split; [exact Hin|]).
  - left. by rewrite full_key_join.
  - right. exists fields. split; [done|].
    destruct (enumerable_simple _ _ _ Hs Hin) as [Hk Hw].
    apply simple_key_spec in Hk as [Hk _].
    rewrite full_key_join by done.
    replace (pre ++ k :: ks) with ((pre ++ [k]) ++ ks) by by rewrite <- app_assoc.
    apply IH; [done|]. apply Forall_app_2; [done|by apply Forall_singleton].
Qed.

Lemma reaches_keys v ks w :
  reaches v ks w → simple v = true →
  ks ≠ [] ∧ Forall (λ k, 46%N ∉ k) ks ∧ join [46%N] ks ≠ [].
Proof.
  intros Hr Hs.
  assert (ks ≠ [] ∧ Forall (λ k, k ≠ [] ∧ 46%N ∉ k) ks) as [Hne Hall].
  { induction Hr as [v k w Hin|v k fields ks w Hin Hr IH].
    - destruct (enumerable_simple _ _ _ Hs Hin) as [Hk%simple_key_spec _].
      split; [done|by apply Forall_singleton].
    - destruct (enumerable_simple _ _ _ Hs Hin) as [Hk%simple_key_spec Hw].
      split; [done|]. constructor; [done|]. by apply IH. }
  split; [done|]. split.
  - eapply Forall_impl; [exact Hall|]. by intros k [_ Hk].
  - apply join_nonempty; [done|]. eapply Forall_impl; [exact Hall|].
    by intros k [Hk _].
Qed.

Section JsonUtilityKeys.
Variable inherited : value → js_string → option (list js_string → outcome json_result).

Lemma walk_reaches v ks w :
  reaches v ks w → wf v → simple v = true →
  walk inherited ks v = Return (Data w).
Proof.
  induction 1 as [v k w Hin|v k fields ks w Hin Hr IH]; intros Hwf Hs;
    destruct (enumerable_own _ _ _ Hwf Hs Hin) as [Hown Hnull];
    cbn [walk]; rewrite Hown.
  - by destruct v.
  - rewrite IH; [by destruct v|by eapply enumerable_wf|].
    by destruct (enumerable_simple _ _ _ Hs Hin).
Qed.

(** X16. For a valid JSON text whose keys are not empty and hold no dot,
    [extract_keys] lists exactly the dotted paths that lead through
    enumerable properties: the keys of an object, the indices of the text's
    own array or string, and from there on through objects only, never
    into an array inside an object. *)
Theorem json_utility_extract_keys_spec (json : js_string) (parsed : value)
  (key_path : option js_string) :
  JSON_parse json = Return parsed → simple parsed = true →
  ∃ keys,
    json_utility inherited extract_keys json key_path = Return (Strings keys)
    ∧ ∀ p, p ∈ keys ↔ ∃ ks w, reaches parsed ks w ∧ p = join (lit ".") ks.
Proof.
  intros Hparse Hs. exists (extractKeys parsed []).
  split; [by rewrite (json_utility_text_of inherited parsed)|].
  intros p. split.
  - intros Hp. by apply (extractKeys_reaches parsed [] p Hs).
  - intros (ks & w & Hr & ->).
    by apply (reaches_extractKeys _ _ _ Hr [] Hs).
Qed.

(** X17. Every path that [extract_keys] lists is one that [extract_values]
    resolves: for a valid JSON text whose keys are not empty and hold no
    dot, [extract_values] at a listed path returns the value stored at the
    end of that path, and never fails. *)
Theorem json_utility_extract_round_trip (json : js_string) (parsed : value)
  (key_path : option js_string) (keys : list js_string) (p : js_string) :
  JSON_parse json = Return parsed → simple parsed = true →
  json_utility inherited extract_keys json key_path = Return (Strings keys) →
  p ∈ keys →
  ∃ ks w, p = join (lit ".") ks ∧ reaches parsed ks w
          ∧ json_utility inherited extract_values json (Some p) = Return (Data w).
Proof.
  intros Hparse Hs Hkeys Hp.
  rewrite (json_utility_text_of inherited parsed) in Hkeys by done.
  injection Hkeys as <-.
  apply (extractKeys_reaches parsed [] p Hs) in Hp as (ks & w & Hr & ->); [|done].
  exists ks, w. split; [done|]. split; [done|].
  destruct (reaches_keys _ _ _ Hr Hs) as (Hne & Hdots & Hpath).
  rewrite (json_utility_text_of inherited parsed) by done.
  cbn [app] in *. destruct (join [46%N] ks) as [|c path] eqn:Hjoin; [done|].
  rewrite <- Hjoin, split_on_join by done.
  apply walk_reaches; [done| |done]. by eapply JSON_parse_wf.
Qed.
End JsonUtilityKeys.

Lemma obj_get_None k fields : k ∉ fields.*1 → obj_get k fields = None.
Proof.
  induction fields as [|[k0 v0] fields IH]; intros Hk; [done|].
  cbn [obj_get]. cbn [fmap list_fmap fst] in Hk.
  apply not_elem_of_cons in Hk as [Hne Hk].
  rewrite bool_decide_eq_false_2 by done. by apply IH.
Qed.

Section JsonUtilityValues.
Variable inherited : value → js_string → option (list js_string → outcome json_result).

Lemma walk_reaches_app v ks w rest :
  reaches v ks w → wf v → simple v = true →
  walk inherited (ks ++ rest) v = walk inherited rest w.
Proof.
  induction 1 as [v k w Hin|v k fields ks w Hin Hr IH]; intros Hwf Hs;
    destruct (enumerable_own _ _ _ Hwf Hs Hin) as [Hown Hnull];
    cbn [walk app]; rewrite Hown.
  - by destruct v.
  - rewrite IH; [by destruct v|by eapply enumerable_wf|].
    by destruct (enumerable_simple _ _ _ Hs Hin).
Qed.

Lemma walk_at_end v ks w rest :
  at_end v ks w → wf v → simple v = true →
  walk inherited (ks ++ rest) v = walk inherited rest w.
Proof.
  intros [[-> ->]|Hr] Hwf Hs; [done|]. by apply walk_reaches_app.
Qed.

Lemma at_end_keys v ks w :
  at_end v ks w → simple v = true → Forall (λ k, k ≠ [] ∧ 46%N ∉ k) ks.
Proof.
  intros [[-> ->]|Hr] Hs; [constructor|].
  induction Hr as [v k w Hin|v k fields ks w Hin Hr IH].
  - destruct (enumerable_simple _ _ _ Hs Hin) as [Hk%simple_key_spec _].
    by apply Forall_singleton.
  - destruct (enumerable_simple _ _ _ Hs Hin) as [Hk%simple_key_spec Hw].
    constructor; [done|]. by apply IH.
Qed.

Lemma extract_values_at_end json parsed ks w k rest :
  JSON_parse json = Return parsed → simple parsed = true →
  at_end parsed ks w → Forall (λ k, simple_key k = true) (k :: rest) →
  json_utility inherited extract_values json
    (Some (join (lit ".") (ks ++ k :: rest)))
  = walk inherited (k :: rest) w.
Proof.
  intros Hparse Hs Hend Hkeys.
  pose proof (at_end_keys _ _ _ Hend Hs) as Hks.
  assert (Forall (λ k, k ≠ [] ∧ 46%N ∉ k) (ks ++ k :: rest)) as Hall.
  { apply Forall_app_2; [done|]. eapply Forall_impl; [exact Hkeys|].
    intros k'. apply simple_key_spec. }
  rewrite (json_utility_text_of inherited parsed) by done.
  assert (join [46%N] (ks ++ k :: rest) ≠ []) as Hne.
  { apply join_nonempty; [by destruct ks|].
    eapply Forall_impl; [exact Hall|]. by intros ? [? _]. }
  change (lit ".") with [46%N].
  destruct (join [46%N] (ks ++ k :: rest)) as [|c path] eqn:Hjoin; [done|].
  rewrite <- Hjoin, split_on_join;
    [|by destruct ks|eapply Forall_impl; [exact Hall|]; by intros ? [_ ?]].
  apply walk_at_end; [done| |done]. by eapply JSON_parse_wf.
Qed.

(** X18. Two ways in which [extract_values] fails on a valid JSON text:
    without a key path, or with the empty one, it fails with the error
    "key_path required for extract_values operation"; and when the path
    leads to a stored [null] and goes on, it fails with the [TypeError] of
    reading a property of [null], which names the key that follows. *)
Theorem json_utility_extract_values_failures (json : js_string) (parsed : value) :
  JSON_parse json = Return parsed → simple parsed = true →
  json_utility inherited extract_values json None
  = Throw (Error (lit "key_path required for extract_values operation"))
  ∧ json_utility inherited extract_values json (Some [])
    = Throw (Error (lit "key_path required for extract_values operation"))
  ∧ ∀ ks k rest,
      at_end parsed ks JNull → Forall (λ k, simple_key k = true) (k :: rest) →
      json_utility inherited extract_values json
        (Some (join (lit ".") (ks ++ k :: rest)))
      = Throw (TypeError (lit "Cannot read properties of null (reading '"
                            ++ k ++ lit "')")).
Proof.
  intros Hparse Hs. split_and!.
  - by rewrite (json_utility_text_of inherited parsed).
  - by rewrite (json_utility_text_of inherited parsed).
  - intros ks k rest Hend Hkeys.
    by rewrite (extract_values_at_end json parsed ks JNull).
Qed.

(** X19. A path that leaves the data gives [null] and no error: when the path
    leads to an object that has no property of the next key, own or
    inherited, [extract_values] returns [null] whatever keys follow. *)
Theorem json_utility_extract_values_missing (json : js_string) (parsed : value)
  (ks : list js_string) (fields : list (js_string * value)) (k : js_string)
  (rest : list js_string) :
  JSON_parse json = Return parsed → simple parsed = true →
  at_end parsed ks (JObj fields) →
  k ∉ fields.*1 → inherited (JObj fields) k = None →
  Forall (λ k, simple_key k = true) (k :: rest) →
  json_utility inherited extract_values json
    (Some (join (lit ".") (ks ++ k :: rest)))
  = Return (Data JNull).
Proof.
  intros Hparse Hs Hend Hk Hinh Hkeys.
  rewrite (extract_values_at_end json parsed ks (JObj fields)) by done.
  cbn [walk own_property]. by rewrite obj_get_None, Hinh.
Qed.
End JsonUtilityValues.

Lemma trim_start_white s rest : white s → trim_start (s ++ rest) = trim_start rest.
Proof.
  induction 1 as [|c s Hc Hs IH]; [done|]. simpl. by rewrite Hc.
Qed.

Lemma trim_start_word s rest : word s → trim_start (s ++ rest) = s ++ rest.
Proof.
  intros [Hne Hs]. destruct Hs as [|c s Hc Hs]; [done|]. simpl. by rewrite Hc.
Qed.

Lemma reverse_spaced_head w0 others :
  word w0 →
  Forall (λ p : js_string * js_string, p.1 ≠ [] ∧ white p.1 ∧ word p.2) others →
  ∃ c r, reverse (spaced w0 others) = c :: r ∧ is_space c = false.
Proof.
  intros Hw Hall. revert w0 Hw.
  induction Hall as [|[sep w] others (Hne & Hsep & Hw') _ IH]; intros w0 Hw.
  - unfold spaced. cbn [fmap list_fmap mjoin list_join]. rewrite app_nil_r.
    destruct Hw as [Hne Hs].
    destruct (reverse w0) as [|c r] eqn:Hrev.
    + apply (f_equal reverse) in Hrev. rewrite reverse_involutive in Hrev.
      by subst.
    + exists c, r. split; [done|].
      apply Forall_reverse in Hs. rewrite Hrev in Hs. by inversion Hs.
  - destruct (IH w Hw') as (c & r & Hrev & Hc). cbn [fst snd] in *.
    unfold spaced in *. cbn [fmap list_fmap mjoin list_join fst snd].
    replace (w0 ++ (sep ++ w) ++ mjoin ((λ p, p.1 ++ p.2) <$> others))
      with ((w0 ++ sep) ++ (w ++ mjoin ((λ p, p.1 ++ p.2) <$> others)))
      by (by rewrite <- !app_assoc).
    rewrite reverse_app, Hrev. by eexists _, _.
Qed.

Lemma trim_spaced lead trail w0 others :
  white lead → white trail → word w0 →
  Forall (λ p : js_string * js_string, p.1 ≠ [] ∧ white p.1 ∧ word p.2) others →
  trim (lead ++ spaced w0 others ++ trail) = spaced w0 others.
Proof.
  intros Hlead Htrail Hw Hall. unfold trim.
  rewrite trim_start_white by done.
  unfold spaced at 1. rewrite <- app_assoc, trim_start_word by done.
  rewrite app_assoc. fold (spaced w0 others).
  rewrite reverse_app, trim_start_white by by apply Forall_reverse.
  destruct (reverse_spaced_head w0 others Hw Hall) as (c & r & Hrev & Hc).
  rewrite Hrev. simpl. rewrite Hc, <- Hrev. apply reverse_involutive.
Qed.

Lemma split_spaces_from_nonempty b s : split_spaces_from b s ≠ [].
Proof.
  revert b. induction s as [|c s IH]; intros b; [done|]. simpl.
  destruct (is_space c); [destruct b; [apply IH|done]|].
  by destruct (split_spaces_from false s).
Qed.

Lemma split_spaces_from_word_length b s rest :
  word s →
  length (split_spaces_from b (s ++ rest)) = length (split_spaces_from false rest).
Proof.
  intros [Hne Hs]. revert b. induction Hs as [|c s Hc Hs IH]; intros b; [done|].
  simpl. rewrite Hc.
  destruct s as [|d s].
  - simpl. pose proof (split_spaces_from_nonempty false rest).
    by destruct (split_spaces_from false rest).
  - specialize (IH ltac:(done) false).
    pose proof (split_spaces_from_nonempty false ((d :: s) ++ rest)).
    destruct (split_spaces_from false ((d :: s) ++ rest)); [done|].
    by rewrite <- IH.
Qed.

Lemma split_spaces_from_white s rest :
  white s → split_spaces_from true (s ++ rest) = split_spaces_from true rest.
Proof. induction 1 as [|c s Hc Hs IH]; [done|]. simpl. by rewrite Hc. Qed.

Lemma split_spaces_from_run s rest :
  s ≠ [] → white s →
  split_spaces_from false (s ++ rest) = [] :: split_spaces_from true rest.
Proof.
  intros Hne Hs. destruct Hs as [|c s Hc Hs]; [done|]. simpl. rewrite Hc.
  by rewrite split_spaces_from_white.
Qed.

Lemma split_spaces_spaced w0 others :
  word w0 →
  Forall (λ p : js_string * js_string, p.1 ≠ [] ∧ white p.1 ∧ word p.2) others →
  length (split_spaces (spaced w0 others)) = S (length others).
Proof.
  intros Hw Hall. unfold split_spaces, spaced.
  rewrite split_spaces_from_word_length by done. clear Hw.
  induction Hall as [|[sep w] others (Hne & Hsep & Hw') _ IH]; [done|].
  cbn [fmap list_fmap mjoin list_join fst snd] in *.
  rewrite <- app_assoc, split_spaces_from_run by done.
  cbn [length]. rewrite split_spaces_from_word_length by done. f_equal. exact IH.
Qed.

Lemma trim_white s : white s → trim s = [].
Proof.
  intros Hs. unfold trim. rewrite <- (app_nil_r s), trim_start_white by done.
  done.
Qed.

Section WordCount.
Variables toUpperCase toLowerCase : js_string → js_string.

(** X20. [word_count] counts the maximal runs of units that are no white
    space, whatever white space stands between them and around them, with
    one exception: a text of white space only, the empty text among them,
    counts as one word. *)
Theorem text_transform_word_count_spec :
  (∀ text, white text →
     text_transform toUpperCase toLowerCase text word_count = lit "Word count: 1")
  ∧ (∀ lead trail w0 others,
       white lead → white trail → word w0 →
       Forall (λ p : js_string * js_string, p.1 ≠ [] ∧ white p.1 ∧ word p.2)
         others →
       text_transform toUpperCase toLowerCase
         (lead ++ spaced w0 others ++ trail) word_count
       = lit "Word count: " ++ string_of_Z (Z.of_nat (S (length others)))).
Proof.
  split.
  - intros text Htext. unfold text_transform. by rewrite trim_white.
  - intros lead trail w0 others Hlead Htrail Hw Hall. unfold text_transform.
    by rewrite trim_spaced, split_spaces_spaced.
Qed.
End WordCount.

Lemma split_on_nonempty sep s : split_on sep s ≠ [].
Proof.
  induction s as [|c s IH]; [done|]. simpl.
  destruct (c =? sep)%N; [done|]. by destruct (split_on sep s).
Qed.

Lemma split_on_pieces sep s : Forall (λ p, sep ∉ p) (split_on sep s).
Proof.
  induction s as [|c s IH]; [by repeat constructor; apply not_elem_of_nil|].
  simpl. destruct (N.eqb_spec c sep) as [->|Hc].
  - constructor; [apply not_elem_of_nil|done].
  - destruct (split_on sep s) as [|p ps]; [by apply Forall_singleton; set_solver|].
    apply Forall_cons in IH as [Hp Hps]. constructor; [set_solver|done].
Qed.

Section Capitalize.
Variables toUpperCase toLowerCase : js_string → js_string.
Hypothesis toUpperCase_space : ∀ s, 32%N ∉ s → 32%N ∉ toUpperCase s.
Hypothesis toLowerCase_space : ∀ s, 32%N ∉ s → 32%N ∉ toLowerCase s.

(** X21. [capitalize] works on each piece between two spaces on its own and
    keeps every space where it is: split at the spaces, its result is the
    pieces of the text, each with its first unit in upper case and the
    rest in lower case. The case mappings are taken to give no space where
    there was none. *)
Theorem text_transform_capitalize_pieces (text : js_string) :
  split_on 32 (text_transform toUpperCase toLowerCase text capitalize)
  = (λ piece, toUpperCase (charAt0 piece) ++ toLowerCase (slice1 piece))
      <$> split_on 32 text.
Proof using toUpperCase_space toLowerCase_space.
  unfold text_transform. change (lit " ") with [32%N].
  apply split_on_join.
  - pose proof (split_on_nonempty 32 text). by destruct (split_on 32 text).
  - apply Forall_fmap. eapply Forall_impl; [apply split_on_pieces|].
    intros piece Hp. unfold compose. apply not_elem_of_app. split.
    + apply toUpperCase_space. unfold charAt0.
      intros Hin. apply Hp. by eapply (subseteq_take 1 piece).
    + apply toLowerCase_space. unfold slice1.
      intros Hin. apply Hp. by eapply (subseteq_drop 1 piece).
Qed.
End Capitalize.

Lemma sample_toUpperCase_space s : 32%N ∉ s → 32%N ∉ sample_toUpperCase s.
Proof.
  unfold sample_toUpperCase. intros Hs (c & Hc & Hin)%list_elem_of_fmap.
  destruct (97 <=? c)%N eqn:H1; destruct (c <=? 122)%N eqn:H2; simpl in Hc;
    try (by subst).
  apply N.leb_le in H1. lia.
Qed.

Lemma sample_toLowerCase_space s : 32%N ∉ s → 32%N ∉ sample_toLowerCase s.
Proof.
  unfold sample_toLowerCase. intros Hs (c & Hc & Hin)%list_elem_of_fmap.
  destruct (65 <=? c)%N eqn:H1; destruct (c <=? 90)%N eqn:H2; simpl in Hc;
    try (by subst).
  apply N.leb_le in H1. lia.
Qed.

Lemma text_transform_capitalize_pieces_witness :
  split_on 32 (text_transform sample_toUpperCase sample_toLowerCase
                 (lit "hello  wORLD") capitalize)
  = [lit "Hello"; []; lit "World"].
Proof.
  exact (text_transform_capitalize_pieces sample_toUpperCase sample_toLowerCase
           sample_toUpperCase_space sample_toLowerCase_space (lit "hello  wORLD")).
Defined.

Lemma text_transform_word_count_spec_witness :
  text_transform sample_toUpperCase sample_toLowerCase (lit "  ") word_count
  = lit "Word count: 1"
  ∧ text_transform sample_toUpperCase sample_toLowerCase
      (lit " " ++ spaced (lit "one") [(lit "  ", lit "two"); (newline, lit "three")]
         ++ lit "  ") word_count
    = lit "Word count: 3".
Proof.
  destruct (text_transform_word_count_spec sample_toUpperCase sample_toLowerCase)
    as [Hblank Hwords].
  split.
  - apply Hblank. by repeat constructor.
  - apply (Hwords (lit " ") (lit "  ") (lit "one")
             [(lit "  ", lit "two"); (newline, lit "three")]).
    + by repeat constructor.
    + by repeat constructor.
    + by split; [|repeat constructor].
    + repeat constructor; done.
Defined.

Lemma le_Z_ceiling neg m e z :
  le_Z (Fin neg m e) z = true ↔ (ceiling neg m e ≤ z)%Z.
Proof.
  pose proof (Z_lt_ceiling z neg m e) as H.
  unfold le_Z, Z_lt in *. cbn [compare_Z] in *.
  destruct (if (0 <=? e)%Z then _ else _) eqn:Hc.
  - split; [intros _|done]. destruct (Z_lt_dec z (ceiling neg m e)) as [Hlt|]; [|lia].
    by apply H in Hlt.
  - split; [intros _|done]. destruct (Z_lt_dec z (ceiling neg m e)) as [Hlt|]; [|lia].
    by apply H in Hlt.
  - split; [done|]. intros Hle. assert (z < ceiling neg m e)%Z by by apply H. lia.
Qed.

Section GenerateDataCount.
Variable rng : Type.
Variable Math_random : rng → number * rng.
Variable crypto_randomUUID : rng → js_string * rng.
Variable Number_toString_radix : number → N → js_string.

End GenerateDataCount.


Lemma generate_data_password_forever_witness :
  generate_data nat sample_random sample_randomUUID sample_toString_radix 1000
    {| type := password; count := of_Z 1;
       options := Some {| opt_length := Some (Inf false); opt_min := None;
                          opt_max := None |} |} 0%nat
  = None.
Proof.
  apply (generate_data_password_forever nat sample_random sample_randomUUID
           sample_toString_radix); reflexivity.
Defined.

Lemma finite_at_scale d neg m e :
  (0 ≤ d)%Z → (0 ≤ e + d)%Z →
  fits d (finite neg m e)
  ∧ at_scale d (finite neg m e) = (signed neg m * 10 ^ (e + d))%Z.
Proof.
  intros Hd He. unfold finite. destruct (N.eqb_spec m 0) as [->|Hm].
  - split; [simpl; lia|]. simpl. by destruct neg.
  - destruct (strip_zeros_spec (N.to_nat (N.log2 m)) m e) as (k & He' & Hk).
    destruct (strip_zeros _ m e) as [m' e']. cbn [fst snd] in *. subst e'.
    split; [simpl; lia|]. cbn [at_scale].
    rewrite Hk. rewrite signed_mul, N2Z.inj_pow, nat_N_Z.
    change (Z.of_N 10) with 10%Z.
    replace (e + Z.of_nat k + d)%Z with (Z.of_nat k + (e + d))%Z by lia.
    rewrite Z.pow_add_r by lia. lia.
Qed.

Lemma of_signed_at_scale d s e :
  (0 ≤ d)%Z → (0 ≤ e + d)%Z →
  fits d (of_signed s e) ∧ at_scale d (of_signed s e) = (s * 10 ^ (e + d))%Z.
Proof.
  intros Hd He. unfold of_signed.
  destruct (finite_at_scale d (s <? 0)%Z (Z.abs_N s) e Hd He) as [Hf Ha].
  split; [done|]. by rewrite Ha, signed_abs.
Qed.

Lemma of_Z_at_scale d n :
  (0 ≤ d)%Z → fits d (of_Z n) ∧ at_scale d (of_Z n) = (n * 10 ^ d)%Z.
Proof.
  intros Hd. destruct (of_signed_at_scale d n 0 Hd ltac:(lia)) as [Hf Ha].
  split; [done|]. unfold of_Z. rewrite Ha. by rewrite Z.add_0_l.
Qed.

Lemma add_at_scale d x y :
  fits d x → fits d y →
  fits d (Num.add x y) ∧ at_scale d (Num.add x y) = (at_scale d x + at_scale d y)%Z.
Proof.
  destruct x as [nx mx ex| |], y as [ny my ey| |]; try done.
  intros [Hd Hx] [_ Hy]. cbn [Num.add].
  destruct (of_signed_at_scale d
              (scaled (signed nx mx) ex (ex `min` ey)
               + scaled (signed ny my) ey (ex `min` ey)) (ex `min` ey) Hd
              ltac:(lia)) as [Hf Ha].
  split; [done|]. rewrite Ha. unfold scaled. cbn [at_scale].
  rewrite Z.mul_add_distr_r, <- !Z.mul_assoc, <- !Z.pow_add_r by lia.
  f_equal; do 2 f_equal; lia.
Qed.

Lemma mul_at_scale d1 d2 x y :
  fits d1 x → fits d2 y →
  fits (d1 + d2) (Num.mul x y)
  ∧ at_scale (d1 + d2) (Num.mul x y) = (at_scale d1 x * at_scale d2 y)%Z.
Proof.
  destruct x as [nx mx ex| |], y as [ny my ey| |]; try done.
  intros [Hd1 Hx] [Hd2 Hy]. cbn [Num.mul].
  destruct (finite_at_scale (d1 + d2) (xorb nx ny) (mx * my) (ex + ey)
              ltac:(lia) ltac:(lia)) as [Hf Ha].
  split; [done|]. rewrite Ha. cbn [at_scale].
  replace (ex + ey + (d1 + d2))%Z with ((ex + d1) + (ey + d2))%Z by lia.
  rewrite Z.pow_add_r by lia.
  assert (signed (xorb nx ny) (mx * my) = signed nx mx * signed ny my)%Z as ->.
  { unfold signed. destruct nx, ny; simpl; lia. }
  lia.
Qed.

Lemma floor_at_scale d x :
  fits d x →
  fits 0 (floor x) ∧ at_scale 0 (floor x) = (at_scale d x / 10 ^ d)%Z.
Proof.
  destruct x as [neg m e| |]; try done. intros [Hd He]. cbn [floor at_scale].
  assert (0 < 10 ^ d)%Z by (apply Z.pow_pos_nonneg; lia).
  destruct (Z.leb_spec 0 e) as [He0|He0].
  - split; [simpl; lia|]. cbn [at_scale]. rewrite Z.add_0_r.
    rewrite Z.pow_add_r, Z.mul_assoc, Z.div_mul by lia. done.
  - destruct (of_signed_at_scale 0 (signed neg m / 10 ^ (- e)) 0 ltac:(lia)
                ltac:(lia)) as [Hf Ha].
    split; [done|]. rewrite Ha. simpl (10 ^ (0 + 0))%Z. rewrite Z.mul_1_r.
    replace d with ((e + d) + (- e))%Z at 2 by lia.
    rewrite (Z.pow_add_r 10 (e + d) (- e)) by lia.
    rewrite (Z.mul_comm (10 ^ (e + d))).
    rewrite Z.div_mul_cancel_r; [done| |].
    + apply Z.pow_nonzero; lia.
    + apply Z.pow_nonzero; lia.
Qed.

Lemma compare_Z_at_scale d x z :
  fits d x → compare_Z x z = Some (at_scale d x ?= z * 10 ^ d)%Z.
Proof.
  destruct x as [neg m e| |]; try done. intros [Hd He].
  cbn [compare_Z at_scale]. f_equal.
  destruct (Z.leb_spec 0 e) as [He0|He0].
  - rewrite Z.pow_add_r, Z.mul_assoc by lia.
    symmetry. apply compare_scale. apply Z.pow_pos_nonneg; lia.
  - replace d with ((- e) + (e + d))%Z at 2 by lia.
    rewrite (Z.pow_add_r 10 (- e)), Z.mul_assoc by lia.
    symmetry. apply compare_scale. apply Z.pow_pos_nonneg; lia.
Qed.

Lemma to_integer_at_scale x :
  fits 0 x → to_integer x = Some (at_scale 0 x).
Proof.
  destruct x as [neg m e| |]; try done. intros [_ He].
  cbn [to_integer at_scale]. rewrite Z.add_0_r in *.
  by rewrite (proj2 (Z.leb_le 0 e) He).
Qed.

Lemma isInteger_fits x : fits 0 x → isInteger x = true.
Proof.
  destruct x as [neg m e| |]; try done. intros [_ He]. cbn [isInteger].
  rewrite Z.add_0_r in He. by rewrite (proj2 (Z.leb_le 0 e) He), orb_true_r.
Qed.

Lemma unit_interval_at_scale x :
  unit_interval x →
  ∃ d, fits d x ∧ (0 ≤ at_scale d x < 10 ^ d)%Z.
Proof.
  intros [H0 H1]. destruct x as [neg m e|[]|]; try done.
  exists (Z.max 0 (- e)).
  assert (fits (Z.max 0 (- e)) (Fin neg m e)) as Hf by (simpl; lia).
  split; [done|].
  unfold Z_le, lt_Z in *.
  rewrite (compare_Z_at_scale _ _ 0 Hf) in H0.
  rewrite (compare_Z_at_scale _ _ 1 Hf) in H1.
  rewrite Z.mul_0_l in H0. rewrite Z.mul_1_l in H1.
  destruct (Z.compare_spec (at_scale (Z.max 0 (- e)) (Fin neg m e)) 0);
    destruct (Z.compare_spec (at_scale (Z.max 0 (- e)) (Fin neg m e))
                (10 ^ Z.max 0 (- e))); try done; lia.
Qed.

Lemma opp_at_scale d x :
  fits d x → fits d (opp x) ∧ at_scale d (opp x) = (- at_scale d x)%Z.
Proof.
  destruct x as [neg m e| |]; try done. intros Hf. split; [done|].
  cbn [opp at_scale]. unfold signed. destruct neg; simpl; lia.
Qed.

Lemma sub_at_scale d x y :
  fits d x → fits d y →
  fits d (sub x y) ∧ at_scale d (sub x y) = (at_scale d x - at_scale d y)%Z.
Proof.
  intros Hx Hy. destruct (opp_at_scale d y Hy) as [Hfo Hao].
  destruct (add_at_scale d x (opp y) Hx Hfo) as [Hf Ha].
  split; [done|]. unfold sub. rewrite Ha, Hao. lia.
Qed.

(** [Math.floor(x * y + c)] for [x] of the unit interval and integers
    [y > 0] and [c]: an integer from [c] to [c + y - 1]. *)
Lemma floor_random_integers x y c :
  unit_interval x → fits 0 y → fits 0 c → (0 < at_scale 0 y)%Z →
  fits 0 (floor (Num.add (Num.mul x y) c))
  ∧ (at_scale 0 c ≤ at_scale 0 (floor (Num.add (Num.mul x y) c))
     < at_scale 0 c + at_scale 0 y)%Z.
Proof.
  intros (d & Hf & Hx)%unit_interval_at_scale Hfy Hfc Hy.
  assert (0 ≤ d)%Z as Hd by (by destruct x as [? ? ?| |]; destruct Hf).
  assert (0 < 10 ^ d)%Z as Hp by (apply Z.pow_pos_nonneg; lia).
  assert (fits d c ∧ at_scale d c = at_scale 0 c * 10 ^ d)%Z as [Hfc' Hac].
  { destruct c as [neg m e| |]; try done. destruct Hfc as [_ Hc].
    split; [simpl; lia|]. cbn [at_scale]. rewrite Z.add_0_r in *.
    rewrite Z.pow_add_r by lia. lia. }
  destruct (mul_at_scale d 0 x y Hf Hfy) as [Hfm Ham].
  rewrite Z.add_0_r in Hfm, Ham.
  destruct (add_at_scale d _ _ Hfm Hfc') as [Hfa Haa].
  destruct (floor_at_scale d _ Hfa) as [Hff Haf].
  split; [done|]. rewrite Haf, Haa, Ham, Hac.
  set (p := (10 ^ d)%Z) in *. set (a := at_scale d x) in *.
  set (n := at_scale 0 y) in *. set (k := at_scale 0 c) in *.
  split.
  - apply Z.div_le_lower_bound; [done|]. nia.
  - apply Z.div_lt_upper_bound; [done|]. nia.
Qed.

Lemma floor_random_product x y :
  unit_interval x → fits 0 y → (0 < at_scale 0 y)%Z →
  fits 0 (floor (Num.mul x y))
  ∧ (0 ≤ at_scale 0 (floor (Num.mul x y)) < at_scale 0 y)%Z.
Proof.
  intros (d & Hf & Hx)%unit_interval_at_scale Hfy Hy.
  assert (0 ≤ d)%Z as Hd by (by destruct x as [? ? ?| |]; destruct Hf).
  assert (0 < 10 ^ d)%Z as Hp by (apply Z.pow_pos_nonneg; lia).
  destruct (mul_at_scale d 0 x y Hf Hfy) as [Hfm Ham].
  rewrite Z.add_0_r in Hfm, Ham.
  destruct (floor_at_scale d _ Hfm) as [Hff Haf].
  split; [done|]. rewrite Haf, Ham.
  set (p := (10 ^ d)%Z) in *. set (a := at_scale d x) in *.
  set (n := at_scale 0 y) in *.
  split.
  - apply Z.div_le_lower_bound; [done|]. nia.
  - apply Z.div_lt_upper_bound; [done|]. nia.
Qed.

Lemma turns_of_Z n : turns (of_Z n) = Z.to_nat n.
Proof. destruct (of_Z_finite n) as (neg & m & e & -> & Hc). simpl. by rewrite Hc. Qed.

Lemma of_Z_not_Inf n b : of_Z n ≠ Inf b.
Proof. destruct (of_Z_finite n) as (neg & m & e & -> & _). done. Qed.

Lemma charAt_unit s pos z :
  fits 0 pos → at_scale 0 pos = z → (0 ≤ z < Z.of_nat (length s))%Z →
  ∃ c, charAt s pos = [c] ∧ c ∈ s.
Proof.
  intros Hf Ha Hz. unfold charAt. rewrite (to_integer_at_scale pos Hf), Ha.
  rewrite (proj2 (Z.leb_le 0 z)) by lia.
  rewrite (proj2 (Z.ltb_lt z _)) by lia. cbn [andb].
  destruct (lookup_lt_is_Some_2 s (Z.to_nat z) ltac:(lia)) as [c Hc].
  exists c. split; [|by eapply list_elem_of_lookup_2].
  rewrite <- (take_drop_middle s (Z.to_nat z) c Hc) at 1.
  rewrite drop_app_length'; [done|]. rewrite length_take. apply lookup_lt_Some in Hc. lia.
Qed.

Section GenerateDataRanges.
Variable rng : Type.
Variable Math_random : rng → number * rng.
Variable crypto_randomUUID : rng → js_string * rng.
Variable Number_toString_radix : number → N → js_string.
Hypothesis Math_random_unit : ∀ r, unit_interval (Math_random r).1.

Lemma password_step_spec pw r :
  ∃ c r', password_step rng Math_random (pw, r) = Some (pw ++ [c], r')
          ∧ c ∈ password_chars.
Proof using Math_random_unit.
  unfold password_step, random_floor, number_of_length.
  pose proof (Math_random_unit r) as Hx.
  destruct (Math_random r) as [x r']. cbn [fst] in Hx.
  destruct (of_Z_at_scale 0 (Z.of_nat (length password_chars)) ltac:(lia))
    as [Hfy Hay].
  destruct (of_Z_at_scale 0 0 ltac:(lia)) as [Hfc Hac].
  destruct (floor_random_integers x (of_Z (Z.of_nat (length password_chars)))
              (of_Z 0) Hx Hfy Hfc) as [Hf Hz].
  { rewrite Hay. by vm_compute. }
  rewrite Hay, Hac in Hz.
  destruct (charAt_unit password_chars _ _ Hf eq_refl) as (c & Hc & Hin).
  { simpl (10 ^ 0)%Z in Hz. lia. }
  exists c, r'. by rewrite Hc.
Qed.


(** X25. Numbers stay in their range: with [Math.random] in the unit interval
    and whole numbers [a <= b] as [options.min || 1] and
    [options.max || 100], neither beyond [10^15] in magnitude, every
    generated value is the text of an integer from [a] to [b]. A bound of
    [0] counts as absent: [min: 0] gives numbers from 1 on, and [max: 0]
    numbers up to 100.

    The bound on the magnitude is where the arithmetic of the handler
    agrees with the exact arithmetic of the model: the width
    [max - min + 1] is a whole number below [2^53], which binary64
    computes exactly; the product of the random number and the width,
    rounded, is still below the width, so its floor is the floor of the
    exact product for some number of the unit interval, and [Math_random]
    is any function into the unit interval here; the sum of the floor and
    [min] is exact again. For wider bounds the width is rounded or
    overflows to [Infinity], and the property is not stated. *)
Theorem generate_data_number_range (params : generate_data_params) (r : rng)
  (a b : Z) :
  type params = number_type →
  or_default (options params ≫= opt_min) (of_Z 1) = of_Z a →
  or_default (options params ≫= opt_max) (of_Z 100) = of_Z b →
  (- 10 ^ 15 ≤ a)%Z → (a ≤ b)%Z → (b ≤ 10 ^ 15)%Z →
  count params ≠ Inf false →
  ∃ fuel0, ∀ fuel, fuel0 ≤ fuel →
    ∃ results r',
      generate_results rng Math_random crypto_randomUUID Number_toString_radix
        fuel params r = Some (results, r')
      ∧ Forall (λ item, ∃ v, item = toString v ∧ isInteger v = true
                             ∧ Z_le a v = true ∧ le_Z v b = true) results.
Proof using Math_random_unit.
  intros Ht Hmin Hmax _ Hab _ Hcount.
  exists (turns (count params)). intros fuel Hfuel.
  unfold generate_results.
  destruct (for_loop_ends
              (λ _ (st : list js_string * rng),
                 Forall (λ item, ∃ v, item = toString v ∧ isInteger v = true
                                      ∧ Z_le a v = true ∧ le_Z v b = true) st.1)
              (generate_item rng Math_random crypto_randomUUID
                 Number_toString_radix fuel (type params) (options params))
              (count params) fuel ([], r)) as ([results r'] & Hrun & Hall);
    [done| |lia|by constructor|by exists results, r'].
  intros _ [results r0] Hres. cbn [fst] in Hres.
  rewrite Ht. cbn [generate_item]. rewrite Hmin, Hmax.
  pose proof (Math_random_unit r0) as Hx.
  destruct (Math_random r0) as [x r1]. cbn [fst] in Hx.
  eexists. split; [done|]. cbn [fst].
  apply Forall_app_2; [done|]. apply Forall_singleton.
  eexists. split; [done|].
  destruct (of_Z_at_scale 0 a ltac:(lia)) as [Hfa Haa].
  destruct (of_Z_at_scale 0 b ltac:(lia)) as [Hfb Hab'].
  destruct (of_Z_at_scale 0 1 ltac:(lia)) as [Hf1 Ha1].
  destruct (sub_at_scale 0 _ _ Hfb Hfa) as [Hfs Has].
  destruct (add_at_scale 0 _ _ Hfs Hf1) as [Hfw Haw].
  simpl (10 ^ 0)%Z in *.
  destruct (floor_random_product x _ Hx Hfw) as [Hff Hz];
    [rewrite Haw, Has, Hab', Haa, Ha1; lia|].
  destruct (add_at_scale 0 _ _ Hff Hfa) as [Hfv Hav].
  split; [by apply isInteger_fits|].
  unfold Z_le, le_Z. rewrite !(compare_Z_at_scale 0 _ _ Hfv), Hav.
  simpl (10 ^ 0)%Z.
  rewrite Haw, Has, Hab', Haa, Ha1 in Hz. rewrite Haa.
  split.
  - match goal with |- context [(?u ?= ?v)%Z] =>
      destruct (Z.compare_spec u v) end; try done; lia.
  - match goal with |- context [(?u ?= ?v)%Z] =>
      destruct (Z.compare_spec u v) end; try done; lia.
Qed.
End GenerateDataRanges.

Lemma digits_value_upper s :
  all_digits s = true → (digits_value s < 10 ^ N.of_nat (length s))%N.
Proof.
  induction s as [|c s IH]; intros Hs; [simpl; lia|].
  cbn [all_digits forallb] in Hs. apply andb_true_iff in Hs as [Hc Hs].
  specialize (IH Hs). cbn [digits_value length].
  rewrite Nat2N.inj_succ, N.pow_succ_r'.
  unfold is_digit in Hc. apply andb_true_iff in Hc as [H1%N.leb_le H2%N.leb_le].
  nia.
Qed.

Lemma digits_value_lower c s :
  all_digits (c :: s) = true → c ≠ 48%N →
  (10 ^ N.of_nat (length s) ≤ digits_value (c :: s))%N.
Proof.
  intros Hs Hc. cbn [all_digits forallb] in Hs.
  apply andb_true_iff in Hs as [Hd Hs]. cbn [digits_value].
  unfold is_digit in Hd. apply andb_true_iff in Hd as [H1%N.leb_le H2%N.leb_le].
  nia.
Qed.

(** The text of a positive integer below [10^21]: its decimal digits. *)
Lemma toString_integer v z :
  fits 0 v → at_scale 0 v = z → (0 < z < 10 ^ 21)%Z →
  all_digits (toString v) = true
  ∧ (10 ^ Z.of_nat (length (toString v) - 1) ≤ z
     < 10 ^ Z.of_nat (length (toString v)))%Z.
Proof.
  destruct v as [neg m e| |]; try done. intros [_ He] Ha Hz.
  cbn [at_scale] in Ha. rewrite Z.add_0_r in *.
  assert (0 < 10 ^ e)%Z as Hp by (apply Z.pow_pos_nonneg; lia).
  assert (neg = false) as ->.
  { destruct neg; [|done]. unfold signed in Ha. nia. }
  unfold signed in Ha.
  assert (m ≠ 0%N) as Hm by (intros ->; simpl in Ha; lia).
  destruct (digits_of_N_spec m) as (Hd & Hv & Hne & Hhd).
  destruct (Hhd Hm) as (c & ds & Hds & Hc).
  pose proof (digits_value_upper _ Hd) as Hup.
  pose proof (digits_value_lower c ds) as Hlow.
  rewrite <- Hds in Hlow. specialize (Hlow Hd Hc). rewrite Hv in Hup, Hlow.
  set (k := length (digits_of_N m)) in *.
  assert (length ds = k - 1) as Hk by (subst k; rewrite Hds; simpl; lia).
  rewrite Hk in Hlow.
  assert (1 ≤ k) as Hk1 by (subst k; rewrite Hds; simpl; lia).
  assert (10 ^ Z.of_nat (k - 1) ≤ Z.of_N m < 10 ^ Z.of_nat k)%Z as Hmk.
  { split.
    - replace (10 ^ Z.of_nat (k - 1))%Z with (Z.of_N (10 ^ N.of_nat (k - 1))); [lia|].
      by rewrite N2Z.inj_pow, nat_N_Z.
    - replace (10 ^ Z.of_nat k)%Z with (Z.of_N (10 ^ N.of_nat k)); [lia|].
      by rewrite N2Z.inj_pow, nat_N_Z. }
  assert (Z.of_nat k + e ≤ 21)%Z as Hn.
  { destruct (Z_le_gt_dec (Z.of_nat k + e) 21) as [|Hgt]; [done|].
    assert (10 ^ 21 ≤ 10 ^ (Z.of_nat (k - 1) + e))%Z
      by (apply Z.pow_le_mono_r; lia).
    rewrite Z.pow_add_r in * by lia. nia. }
  assert (toString (Fin false m e) = digits_of_N m ++ zeros (Z.to_nat e)) as ->.
  { unfold toString. rewrite (proj2 (N.eqb_neq m 0) Hm). cbn [app].
    unfold layout. fold k.
    rewrite (proj2 (Z.leb_le (Z.of_nat k) (Z.of_nat k + e))) by lia.
    rewrite (proj2 (Z.leb_le (Z.of_nat k + e) 21)) by lia. cbn [andb].
    do 2 f_equal. lia. }
  split.
  - by rewrite all_digits_app, Hd, all_digits_zeros.
  - rewrite length_app, length_zeros. fold k.
    replace (Z.of_nat (k + Z.to_nat e - 1)) with (Z.of_nat (k - 1) + e)%Z by lia.
    replace (Z.of_nat (k + Z.to_nat e)) with (Z.of_nat k + e)%Z by lia.
    rewrite !Z.pow_add_r by lia. nia.
Qed.

Lemma toString_decimal len v z :
  fits 0 v → at_scale 0 v = z → (0 < len ≤ 21)%nat →
  (10 ^ Z.of_nat (len - 1) ≤ z < 10 ^ Z.of_nat len)%Z →
  decimal len (toString v).
Proof.
  intros Hf Ha Hlen Hz.
  assert (0 < 10 ^ Z.of_nat (len - 1))%Z by (apply Z.pow_pos_nonneg; lia).
  assert (10 ^ Z.of_nat len ≤ 10 ^ 21)%Z by (apply Z.pow_le_mono_r; lia).
  destruct (toString_integer v z Hf Ha ltac:(lia)) as [Hd Hb].
  split; [|done]. set (k := length (toString v)) in *.
  destruct (Nat.lt_trichotomy k len) as [Hlt|[->|Hgt]]; [|done|].
  - assert (10 ^ Z.of_nat k ≤ 10 ^ Z.of_nat (len - 1))%Z
      by (apply Z.pow_le_mono_r; lia). lia.
  - assert (10 ^ Z.of_nat len ≤ 10 ^ Z.of_nat (k - 1))%Z
      by (apply Z.pow_le_mono_r; lia). lia.
Qed.

Section GenerateDataShapes.
Variable rng : Type.
Variable Math_random : rng → number * rng.
Variable crypto_randomUUID : rng → js_string * rng.
Variable Number_toString_radix : number → N → js_string.
Hypothesis Math_random_unit : ∀ r, unit_interval (Math_random r).1.

Lemma random_floor_decimal len n c r :
  (0 < len ≤ 21)%nat → (0 < n)%Z →
  (10 ^ Z.of_nat (len - 1) ≤ c)%Z → (c + n ≤ 10 ^ Z.of_nat len)%Z →
  decimal len (toString (random_floor rng Math_random (of_Z n) (of_Z c) r).1).
Proof using Math_random_unit.
  intros Hlen Hn Hlo Hhi. unfold random_floor.
  pose proof (Math_random_unit r) as Hx.
  destruct (Math_random r) as [x r']. cbn [fst] in *.
  destruct (of_Z_at_scale 0 n ltac:(lia)) as [Hfn Han].
  destruct (of_Z_at_scale 0 c ltac:(lia)) as [Hfc Hac].
  simpl (10 ^ 0)%Z in *.
  destruct (floor_random_integers x (of_Z n) (of_Z c) Hx Hfn Hfc) as [Hf Hz];
    [lia|].
  apply (toString_decimal len _ _ Hf eq_refl Hlen). lia.
Qed.

(** X26. Phone numbers have one format: with [Math.random] in the unit
    interval, every generated value is [+1-] followed by three decimal
    digits, a hyphen, three digits, a hyphen and four digits. *)
Theorem generate_data_phone_format (params : generate_data_params) (r : rng) :
  type params = phone → count params ≠ Inf false →
  ∃ fuel0, ∀ fuel, fuel0 ≤ fuel →
    ∃ results r',
      generate_results rng Math_random crypto_randomUUID Number_toString_radix
        fuel params r = Some (results, r')
      ∧ Forall (λ item, ∃ a b c,
                  item = lit "+1-" ++ a ++ lit "-" ++ b ++ lit "-" ++ c
                  ∧ decimal 3 a ∧ decimal 3 b ∧ decimal 4 c) results.
Proof using Math_random_unit.
  intros Ht Hcount. exists (turns (count params)). intros fuel Hfuel.
  unfold generate_results.
  destruct (for_loop_ends
              (λ _ (st : list js_string * rng),
                 Forall (λ item, ∃ a b c,
                           item = lit "+1-" ++ a ++ lit "-" ++ b ++ lit "-" ++ c
                           ∧ decimal 3 a ∧ decimal 3 b ∧ decimal 4 c) st.1)
              (generate_item rng Math_random crypto_randomUUID
                 Number_toString_radix fuel (type params) (options params))
              (count params) fuel ([], r)) as ([results r'] & Hrun & Hall);
    [done| |lia|by constructor|by exists results, r'].
  intros _ [results r0] Hres. cbn [fst] in Hres.
  rewrite Ht. cbn [generate_item].
  pose proof (random_floor_decimal 3 900 100 r0 ltac:(lia) ltac:(lia)
                ltac:(by vm_compute) ltac:(by vm_compute)) as Ha.
  destruct (random_floor rng Math_random (of_Z 900) (of_Z 100) r0) as [a r1].
  pose proof (random_floor_decimal 3 900 100 r1 ltac:(lia) ltac:(lia)
                ltac:(by vm_compute) ltac:(by vm_compute)) as Hb.
  destruct (random_floor rng Math_random (of_Z 900) (of_Z 100) r1) as [b r2].
  pose proof (random_floor_decimal 4 9000 1000 r2 ltac:(lia) ltac:(lia)
                ltac:(by vm_compute) ltac:(by vm_compute)) as Hc.
  destruct (random_floor rng Math_random (of_Z 9000) (of_Z 1000) r2) as [c r3].
  cbn [fst] in *. eexists. split; [done|]. cbn [fst].
  apply Forall_app_2; [done|]. apply Forall_singleton.
  by exists (toString a), (toString b), (toString c).
Qed.

(** X27. The domain of a generated address is always one of the three of the
    handler, never the text of [undefined]: with [Math.random] in the unit
    interval, every generated value is a local part of at most six units,
    which may be empty, then [@] and one of the domains. *)
Theorem generate_data_email_domain (params : generate_data_params) (r : rng) :
  type params = email → count params ≠ Inf false →
  ∃ fuel0, ∀ fuel, fuel0 ≤ fuel →
    ∃ results r',
      generate_results rng Math_random crypto_randomUUID Number_toString_radix
        fuel params r = Some (results, r')
      ∧ Forall (λ item, ∃ username domain,
                  item = username ++ lit "@" ++ domain
                  ∧ length username ≤ 6 ∧ domain ∈ email_domains) results.
Proof using Math_random_unit.
  intros Ht Hcount. exists (turns (count params)). intros fuel Hfuel.
  unfold generate_results.
  destruct (for_loop_ends
              (λ _ (st : list js_string * rng),
                 Forall (λ item, ∃ username domain,
                           item = username ++ lit "@" ++ domain
                           ∧ length username ≤ 6 ∧ domain ∈ email_domains) st.1)
              (generate_item rng Math_random crypto_randomUUID
                 Number_toString_radix fuel (type params) (options params))
              (count params) fuel ([], r)) as ([results r'] & Hrun & Hall);
    [done| |lia|by constructor|by exists results, r'].
  intros _ [results r0] Hres. cbn [fst] in Hres.
  rewrite Ht. cbn [generate_item].
  destruct (Math_random r0) as [x r1]. unfold random_floor, number_of_length.
  pose proof (Math_random_unit r1) as Hy.
  destruct (Math_random r1) as [y r2]. cbn [fst] in Hy.
  eexists. split; [done|]. cbn [fst].
  apply Forall_app_2; [done|]. apply Forall_singleton.
  eexists _, _. split; [done|]. split.
  { unfold substring_2_8. rewrite length_take. lia. }
  destruct (of_Z_at_scale 0 (Z.of_nat (length email_domains)) ltac:(lia))
    as [Hfn Han].
  destruct (of_Z_at_scale 0 0 ltac:(lia)) as [Hfc Hac].
  destruct (floor_random_integers y _ (of_Z 0) Hy Hfn Hfc) as [Hf Hz].
  { rewrite Han. by vm_compute. }
  rewrite Han, Hac in Hz. simpl (10 ^ 0)%Z in Hz.
  set (pos := floor _) in *. unfold element_text.
  rewrite (isInteger_fits pos Hf), (to_integer_at_scale pos Hf).
  destruct pos as [neg m e| |] eqn:Hpos; try done. rewrite <- Hpos in *.
  rewrite (proj2 (Z.leb_le 0 (at_scale 0 pos))) by lia.
  destruct (lookup_lt_is_Some_2 email_domains (Z.to_nat (at_scale 0 pos))
              ltac:(lia)) as [d Hd].
  rewrite Hd. cbn [from_option id]. by eapply list_elem_of_lookup_2.
Qed.
End GenerateDataShapes.

Lemma sample_random_unit (n : nat) : unit_interval (sample_random n).1.
Proof.
  unfold sample_random, unit_interval, Z_le, lt_Z. cbn [fst].
  rewrite !compare_Z_finite. unfold compare_Z.
  change (0 <=? -2)%Z with false. cbv iota.
  unfold signed. change (10 ^ (- (-2)))%Z with 100%Z.
  assert (37 * n mod 100 < 100)%nat by (apply Nat.mod_upper_bound; lia).
  split.
  - match goal with |- context [(?u ?= ?v)%Z] =>
      destruct (Z.compare_spec u v) end; try done; lia.
  - match goal with |- context [(?u ?= ?v)%Z] =>
      destruct (Z.compare_spec u v) end; try done; lia.
Qed.


Lemma generate_data_number_range_witness :
  ∃ fuel0, ∀ fuel, fuel0 ≤ fuel →
    ∃ results r',
      generate_results nat sample_random sample_randomUUID sample_toString_radix
        fuel
        {| type := number_type; count := of_Z 5;
           options := Some {| opt_length := None; opt_min := Some (of_Z 0);
                              opt_max := Some (of_Z 3) |} |} 0%nat
      = Some (results, r')
      ∧ Forall (λ item, ∃ v, item = toString v ∧ isInteger v = true
                             ∧ Z_le 1 v = true ∧ le_Z v 3 = true) results.
Proof.
  apply (generate_data_number_range nat sample_random sample_randomUUID
           sample_toString_radix sample_random_unit
           {| type := number_type; count := of_Z 5;
              options := Some {| opt_length := None; opt_min := Some (of_Z 0);
                                 opt_max := Some (of_Z 3) |} |} 0%nat 1 3).
  - reflexivity.
  - reflexivity.
  - reflexivity.
  - lia.
  - lia.
  - lia.
  - discriminate.
Defined.

Lemma generate_data_phone_format_witness :
  ∃ fuel0, ∀ fuel, fuel0 ≤ fuel →
    ∃ results r',
      generate_results nat sample_random sample_randomUUID sample_toString_radix
        fuel {| type := phone; count := of_Z 2; options := None |} 0%nat
      = Some (results, r')
      ∧ Forall (λ item, ∃ a b c,
                  item = lit "+1-" ++ a ++ lit "-" ++ b ++ lit "-" ++ c
                  ∧ decimal 3 a ∧ decimal 3 b ∧ decimal 4 c) results.
Proof.
  apply (generate_data_phone_format nat sample_random sample_randomUUID
           sample_toString_radix sample_random_unit
           {| type := phone; count := of_Z 2; options := None |} 0%nat).
  - reflexivity.
  - discriminate.
Defined.

Lemma generate_data_email_domain_witness :
  ∃ fuel0, ∀ fuel, fuel0 ≤ fuel →
    ∃ results r',
      generate_results nat sample_random sample_randomUUID sample_toString_radix
        fuel {| type := email; count := of_Z 2; options := None |} 0%nat
      = Some (results, r')
      ∧ Forall (λ item, ∃ username domain,
                  item = username ++ lit "@" ++ domain
                  ∧ length username ≤ 6 ∧ domain ∈ email_domains) results.
Proof.
  apply (generate_data_email_domain nat sample_random sample_randomUUID
           sample_toString_radix sample_random_unit
           {| type := email; count := of_Z 2; options := None |} 0%nat).
  - reflexivity.
  - discriminate.
Defined.

Lemma json_utility_extract_keys_spec_witness :
  ∃ keys,
    json_utility (λ _ _, None) extract_keys sample_json None
    = Return (Strings keys)
    ∧ ∀ p, p ∈ keys ↔ ∃ ks w, reaches sample_parsed ks w ∧ p = join (lit ".") ks.
Proof.
  apply (json_utility_extract_keys_spec (λ _ _, None) sample_json sample_parsed
           None); by vm_compute.
Defined.

Lemma json_utility_extract_round_trip_witness :
  ∃ ks w, lit "user.name" = join (lit ".") ks ∧ reaches sample_parsed ks w
          ∧ json_utility (λ _ _, None) extract_values sample_json
              (Some (lit "user.name")) = Return (Data w).
Proof.
  apply (json_utility_extract_round_trip (λ _ _, None) sample_json sample_parsed
           None [lit "user"; lit "user.name"; lit "user.tags"; lit "n"]).
  - by vm_compute.
  - by vm_compute.
  - by vm_compute.
  - apply list_elem_of_further, list_elem_of_here.
Defined.

Lemma json_utility_extract_values_failures_witness :
  json_utility (λ _ _, None) extract_values sample_json None
  = Throw (Error (lit "key_path required for extract_values operation"))
  ∧ json_utility (λ _ _, None) extract_values sample_json (Some (lit "n.deep"))
    = Throw (TypeError (lit "Cannot read properties of null (reading 'deep')")).
Proof.
  destruct (json_utility_extract_values_failures (λ _ _, None) sample_json
              sample_parsed) as (Hnone & _ & Hnull); [by vm_compute..|].
  split; [exact Hnone|].
  apply (Hnull [lit "n"] (lit "deep") []).
  - right. apply reaches_one. apply list_elem_of_further, list_elem_of_here.
  - by repeat constructor.
Defined.

Lemma json_utility_extract_values_missing_witness :
  json_utility (λ _ _, None) extract_values sample_json
    (Some (lit "user.age.unit")) = Return (Data JNull).
Proof.
  apply (json_utility_extract_values_missing (λ _ _, None) sample_json
           sample_parsed [lit "user"]
           [(lit "name", JStr (lit "x"));
            (lit "tags", JArr [JObj [(lit "a", JNum (Fin false 1 0))]])]
           (lit "age") [lit "unit"]).
  - by vm_compute.
  - by vm_compute.
  - right. apply reaches_one. apply list_elem_of_here.
  - intros Hin. by repeat (apply elem_of_cons in Hin as [?|Hin]; [done|]);
      apply not_elem_of_nil in Hin.
  - done.
  - by repeat constructor.
Defined.

End Tools.

(* ===================================================================== *)
(** * The machine: files, network, environment *)
(* ===================================================================== *)

(** The handlers of the Instagram tools act on the file system and call
    the network. A computation [M A] reads the answers of the outside
    world, threads the state of the machine and ends with a value or a
    thrown exception. Every external call is appended to the trace. *)
Module Sys.
Import JS Json.

(** What the network and the file system can be asked to do. *)
Inductive event : Type :=
  | EvLogin (username password : js_string)
  | EvFetch (url : js_string)
  | EvMkdir (path : js_string)
  | EvCreate (path : js_string)
  | EvReadFile (path : js_string)
  | EvUnlink (path : js_string)
  | EvPublishPhoto (path : js_string)
  | EvPublishVideo (video cover : js_string)
  | EvUserInfo (userId : js_string)
  | EvFeedRequest
  | EvFeedItems.

#[global] Instance event_eq_dec : EqDecision event.
Proof. solve_decision. Defined.

(** How the body of a response streams: to its end, or up to an error. *)
Inductive body_stream : Type :=
  | Complete
  | Broken (e : exn).

(** The answer to [fetch]: a rejection (no connection), or a response. *)
Inductive fetch_answer : Type :=
  | NetworkFailure (e : exn)
  | Response (ok : bool) (statusText : js_string) (body : option body_stream).

Definition is_fetch (ev : event) : bool :=
  match ev with EvFetch _ => true | _ => false end.

(** The outside world of one call: the environment of the process and the
    answers of the servers and of the file system. The [nat] given to
    [w_fetch] counts the downloads made so far. The runtime's URL parser
    and [path.extname] are part of it. *)
Record world : Type := {
  w_env : gmap js_string js_string;
  w_cwd : js_string;
  w_now : Z;
  w_url_pathname : js_string → option js_string;
  w_extname : js_string → js_string;
  w_login : js_string → js_string → option exn;
  w_fetch : nat → js_string → fetch_answer;
  w_unlink : js_string → option exn;
  w_publish_photo : option js_string → outcome (list (js_string * value));
  w_publish_video : option js_string → outcome (list (js_string * value));
  w_user_info : js_string → outcome value;
  w_feed_request : option exn;
  w_feed_items : outcome (list value)
}.

(** What the [items] property of the timeline feed object holds: the
    method of the library, or the closure [getTimelineFeed] assigns,
    [async () => (await feed.items()).slice(0, limit)]. *)
Inductive items_method : Type :=
  | LibraryItems
  | SlicingClosure (limit : number).

(** The state of the machine: the files and directories that exist, the
    [let] variables of the running handler, the feed object of the call
    and the trace of the external calls, oldest first. *)
Record state : Type := {
  files : gset js_string;
  dirs : gset js_string;
  locals : gmap string js_string;
  feed_items : items_method;
  trace : list event
}.

Definition initial (fs ds : gset js_string) : state :=
  {| files := fs; dirs := ds; locals := ∅; feed_items := LibraryItems;
     trace := [] |}.

Definition M (A : Type) : Type := world → state → outcome A * state.

#[global] Instance M_ret : MRet M := fun A a _ st => (Return a, st).
#[global] Instance M_bind : MBind M := fun A B k m w st =>
  match m w st with
  | (Return a, st') => k a w st'
  | (Throw e, st') => (Throw e, st')
  end.

Definition throw {A} (e : exn) : M A := fun _ st => (Throw e, st).

(** The empty statement. *)
Definition skip : M unit := mret ().

(** [try { body } catch (error) { handler error }]. *)
Definition try_catch {A} (body : M A) (handler : exn → M A) : M A :=
  fun w st =>
    match body w st with
    | (Return a, st') => (Return a, st')
    | (Throw e, st') => handler e w st'
    end.

(** [try { body } finally { cleanup }], for a [cleanup] that has no
    [return]: the outcome is the one of [body], unless [cleanup] throws. *)
Definition try_finally {A} (body : M A) (cleanup : M unit) : M A :=
  fun w st =>
    let '(r, st') := body w st in
    match cleanup w st' with
    | (Return _, st'') => (r, st'')
    | (Throw e, st'') => (Throw e, st'')
    end.

Definition ask : M world := fun w st => (Return w, st).
Definition get : M state := fun _ st => (Return st, st).

(** The updates of one component of the state. *)
Definition add_events (evs : list event) (st : state) : state :=
  {| files := files st; dirs := dirs st; locals := locals st;
     feed_items := feed_items st; trace := trace st ++ evs |}.

Definition with_files (fs : gset js_string) (st : state) : state :=
  {| files := fs; dirs := dirs st; locals := locals st;
     feed_items := feed_items st; trace := trace st |}.

Definition with_dirs (ds : gset js_string) (st : state) : state :=
  {| files := files st; dirs := ds; locals := locals st;
     feed_items := feed_items st; trace := trace st |}.

Definition with_locals (ls : gmap string js_string) (st : state) : state :=
  {| files := files st; dirs := dirs st; locals := ls;
     feed_items := feed_items st; trace := trace st |}.

Definition with_feed_items (f : items_method) (st : state) : state :=
  {| files := files st; dirs := dirs st; locals := locals st;
     feed_items := f; trace := trace st |}.

Definition emit (ev : event) : M unit := fun _ st =>
  (Return (), add_events [ev] st).

Definition set_files (fs : gset js_string) : M unit := fun _ st =>
  (Return (), with_files fs st).

Definition set_dirs (ds : gset js_string) : M unit := fun _ st =>
  (Return (), with_dirs ds st).

(** [let x = null], [x = v] and the reading of a variable. *)
Definition declare_null (x : string) : M unit := fun _ st =>
  (Return (), with_locals (delete x (locals st)) st).

Definition assign (x : string) (v : js_string) : M unit := fun _ st =>
  (Return (), with_locals (<[x := v]> (locals st)) st).

Definition read (x : string) : M (option js_string) := fun _ st =>
  (Return (locals st !! x), st).

Definition set_feed_items (f : items_method) : M unit := fun _ st =>
  (Return (), with_feed_items f st).

(** Lift an outcome of the world into a computation. *)
Definition lift {A} (o : outcome A) : M A := fun _ st => (o, st).

Definition fail_if (e : option exn) : M unit :=
  match e with
  | Some err => throw err
  | None => skip
  end.

(** ** The file system ([fs], [path]) *)

(** [path.join(a, b)] for a directory [a] and a name [b] without
    separators. *)
Definition path_join (a b : js_string) : js_string := a ++ lit "/" ++ b.

Definition existsSync (path : js_string) : M bool :=
  st ← get; mret (bool_decide (path ∈ files st ∨ path ∈ dirs st)).

Definition mkdirSync (path : js_string) : M unit :=
  emit (EvMkdir path);; st ← get; set_dirs ({[path]} ∪ dirs st).

(** [fs.createWriteStream(path)]: the file exists from now on. *)
Definition createWriteStream (path : js_string) : M unit :=
  emit (EvCreate path);; st ← get; set_files ({[path]} ∪ files st).

(** [await streamPipeline(body, fileStream)]: a stream that breaks
    rejects; what was written stays in the file. *)
Definition streamPipeline (body : body_stream) : M unit :=
  match body with
  | Complete => skip
  | Broken e => throw e
  end.

Definition unlinkSync (path : js_string) : M unit :=
  emit (EvUnlink path);;
  w ← ask;
  fail_if (w_unlink w path);;
  st ← get; set_files (files st ∖ {[path]}).

(** [await readFile(path)]: the file must exist. *)
Definition readFile (path : js_string) : M unit :=
  emit (EvReadFile path);;
  st ← get;
  if bool_decide (path ∈ files st) then skip
  else throw (Error (lit "ENOENT: no such file or directory")).

(** [await fetch(url)]. *)
Definition fetch (url : js_string) : M (bool * js_string * option body_stream) :=
  st ← get; w ← ask;
  emit (EvFetch url);;
  match w_fetch w (length (filter (λ ev, is_fetch ev = true) (trace st))) url with
  | NetworkFailure e => throw e
  | Response ok statusText body => mret (ok, statusText, body)
  end.

Definition run {A} (m : M A) (w : world) (st : state) : outcome A * state := m w st.

(** The file a download of the tools is staged in. *)
Definition temp_path (w : world) (name : js_string) : js_string :=
  path_join (path_join (w_cwd w) (lit "temp")) name.

(** How many downloads the machine has started so far. *)
Definition fetches (st : state) : nat :=
  length (filter (λ ev, is_fetch ev = true) (trace st)).

(** The download runs to its end: the server answers with a success status
    and the body, if any, streams completely. *)
Definition completes (a : fetch_answer) : bool :=
  match a with
  | Response true _ (Some (Broken _)) => false
  | Response true _ _ => true
  | _ => false
  end.

(** A computation that only adds to the trace. *)
Definition monotone {A} (m : M A) : Prop :=
  ∀ w st, ∃ evs, trace (m w st).2 = trace st ++ evs.

(** The first external call of the computation is the login with [u], [p]. *)
Definition logs_in_first {A} (u p : js_string) (w : world) (m : M A) : Prop :=
  ∀ st, ∃ evs, trace (m w st).2 = trace st ++ EvLogin u p :: evs.

End Sys.

(* ===================================================================== *)
(** * src/instagram.ts *)
(* ===================================================================== *)

Module Adapter.
Import JS Json Sys.

(** The logged-in client, [ig]. *)
Record session : Type := { user : js_string }.

(** [login]: the library's [ig.account.login]; a failure is logged and
    thrown again. *)
Definition login (username password : js_string) : M session :=
  try_catch
    (emit (EvLogin username password);;
     w ← ask;
     fail_if (w_login w username password);;
     mret {| user := username |})
    (λ error, throw error).

Definition uploadPhoto (ig : session) (filePath : js_string)
  (caption : option js_string) : M (list (js_string * value)) :=
  readFile filePath;;
  emit (EvPublishPhoto filePath);;
  w ← ask; lift (w_publish_photo w caption).

Definition uploadVideo (ig : session) (filePath coverImagePath : js_string)
  (caption : option js_string) : M (list (js_string * value)) :=
  readFile filePath;;
  readFile coverImagePath;;
  emit (EvPublishVideo filePath coverImagePath);;
  w ← ask; lift (w_publish_video w caption).

Definition getProfile (ig : session) (userId : js_string) : M value :=
  emit (EvUserInfo userId);;
  w ← ask; lift (w_user_info w userId).

(** [a.slice(0, n)]. *)
Definition slice_to {A} (a : list A) (n : number) : list A :=
  match to_integer n with
  | Some z =>
      if (z <? 0)%Z then take (length a - Z.to_nat (- z)) a
      else take (Z.to_nat z) a
  | None =>
      match n with
      | Inf true => []
      | _ => a
      end
  end.

(** [TimelineFeed.prototype.items] of the library: the items of the feed. *)
Definition library_items : M (list value) :=
  emit EvFeedItems;;
  w ← ask; lift (w_feed_items w).

(** The call [feed.items()]. The property is looked up on the feed object
    when the call is made. The closure that [getTimelineFeed] puts there
    makes this very call again before it does anything else; [depth] is
    the room left on the call stack, and the call that finds none throws
    the engine's [RangeError]. *)
Fixpoint call_feed_items (depth : nat) : M (list value) :=
  st ← get;
  match feed_items st with
  | LibraryItems => library_items
  | SlicingClosure limit =>
      match depth with
      | O => throw (RangeError (lit "Maximum call stack size exceeded"))
      | S depth' =>
          items ← call_feed_items depth';
          mret (slice_to items limit)
      end
  end.

(** [await feed.request()]. *)
Definition feed_request : M unit :=
  emit EvFeedRequest;;
  w ← ask; fail_if (w_feed_request w).

(** [getTimelineFeed(ig, limit)]: a new feed object, whose [items] is
    replaced by the slicing closure, then requested, then asked for its
    items. *)
Definition getTimelineFeed (depth : nat) (ig : session) (limit : number)
  : M (list value) :=
  set_feed_items LibraryItems;;
  set_feed_items (SlicingClosure limit);;
  feed_request;;
  call_feed_items depth.

(** The earlier version of the adapter (the second file of
    [src/unnamed/part_000]): [return await feed.items()] on the feed as the
    library made it. *)
Definition getTimelineFeed_unsliced (ig : session) (limit : number)
  : M (list value) :=
  set_feed_items LibraryItems;;
  call_feed_items 0.

(** What the engine throws when the call stack is exhausted. *)
Definition stack_overflow : exn := RangeError (lit "Maximum call stack size exceeded").

End Adapter.

(* ===================================================================== *)
(** * src/unnamed/part_002: the Instagram tools that download by URL *)
(* ===================================================================== *)

Module UrlTools.
Import JS Json Sys Adapter.

(** [downloadFile(url, filename)]: the path of the downloaded file. *)
Definition downloadFile (url filename : js_string) : M js_string :=
  '(ok, statusText, body) ← fetch url;
  (if negb ok
   then throw (Error (lit "Failed to download file: " ++ statusText))
   else skip);;
  w ← ask;
  let tempDir := path_join (w_cwd w) (lit "temp") in
  present ← existsSync tempDir;
  (if negb present then mkdirSync tempDir else skip);;
  let filePath := path_join tempDir filename in
  createWriteStream filePath;;
  match body with
  | Some stream => streamPipeline stream
  | None => skip
  end;;
  mret filePath.

(** [cleanupFile(filePath)]: an error of the removal is logged, not thrown. *)
Definition cleanupFile (filePath : js_string) : M unit :=
  try_catch
    (present ← existsSync filePath;
     if (present : bool) then unlinkSync filePath else skip)
    (λ error, skip).

(** [getFileExtension(url)]: [new URL(url)] throws on a text that is no
    URL. *)
Definition getFileExtension (url : js_string) : M js_string :=
  w ← ask;
  match w_url_pathname w url with
  | None => throw (TypeError (lit "Invalid URL"))
  | Some urlPath =>
      let ext := w_extname w urlPath in
      mret (match ext with [] => lit ".jpg" | _ => ext end)
  end.

(** [if (x) cleanupFile(x)] for a variable that holds a path or [null]. *)
Definition cleanup_variable (x : string) : M unit :=
  p ← read x;
  match p with
  | Some (c :: path) => cleanupFile (c :: path)
  | _ => skip
  end.

Definition failure_report (error : exn) : js_string :=
  JSON_stringify
    (obj_literal [(lit "success", JBool false);
                  (lit "error", JStr (message error))]).

Definition success_report (text : string) (result : list (js_string * value))
  : js_string :=
  JSON_stringify
    (JObj (obj_assign
             (obj_assign [] [(lit "success", JBool true);
                             (lit "message", JStr (lit text))])
             result)).

(** *** instagram_upload_photo *)

Record photo_args : Type := {
  photo_username : js_string;
  photo_password : js_string;
  imageUrl : js_string;
  photo_caption : option js_string
}.

Definition is_url (w : world) (u : js_string) : bool :=
  bool_decide (is_Some (w_url_pathname w u)).

Definition photo_parameters (w : world) : Zod.schema photo_args :=
  Zod.z_object (fun get =>
    username ← Zod.z_string (get "username");
    password ← Zod.z_string (get "password");
    url ← Zod.z_url (is_url w) Zod.z_string (get "imageUrl");
    caption ← Zod.z_optional Zod.z_string (get "caption");
    Return {| photo_username := username; photo_password := password;
              imageUrl := url; photo_caption := caption |}).

(** The name of the staged file, from the time of the call and the
    extension of the URL. *)
Definition staged_name (prefix : string) (timestamp : Z) (extension : js_string)
  : js_string :=
  lit prefix ++ string_of_Z timestamp ++ extension.

Definition instagram_upload_photo (args : photo_args) : M js_string :=
  declare_null "localFilePath";;
  try_finally
    (try_catch
       (ig ← login (photo_username args) (photo_password args);
        w ← ask;
        let timestamp := w_now w in
        extension ← getFileExtension (imageUrl args);
        let filename := staged_name "instagram_photo_" timestamp extension in
        localFilePath ← downloadFile (imageUrl args) filename;
        assign "localFilePath" localFilePath;;
        result ← uploadPhoto ig localFilePath (photo_caption args);
        mret (success_report "Photo uploaded successfully" result))
       (λ error, mret (failure_report error)))
    (cleanup_variable "localFilePath").

(** *** instagram_upload_video *)

Record video_args : Type := {
  videoUrl : js_string;
  video_username : js_string;
  video_password : js_string;
  coverImageUrl : js_string;
  video_caption : option js_string
}.

Definition video_parameters (w : world) : Zod.schema video_args :=
  Zod.z_object (fun get =>
    video ← Zod.z_url (is_url w) Zod.z_string (get "videoUrl");
    username ← Zod.z_string (get "username");
    password ← Zod.z_string (get "password");
    cover ← Zod.z_url (is_url w) Zod.z_string (get "coverImageUrl");
    caption ← Zod.z_optional Zod.z_string (get "caption");
    Return {| videoUrl := video; video_username := username;
              video_password := password; coverImageUrl := cover;
              video_caption := caption |}).

Definition instagram_upload_video (args : video_args) : M js_string :=
  declare_null "localVideoPath";;
  declare_null "localCoverPath";;
  try_finally
    (try_catch
       (ig ← login (video_username args) (video_password args);
        w ← ask;
        let timestamp := w_now w in
        videoExtension ← getFileExtension (videoUrl args);
        coverExtension ← getFileExtension (coverImageUrl args);
        let videoFilename := staged_name "instagram_video_" timestamp videoExtension in
        let coverFilename := staged_name "instagram_cover_" timestamp coverExtension in
        localVideoPath ← downloadFile (videoUrl args) videoFilename;
        assign "localVideoPath" localVideoPath;;
        localCoverPath ← downloadFile (coverImageUrl args) coverFilename;
        assign "localCoverPath" localCoverPath;;
        result ← uploadVideo ig localVideoPath localCoverPath (video_caption args);
        mret (success_report "Video uploaded successfully" result))
       (λ error, mret (failure_report error)))
    (cleanup_variable "localVideoPath";;
     cleanup_variable "localCoverPath").

(** *** instagram_get_profile *)

Record profile_args : Type := {
  userId : js_string;
  profile_username : js_string;
  profile_password : js_string
}.

Definition profile_parameters : Zod.schema profile_args :=
  Zod.z_object (fun get =>
    id ← Zod.z_string (get "userId");
    username ← Zod.z_string (get "username");
    password ← Zod.z_string (get "password");
    Return {| userId := id; profile_username := username;
              profile_password := password |}).

Definition instagram_get_profile (args : profile_args) : M js_string :=
  ig ← login (profile_username args) (profile_password args);
  result ← getProfile ig (userId args);
  mret (JSON_stringify result).

(** *** instagram_get_timeline *)

Record timeline_args : Type := {
  limit : number;
  timeline_username : js_string;
  timeline_password : js_string
}.

Definition limit_schema : Zod.schema number :=
  Zod.z_default (JNum (of_Z 10))
    (Zod.z_max 50 (Zod.z_min 1 (Zod.z_int Zod.z_number))).

Definition timeline_parameters : Zod.schema timeline_args :=
  Zod.z_object (fun get =>
    lim ← limit_schema (get "limit");
    username ← Zod.z_string (get "username");
    password ← Zod.z_string (get "password");
    Return {| limit := lim; timeline_username := username;
              timeline_password := password |}).

(** The handler after the feed arrived: the answer for [result], an array.
    A limit above the number of items is lowered to it; an empty feed
    gives the empty array. *)
Definition timeline_reply (validatedLimit : number) (result : list value)
  : js_string :=
  let validatedLimit :=
    if Z_lt (Z.of_nat (length result)) validatedLimit
    then number_of_length result else validatedLimit in
  if (length result =? 0)%nat then JSON_stringify (JArr [])
  else JSON_stringify (JArr (slice_to result validatedLimit)).

(** The handler, for the adapter function [getTimelineFeed] it is linked
    with. *)
Definition instagram_get_timeline_with
  (getTimelineFeed : session → number → M (list value))
  (args : timeline_args) : M js_string :=
  ig ← login (timeline_username args) (timeline_password args);
  let validatedLimit :=
    if lt_Z (limit args) 1 || Z_lt 50 (limit args) then of_Z 10
    else limit args in
  (if negb (isInteger validatedLimit)
   then throw (Error (lit "Limit must be an integer"))
   else skip);;
  result ← getTimelineFeed ig validatedLimit;
  mret (timeline_reply validatedLimit result).

(** The handler with the adapter of [src/instagram.ts]. *)
Definition instagram_get_timeline (depth : nat) (args : timeline_args)
  : M js_string :=
  instagram_get_timeline_with (Adapter.getTimelineFeed depth) args.

(** The extension [getFileExtension] finds for a URL that parses, and the
    paths the two upload handlers stage their downloads at. *)
Definition extension_of (w : world) (url : js_string) : js_string :=
  match w_url_pathname w url with
  | Some urlPath =>
      match w_extname w urlPath with [] => lit ".jpg" | _ => w_extname w urlPath end
  | None => []
  end.

Definition photo_path (w : world) (args : photo_args) : js_string :=
  temp_path w (staged_name "instagram_photo_" (w_now w) (extension_of w (imageUrl args))).

Definition video_path (w : world) (args : video_args) : js_string :=
  temp_path w (staged_name "instagram_video_" (w_now w) (extension_of w (videoUrl args))).

Definition cover_path (w : world) (args : video_args) : js_string :=
  temp_path w (staged_name "instagram_cover_" (w_now w) (extension_of w (coverImageUrl args))).

End UrlTools.

(* ===================================================================== *)
(** * src/tools/instagramTools.ts: the tools that read the environment *)
(* ===================================================================== *)

Module EnvTools.
Import JS Json Sys Adapter.

(** [getCredentials()]: both variables must be set and not empty. *)
Definition getCredentials : M (js_string * js_string) :=
  w ← ask;
  match w_env w !! lit "IG_USERNAME", w_env w !! lit "IG_PASSWORD" with
  | Some (c :: username), Some (d :: password) =>
      mret (c :: username, d :: password)
  | _, _ => throw (Error (lit "Instagram credentials not provided"))
  end.

Record photo_args : Type := {
  filePath : js_string;
  photo_caption : option js_string
}.

Definition photo_parameters : Zod.schema photo_args :=
  Zod.z_object (fun get =>
    path ← Zod.z_string (get "filePath");
    caption ← Zod.z_optional Zod.z_string (get "caption");
    Return {| filePath := path; photo_caption := caption |}).

Definition instagram_upload_photo (args : photo_args) : M js_string :=
  '(username, password) ← getCredentials;
  ig ← login username password;
  result ← uploadPhoto ig (filePath args) (photo_caption args);
  mret (JSON_stringify (JObj result)).

Record video_args : Type := {
  videoPath : js_string;
  coverImagePath : js_string;
  video_caption : option js_string
}.

Definition video_parameters : Zod.schema video_args :=
  Zod.z_object (fun get =>
    video ← Zod.z_string (get "videoPath");
    cover ← Zod.z_string (get "coverImagePath");
    caption ← Zod.z_optional Zod.z_string (get "caption");
    Return {| videoPath := video; coverImagePath := cover;
              video_caption := caption |}).

Definition instagram_upload_video (args : video_args) : M js_string :=
  '(username, password) ← getCredentials;
  ig ← login username password;
  result ← uploadVideo ig (videoPath args) (coverImagePath args) (video_caption args);
  mret (JSON_stringify (JObj result)).

Record profile_args : Type := { userId : js_string }.

Definition profile_parameters : Zod.schema profile_args :=
  Zod.z_object (fun get =>
    id ← Zod.z_string (get "userId");
    Return {| userId := id |}).

Definition instagram_get_profile (args : profile_args) : M js_string :=
  '(username, password) ← getCredentials;
  ig ← login username password;
  result ← getProfile ig (userId args);
  mret (JSON_stringify result).

Record timeline_args : Type := { limit : number }.

Definition timeline_parameters : Zod.schema timeline_args :=
  Zod.z_object (fun get =>
    lim ← UrlTools.limit_schema (get "limit");
    Return {| limit := lim |}).

Definition instagram_get_timeline (depth : nat) (args : timeline_args)
  : M js_string :=
  '(username, password) ← getCredentials;
  ig ← login username password;
  result ← getTimelineFeed depth ig (limit args);
  mret (JSON_stringify (JArr (slice_to result (limit args)))).

End EnvTools.

(** * The registered Instagram tools

    The two lists [instagramTools] of the repository: the one of the
    URL-based file and the one of [src/tools/instagramTools.ts]. *)

Module Registry.
Import JS Json Sys.

(** A registered tool: its name, and what a call with an argument bag does
    (validation by the schema, then the handler). *)
Record tool : Type := {
  name : js_string;
  call : world → value → Dispatch.call_result (M js_string)
}.

Definition url_instagramTools (depth : nat) : list tool :=
  [ {| name := lit "instagram_upload_photo";
       call := λ w, Dispatch.call_tool (UrlTools.photo_parameters w)
                      UrlTools.instagram_upload_photo |};
    {| name := lit "instagram_upload_video";
       call := λ w, Dispatch.call_tool (UrlTools.video_parameters w)
                      UrlTools.instagram_upload_video |};
    {| name := lit "instagram_get_profile";
       call := λ w, Dispatch.call_tool UrlTools.profile_parameters
                      UrlTools.instagram_get_profile |};
    {| name := lit "instagram_get_timeline";
       call := λ w, Dispatch.call_tool UrlTools.timeline_parameters
                      (UrlTools.instagram_get_timeline depth) |} ].

Definition env_instagramTools (depth : nat) : list tool :=
  [ {| name := lit "instagram_upload_photo";
       call := λ w, Dispatch.call_tool EnvTools.photo_parameters
                      EnvTools.instagram_upload_photo |};
    {| name := lit "instagram_upload_video";
       call := λ w, Dispatch.call_tool EnvTools.video_parameters
                      EnvTools.instagram_upload_video |};
    {| name := lit "instagram_get_profile";
       call := λ w, Dispatch.call_tool EnvTools.profile_parameters
                      EnvTools.instagram_get_profile |};
    {| name := lit "instagram_get_timeline";
       call := λ w, Dispatch.call_tool EnvTools.timeline_parameters
                      (EnvTools.instagram_get_timeline depth) |} ].

(** A call of a tool: a rejection by the schema is the failure of the call,
    and leaves the machine as it was. *)
Definition run_tool (t : tool) (args : value) : M js_string := fun w st =>
  match call t w args with
  | Dispatch.Rejected e => (Throw e, st)
  | Dispatch.Executed m => m w st
  end.

(** The two sources of credentials: the properties [username] and
    [password] of the argument bag, and the variables [IG_USERNAME] and
    [IG_PASSWORD] of the environment, set and not empty. *)
Definition argument (args : value) (name : string) : option value :=
  match args with
  | JObj fields => obj_get (lit name) fields
  | _ => None
  end.

Definition args_credentials (args : value) : option (value * value) :=
  match argument args "username", argument args "password" with
  | Some u, Some p => Some (u, p)
  | _, _ => None
  end.

Definition env_credentials (w : world) : option (js_string * js_string) :=
  match w_env w !! lit "IG_USERNAME", w_env w !! lit "IG_PASSWORD" with
  | Some (c :: u), Some (d :: p) => Some (c :: u, d :: p)
  | _, _ => None
  end.

Definition credentials_missing : exn :=
  Error (lit "Instagram credentials not provided").

(** The argument bag [args] with per-call credentials put in:
    [{...args, username: u, password: p}]. *)
Definition with_credentials (u p : js_string) (args : value) : value :=
  match args with
  | JObj fields =>
      JObj (obj_set (lit "password") (JStr p)
              (obj_set (lit "username") (JStr u) fields))
  | _ => args
  end.

End Registry.

(** * Sample machines and calls *)

Module Samples.
Import JS Json Sys.

(** A machine with no credentials in its environment, on which every
    external operation succeeds, except that the answers to the downloads
    and to the publication of a video are given. *)
Definition sample_world (answers : nat → fetch_answer)
  (published : outcome (list (js_string * value))) : world := {|
  w_env := ∅;
  w_cwd := lit "/app";
  w_now := 1700000000000;
  w_url_pathname := λ _, Some (lit "/media/item.png");
  w_extname := λ _, lit ".png";
  w_login := λ _ _, None;
  w_fetch := λ i _, answers i;
  w_unlink := λ _, None;
  w_publish_photo := λ _, Return [(lit "status", JStr (lit "ok"))];
  w_publish_video := λ _, published;
  w_user_info := λ _, Return JNull;
  w_feed_request := None;
  w_feed_items := Return [JNum (of_Z 1); JNum (of_Z 2); JNum (of_Z 3)]
|}.

Definition ok_status : list (js_string * value) :=
  [(lit "status", JStr (lit "ok"))].

(** A download whose body breaks after the response arrived. *)
Definition aborted : exn := Error (lit "aborted").

Definition breaks_midway : nat → fetch_answer :=
  λ _, Response true (lit "OK") (Some (Broken aborted)).

Definition downloads : nat → fetch_answer :=
  λ _, Response true (lit "OK") (Some Complete).

(** The first download runs to its end, the next ones break mid-stream. *)
Definition cover_breaks : nat → fetch_answer :=
  λ i, match i with
       | O => Response true (lit "OK") (Some Complete)
       | _ => Response true (lit "OK") (Some (Broken aborted))
       end.

Definition sample_photo : UrlTools.photo_args := {|
  UrlTools.photo_username := lit "user";
  UrlTools.photo_password := lit "secret";
  UrlTools.imageUrl := lit "https://host.example/media/item.png";
  UrlTools.photo_caption := None
|}.

Definition sample_video : UrlTools.video_args := {|
  UrlTools.videoUrl := lit "https://host.example/media/item.mp4";
  UrlTools.video_username := lit "user";
  UrlTools.video_password := lit "secret";
  UrlTools.coverImageUrl := lit "https://host.example/media/item.png";
  UrlTools.video_caption := None
|}.

Definition sample_timeline (n : Z) : UrlTools.timeline_args := {|
  UrlTools.limit := of_Z n;
  UrlTools.timeline_username := lit "user";
  UrlTools.timeline_password := lit "secret"
|}.

(** The profile tool of [src/tools/instagramTools.ts], and a call of it
    that names a user and carries no credentials. *)
Definition sample_tool : Registry.tool := {|
  Registry.name := lit "instagram_get_profile";
  Registry.call := λ w, Dispatch.call_tool EnvTools.profile_parameters
                          EnvTools.instagram_get_profile
|}.

Definition sample_call : value :=
  JObj [(lit "userId", JStr (lit "42"))].

(** The profile tool of the URL-based file, and a call that carries
    credentials of its own. *)
Definition sample_url_tool : Registry.tool := {|
  Registry.name := lit "instagram_get_profile";
  Registry.call := λ w, Dispatch.call_tool UrlTools.profile_parameters
                          UrlTools.instagram_get_profile
|}.

Definition sample_call_with_credentials : value :=
  JObj [(lit "userId", JStr (lit "42")); (lit "username", JStr (lit "user"));
        (lit "password", JStr (lit "secret"))].

(** An environment that holds credentials, and a machine like [w] with
    the environment [env]. *)
Definition sample_env : gmap js_string js_string :=
  <[lit "IG_USERNAME" := lit "user"]> {[lit "IG_PASSWORD" := lit "secret"]}.

Definition with_env (env : gmap js_string js_string) (w : world) : world := {|
  w_env := env; w_cwd := w_cwd w; w_now := w_now w;
  w_url_pathname := w_url_pathname w; w_extname := w_extname w;
  w_login := w_login w;
  w_fetch := w_fetch w; w_unlink := w_unlink w;
  w_publish_photo := w_publish_photo w; w_publish_video := w_publish_video w;
  w_user_info := w_user_info w; w_feed_request := w_feed_request w;
  w_feed_items := w_feed_items w
|}.

(** A machine like [w] on which every login is refused with [e]. *)
Definition refusing (e : exn) (w : world) : world := {|
  w_env := w_env w; w_cwd := w_cwd w; w_now := w_now w;
  w_url_pathname := w_url_pathname w; w_extname := w_extname w;
  w_login := λ _ _, Some e;
  w_fetch := w_fetch w; w_unlink := w_unlink w;
  w_publish_photo := w_publish_photo w; w_publish_video := w_publish_video w;
  w_user_info := w_user_info w; w_feed_request := w_feed_request w;
  w_feed_items := w_feed_items w
|}.

End Samples.

(** * Properties of the Instagram tools *)

Module InstagramFacts.
Import JS Json Zod Sys Adapter UrlTools Registry Samples.

(** ** Running a computation *)

Ltac run_sys :=
  unfold fail_if, lift, emit, ask, get, set_feed_items, set_files, set_dirs,
    declare_null, assign, read, try_catch, try_finally, throw, skip,
    mbind, M_bind, mret, M_ret;
  cbn beta iota zeta delta [fst snd files dirs locals feed_items trace].

Ltac sys_simpl :=
  cbn [fst snd files dirs locals feed_items trace add_events with_files
       with_dirs with_locals with_feed_items].

Ltac pick_event := solve [reflexivity | left; pick_event | right; pick_event].

Ltac solve_events :=
  repeat (apply Forall_cons; split; [pick_event|]); by apply Forall_nil.

Lemma bind_run {A B} (m : M A) (k : A → M B) w st :
  (m ≫= k) w st =
  match m w st with
  | (Return a, st') => k a w st'
  | (Throw e, st') => (Throw e, st')
  end.
Proof. reflexivity. Qed.

Lemma skip_run w st : skip w st = (Return (), st).
Proof. reflexivity. Qed.

Lemma ret_run {A} (a : A) w st : (mret a : M A) w st = (Return a, st).
Proof. reflexivity. Qed.

Lemma throw_run {A} e w st : throw (A := A) e w st = (Throw e, st).
Proof. reflexivity. Qed.

Lemma emit_run ev w st : emit ev w st = (Return (), add_events [ev] st).
Proof. reflexivity. Qed.

Lemma ask_run w st : ask w st = (Return w, st).
Proof. reflexivity. Qed.

Lemma get_run w st : get w st = (Return st, st).
Proof. reflexivity. Qed.

Lemma lift_run {A} (o : outcome A) w st : lift o w st = (o, st).
Proof. reflexivity. Qed.

Lemma set_feed_items_run f w st :
  set_feed_items f w st = (Return (), with_feed_items f st).
Proof. reflexivity. Qed.

Lemma try_finally_state {A} (body : M A) (cleanup : M unit) w st :
  (try_finally body cleanup w st).2 = (cleanup w (body w st).2).2.
Proof.
  unfold try_finally. destruct (body w st) as [r st']. cbn [snd].
  by destruct (cleanup w st') as [[[]|e] st''].
Qed.

Lemma try_catch_report_state {A} (body : M A) (report : exn → A) w st :
  (try_catch body (λ e, mret (report e)) w st).2 = (body w st).2.
Proof. unfold try_catch, mret, M_ret. by destruct (body w st) as [[] ?]. Qed.

Lemma try_finally_run {A} (body : M A) (cleanup : M unit) w st r st' :
  try_finally body cleanup w st = (r, st') →
  ∃ rb stb rc, body w st = (rb, stb) ∧ cleanup w stb = (rc, st').
Proof.
  unfold try_finally. destruct (body w st) as [rb stb].
  destruct (cleanup w stb) as [[[]|e] stc] eqn:Hc; intros [= <- <-];
    by eexists _, _, _.
Qed.

Lemma try_catch_report_run {A} (body : M A) (report : exn → A) w st r st' :
  try_catch body (λ e, mret (report e)) w st = (r, st') →
  ∃ rb, body w st = (rb, st').
Proof.
  unfold try_catch, mret, M_ret. destruct (body w st) as [[a|e] stb];
    intros [= <- <-]; by eexists.
Qed.

(** ** The adapter *)

Lemma login_spec u p w st :
  login u p w st =
  (match w_login w u p with Some e => Throw e | None => Return {| user := u |} end,
   add_events [EvLogin u p] st).
Proof. unfold login. run_sys. by destruct (w_login w u p). Qed.

Lemma uploadPhoto_spec ig p cap w st :
  ∃ r evs, uploadPhoto ig p cap w st = (r, add_events evs st)
           ∧ Forall (λ ev, ev = EvReadFile p ∨ ev = EvPublishPhoto p) evs.
Proof.
  unfold uploadPhoto, readFile. run_sys. sys_simpl.
  destruct (bool_decide _).
  - exists (w_publish_photo w cap), [EvReadFile p; EvPublishPhoto p].
    split; [by unfold add_events; sys_simpl; rewrite <- ?app_assoc|].
    solve_events.
  - eexists _, [EvReadFile p]. split; [done|]. solve_events.
Qed.

Lemma uploadVideo_spec ig pv pc cap w st :
  ∃ r evs, uploadVideo ig pv pc cap w st = (r, add_events evs st)
           ∧ Forall (λ ev, ev = EvReadFile pv ∨ ev = EvReadFile pc
                           ∨ ev = EvPublishVideo pv pc) evs.
Proof.
  unfold uploadVideo, readFile. run_sys. sys_simpl.
  destruct (bool_decide (pv ∈ _)); [destruct (bool_decide (pc ∈ _))|].
  - exists (w_publish_video w cap), [EvReadFile pv; EvReadFile pc; EvPublishVideo pv pc].
    split; [by unfold add_events; sys_simpl; rewrite <- ?app_assoc|].
    solve_events.
  - eexists _, [EvReadFile pv; EvReadFile pc].
    split; [by unfold add_events; sys_simpl; rewrite <- ?app_assoc|].
    solve_events.
  - eexists _, [EvReadFile pv]. split; [done|]. solve_events.
Qed.

Lemma call_feed_items_overflows depth w st limit :
  feed_items st = SlicingClosure limit →
  call_feed_items depth w st = (Throw stack_overflow, st).
Proof.
  intros Hf. induction depth as [|depth IH]; simpl.
  - unfold mbind, M_bind, get. by rewrite Hf.
  - unfold mbind, M_bind, get in *. rewrite Hf. fold call_feed_items.
    by rewrite IH.
Qed.

Lemma call_feed_items_library depth w st :
  feed_items st = LibraryItems → call_feed_items depth w st = library_items w st.
Proof.
  intros Hf. destruct depth; cbn [call_feed_items];
    by rewrite bind_run, get_run, Hf.
Qed.

Lemma getTimelineFeed_throws depth ig limit w st :
  ∃ e st', getTimelineFeed depth ig limit w st = (Throw e, st')
           ∧ (w_feed_request w = None → e = stack_overflow)
           ∧ EvFeedItems ∉ drop (length (trace st)) (trace st').
Proof.
  unfold getTimelineFeed, feed_request.
  run_sys.
  pose proof (call_feed_items_overflows depth w) as Hover.
  destruct (w_feed_request w) as [e|] eqn:Hreq.
  - eexists _, _. split; [reflexivity|]. split; [done|].
    cbn [trace add_events with_feed_items]. rewrite drop_app_length. set_solver.
  - rewrite Hover with (limit := limit) by done.
    eexists _, _. split; [reflexivity|]. split; [done|].
    cbn [trace add_events with_feed_items]. rewrite drop_app_length. set_solver.
Qed.

(** ** Downloads and cleanup *)

Lemma fetches_add_events evs st :
  fetches (add_events evs st) = fetches st + length (filter (λ ev, is_fetch ev = true) evs).
Proof. unfold fetches. cbn [trace add_events]. by rewrite filter_app, length_app. Qed.

(** What a download leaves: the answer of the server decides the outcome
    and whether the file exists afterwards. *)
Lemma downloadFile_spec url name w st :
  ∃ r st' evs,
    downloadFile url name w st = (r, st')
    ∧ locals st' = locals st
    ∧ trace st' = trace st ++ EvFetch url :: evs
    ∧ Forall (λ ev, ev = EvMkdir (path_join (w_cwd w) (lit "temp"))
                    ∨ ev = EvCreate (temp_path w name)) evs
    ∧ match w_fetch w (fetches st) url with
      | NetworkFailure e => r = Throw e ∧ files st' = files st ∧ evs = []
      | Response false statusText _ =>
          r = Throw (Error (lit "Failed to download file: " ++ statusText))
          ∧ files st' = files st ∧ evs = []
      | Response true _ (Some (Broken e)) =>
          r = Throw e ∧ files st' = {[temp_path w name]} ∪ files st
          ∧ EvCreate (temp_path w name) ∈ evs
      | Response true _ _ =>
          r = Return (temp_path w name)
          ∧ files st' = {[temp_path w name]} ∪ files st
          ∧ EvCreate (temp_path w name) ∈ evs
      end.
Proof.
  unfold downloadFile, fetch, existsSync, mkdirSync, createWriteStream,
    streamPipeline, fetches, temp_path.
  run_sys.
  destruct (w_fetch w _ url) as [e|[] statusText body]; cbn [negb].
  - eexists _, _, []. by repeat split.
  - destruct (bool_decide _); cbn [negb];
      destruct body as [[|e]|];
      eexists _, _, _; (split; [reflexivity|]); sys_simpl;
      (split; [done|]); (split; [by rewrite <- ?app_assoc|]);
      (split; [solve_events|]); split_and!; try done; set_solver.
  - eexists _, _, []. by repeat split.
Qed.

Lemma cleanupFile_spec p w st :
  cleanupFile p w st =
  (Return (),
   if bool_decide (p ∈ files st ∨ p ∈ dirs st) then
     match w_unlink w p with
     | None => with_files (files st ∖ {[p]}) (add_events [EvUnlink p] st)
     | Some _ => add_events [EvUnlink p] st
     end
   else st).
Proof.
  unfold cleanupFile, existsSync, unlinkSync. run_sys.
  destruct (bool_decide _); [|done]. by destruct (w_unlink w p).
Qed.

Lemma getFileExtension_spec url w st :
  getFileExtension url w st =
  (match w_url_pathname w url with
   | Some _ => Return (extension_of w url)
   | None => Throw (TypeError (lit "Invalid URL"))
   end, st).
Proof.
  unfold getFileExtension, extension_of. run_sys.
  by destruct (w_url_pathname w url).
Qed.

Lemma temp_path_cons w name : ∃ c p, temp_path w name = c :: p.
Proof.
  unfold temp_path, path_join. destruct (w_cwd w); by eexists _, _.
Qed.

Lemma cleanup_variable_null x w st :
  locals st !! x = None → cleanup_variable x w st = (Return (), st).
Proof. intros H. unfold cleanup_variable, read. rewrite bind_run. by rewrite H. Qed.

Lemma no_fetch_among d p evs :
  Forall (λ ev, ev = EvMkdir d ∨ ev = EvCreate p) evs →
  filter (λ ev, is_fetch ev = true) evs = [].
Proof.
  induction 1 as [|ev evs Hev _ IH]; [done|].
  rewrite filter_cons_False; [done|]. by destruct Hev as [-> | ->].
Qed.

Lemma completes_spec a :
  completes a = true →
  ∃ t body, a = Response true t body ∧ ∀ e, body ≠ Some (Broken e).
Proof.
  destruct a as [|[] t [[]|]]; try done; intros _; by eexists _, _.
Qed.

(** ** instagram_upload_video *)

(** The [finally] block of the video handler: each variable that holds a
    path of an existing file has this file unlinked, whatever the other
    holds and whether or not the other removal fails. *)
Lemma video_cleanup_spec w st x p r st' :
  x = "localVideoPath" ∨ x = "localCoverPath" →
  locals st !! x = Some p → p ≠ [] → p ∈ files st →
  (cleanup_variable "localVideoPath";; cleanup_variable "localCoverPath") w st
    = (r, st') →
  EvUnlink p ∈ trace st' ∧ (w_unlink w p = None → p ∉ files st').
Proof.
  intros Hx Hp Hne Hin. unfold cleanup_variable.
  rewrite bind_run. unfold read at 1. rewrite bind_run. cbn [fst snd].
  set (c1 := match locals st !! "localVideoPath" with
             | Some (c :: path) => cleanupFile (c :: path)
             | _ => skip end).
  assert (H1 : ∃ st1, c1 w st = (Return (), st1)
     ∧ locals st1 = locals st
     ∧ (x = "localVideoPath" →
        EvUnlink p ∈ trace st1 ∧ (w_unlink w p = None → p ∉ files st1))
     ∧ (x = "localCoverPath" →
        p ∈ files st1
        ∨ (EvUnlink p ∈ trace st1 ∧ (w_unlink w p = None → p ∉ files st1)))).
  { subst c1. destruct (locals st !! "localVideoPath") as [[|c q]|] eqn:Hv.
    - exists st. split_and!; [done|done|intros ->; congruence|by left].
    - rewrite cleanupFile_spec. eexists. split; [done|].
      destruct (bool_decide (c :: q ∈ files st ∨ c :: q ∈ dirs st)) eqn:Hex.
      + destruct (w_unlink w (c :: q)) eqn:Hu; sys_simpl.
        * split_and!; [done|..].
          -- intros ->. assert (p = c :: q) as -> by congruence.
             split; [set_solver|congruence].
          -- by left.
        * split_and!; [done|..].
          -- intros ->. assert (p = c :: q) as -> by congruence. set_solver.
          -- intros _. destruct (decide (p = c :: q)) as [->|Hneq].
             ++ right. set_solver.
             ++ left. set_solver.
      + apply bool_decide_eq_false in Hex.
        split_and!; [done|..].
        * intros ->. assert (p = c :: q) as -> by congruence. tauto.
        * by left.
    - exists st. split_and!; [done|done|intros ->; congruence|by left]. }
  destruct H1 as (st1 & -> & Hloc1 & Hvid & Hcov).
  unfold read. rewrite bind_run. cbn [fst snd]. rewrite Hloc1.
  destruct (locals st !! "localCoverPath") as [[|c q]|] eqn:Hc.
  - intros [= <- <-]. destruct Hx as [->| ->]; [by apply Hvid|congruence].
  - rewrite cleanupFile_spec. intros [= <- <-].
    destruct (bool_decide (c :: q ∈ files st1 ∨ c :: q ∈ dirs st1)) eqn:Hex.
    + destruct (w_unlink w (c :: q)) eqn:Hu; sys_simpl.
      * destruct Hx as [->| ->].
        -- destruct (Hvid eq_refl) as [Ht Hf]. split; [set_solver|done].
        -- assert (p = c :: q) as -> by congruence. split; [set_solver|congruence].
      * destruct Hx as [->| ->].
        -- destruct (Hvid eq_refl) as [Ht Hf]. split; [set_solver|set_solver].
        -- assert (p = c :: q) as -> by congruence. split; [set_solver|set_solver].
    + apply bool_decide_eq_false in Hex. destruct Hx as [->| ->]; [by apply Hvid|].
      assert (p = c :: q) as -> by congruence.
      destruct (Hcov eq_refl) as [Hin'|?]; [tauto|done].
  - intros [= <- <-]. destruct Hx as [->| ->]; [by apply Hvid|congruence].
Qed.

(** The state in which the [try] block of the video handler ends, when the
    video is downloaded to its end. *)
Lemma video_body_state w args fs ds :
  w_login w (video_username args) (video_password args) = None →
  is_Some (w_url_pathname w (videoUrl args)) →
  is_Some (w_url_pathname w (coverImageUrl args)) →
  completes (w_fetch w 0 (videoUrl args)) = true →
  let body :=
    (ig ← login (video_username args) (video_password args);
     w ← ask;
     let timestamp := w_now w in
     videoExtension ← getFileExtension (videoUrl args);
     coverExtension ← getFileExtension (coverImageUrl args);
     let videoFilename := staged_name "instagram_video_" timestamp videoExtension in
     let coverFilename := staged_name "instagram_cover_" timestamp coverExtension in
     localVideoPath ← downloadFile (videoUrl args) videoFilename;
     assign "localVideoPath" localVideoPath;;
     localCoverPath ← downloadFile (coverImageUrl args) coverFilename;
     assign "localCoverPath" localCoverPath;;
     result ← uploadVideo ig localVideoPath localCoverPath (video_caption args);
     mret (success_report "Video uploaded successfully" result)) in
  ∀ locals0 r st,
  body w (with_locals locals0 (initial fs ds)) = (r, st) →
  locals st !! "localVideoPath" = Some (video_path w args)
  ∧ video_path w args ∈ files st
  ∧ (completes (w_fetch w 1 (coverImageUrl args)) = true →
     locals st !! "localCoverPath" = Some (cover_path w args)
     ∧ cover_path w args ∈ files st).
Proof.
  intros Hlogin [pathv Hv] [pathc Hc] Hvideo body locals0 r st. subst body.
  cbv zeta.
  rewrite bind_run, login_spec, Hlogin.
  rewrite bind_run. unfold ask at 1. cbv beta iota.
  rewrite bind_run, getFileExtension_spec, Hv.
  rewrite bind_run, getFileExtension_spec, Hc.
  rewrite bind_run.
  fold (video_path w args). 
  destruct (downloadFile_spec (videoUrl args)
              (staged_name "instagram_video_" (w_now w) (extension_of w (videoUrl args)))
              w (add_events [EvLogin (video_username args) (video_password args)]
                   (with_locals locals0 (initial fs ds))))
    as (r3 & st3 & evs3 & -> & Hl3 & Ht3 & He3 & Hc3).
  change (fetches _) with 0%nat in Hc3.
  apply completes_spec in Hvideo as (t & bodyv & Hans & Hnb). rewrite Hans in Hc3.
  assert (r3 = Return (video_path w args)
          ∧ files st3 = {[video_path w args]} ∪ fs) as [-> Hf3].
  { destruct bodyv as [[|e]|];
      [by destruct Hc3 as (? & ? & _)|exfalso; by apply (Hnb e)
      |by destruct Hc3 as (? & ? & _)]. }
  rewrite bind_run. unfold assign at 1. cbv beta iota.
  rewrite bind_run.
  set (st4 := with_locals _ st3).
  destruct (downloadFile_spec (coverImageUrl args)
              (staged_name "instagram_cover_" (w_now w) (extension_of w (coverImageUrl args)))
              w st4)
    as (r5 & st5 & evs5 & -> & Hl5 & Ht5 & He5 & Hc5).
  assert (Hn : fetches st4 = 1%nat).
  { unfold fetches. subst st4. sys_simpl. rewrite Ht3.
    cbn [trace initial add_events with_locals app].
    rewrite filter_cons_False; [|by cbn]. rewrite filter_cons_True; [|done].
    by rewrite (no_fetch_among _ _ evs3 He3). }
  rewrite Hn in Hc5.
  assert (Hlv : locals st5 !! "localVideoPath" = Some (video_path w args)).
  { rewrite Hl5. subst st4. sys_simpl. by rewrite lookup_insert_eq. }
  assert (Hfv : video_path w args ∈ files st5).
  { destruct (w_fetch w 1 (coverImageUrl args)) as [e|[] t' [[|e]|]];
      destruct Hc5 as (_ & -> & _); subst st4; sys_simpl; set_solver. }
  destruct r5 as [p5|e5].
  - rewrite bind_run. unfold assign at 1. cbv beta iota.
    rewrite bind_run.
    destruct (uploadVideo_spec {| user := video_username args |}
                (video_path w args) p5 (video_caption args) w
                (with_locals (<["localCoverPath" := p5]> (locals st5)) st5))
      as (r6 & evs6 & -> & _).
    assert (Hp5 : p5 = cover_path w args
                  ∧ files st5 = {[cover_path w args]} ∪ files st4).
    { destruct (w_fetch w 1 (coverImageUrl args)) as [e|[] t' [[|e]|]];
        destruct Hc5 as (Hr & Hf & _); try done; by injection Hr as ->. }
    destruct Hp5 as [-> Hf5].
    assert (∀ o : outcome js_string,
      (o, add_events evs6
            (with_locals (<["localCoverPath" := cover_path w args]> (locals st5)) st5))
      = (r, st) →
      locals st !! "localVideoPath" = Some (video_path w args)
      ∧ video_path w args ∈ files st
      ∧ (completes (w_fetch w 1 (coverImageUrl args)) = true →
         locals st !! "localCoverPath" = Some (cover_path w args)
         ∧ cover_path w args ∈ files st)) as Hfinal.
    { intros o [= <- <-]. sys_simpl. split_and!.
      - by rewrite lookup_insert_ne.
      - done.
      - intros _. rewrite lookup_insert_eq, Hf5. set_solver. }
    destruct r6 as [res|e6]; apply Hfinal.
  - intros [= <- <-]. split_and!; [done|done|].
    intros Hcover. apply completes_spec in Hcover as (t' & bodyc & Hans' & Hnb').
    rewrite Hans' in Hc5. destruct bodyc as [[|e]|]; try by destruct Hc5 as (? & _).
    exfalso; by apply (Hnb' e).
Qed.

(** The files that [instagram_upload_video] has downloaded to their ends
    are cleaned up independently.  Once the video is downloaded its removal
    is attempted
    before the handler returns (and the file is gone unless the removal
    itself fails), whether the download of the cover, the upload or the
    removal of the cover fails or not; and once the cover is downloaded
    too, its removal is attempted as well, whether the upload or the
    removal of the video fails or not. *)
Lemma instagram_upload_video_cleans_each w args fs ds r st' :
  instagram_upload_video args w (initial fs ds) = (r, st') →
  w_login w (video_username args) (video_password args) = None →
  is_Some (w_url_pathname w (videoUrl args)) →
  is_Some (w_url_pathname w (coverImageUrl args)) →
  completes (w_fetch w 0 (videoUrl args)) = true →
  (EvUnlink (video_path w args) ∈ trace st'
   ∧ (w_unlink w (video_path w args) = None → video_path w args ∉ files st'))
  ∧ (completes (w_fetch w 1 (coverImageUrl args)) = true →
     EvUnlink (cover_path w args) ∈ trace st'
     ∧ (w_unlink w (cover_path w args) = None → cover_path w args ∉ files st')).
Proof.
  intros Hrun Hlogin Hv Hc Hvideo. unfold instagram_upload_video in Hrun.
  rewrite bind_run in Hrun. unfold declare_null at 1 in Hrun. cbv beta iota in Hrun.
  rewrite bind_run in Hrun. unfold declare_null at 1 in Hrun. cbv beta iota in Hrun.
  apply try_finally_run in Hrun as (rb & stb & rc & Hbody & Hclean).
  apply try_catch_report_run in Hbody as (rb' & Hbody).
  match type of Hbody with
  | _ _ (with_locals ?l (with_locals _ _)) = _ =>
      change (with_locals l (with_locals _ (initial fs ds)))
        with (with_locals l (initial fs ds)) in Hbody
  end.
  destruct (video_body_state w args fs ds Hlogin Hv Hc Hvideo _ _ _ Hbody)
    as (Hlv & Hfv & Hcover).
  destruct (temp_path_cons w
    (staged_name "instagram_video_" (w_now w) (extension_of w (videoUrl args))))
    as (cv & qv & Hpv).
  destruct (temp_path_cons w
    (staged_name "instagram_cover_" (w_now w) (extension_of w (coverImageUrl args))))
    as (cc & qc & Hpc).
  split.
  - apply (video_cleanup_spec w stb "localVideoPath" _ rc st'); auto.
    unfold video_path. by rewrite Hpv.
  - intros Hcov. destruct (Hcover Hcov) as [Hlc Hfc].
    apply (video_cleanup_spec w stb "localCoverPath" _ rc st'); auto.
    unfold cover_path. by rewrite Hpc.
Qed.

(** The two staged files of a video never share a path. *)
Lemma video_cover_paths_differ w args : video_path w args ≠ cover_path w args.
Proof.
  unfold video_path, cover_path, temp_path, path_join, staged_name.
  intros H. apply app_inv_head in H. apply app_inv_head in H.
  by vm_compute in H.
Qed.

(** C2. The staged files of [instagram_upload_video] are not all cleaned
    up.  A download that starts with a success status and breaks
    mid-stream, after [createWriteStream] has created its file, throws
    before [localVideoPath] or [localCoverPath] is assigned, so the
    [finally] block, whose comment reads "Always cleanup the temporary
    files", finds the variable [null].  When the download of the video
    breaks, the handler returns its failure report and the partial video
    file stays, with no removal attempted.  When the video is downloaded
    and the download of the cover breaks, the removal of the video is
    attempted (this cleanup is independent of the failure of the other
    download), but the partial cover file stays, with no removal
    attempted. *)
Theorem instagram_upload_video_leaves_partial_file w args fs ds t e :
  w_login w (video_username args) (video_password args) = None →
  is_Some (w_url_pathname w (videoUrl args)) →
  is_Some (w_url_pathname w (coverImageUrl args)) →
  (w_fetch w 0 (videoUrl args) = Response true t (Some (Broken e)) →
   ∃ st', instagram_upload_video args w (initial fs ds)
          = (Return (failure_report e), st')
          ∧ video_path w args ∈ files st'
          ∧ EvCreate (video_path w args) ∈ trace st'
          ∧ EvUnlink (video_path w args) ∉ trace st')
  ∧ (completes (w_fetch w 0 (videoUrl args)) = true →
     w_fetch w 1 (coverImageUrl args) = Response true t (Some (Broken e)) →
     ∃ st', instagram_upload_video args w (initial fs ds)
            = (Return (failure_report e), st')
            ∧ cover_path w args ∈ files st'
            ∧ EvCreate (cover_path w args) ∈ trace st'
            ∧ EvUnlink (cover_path w args) ∉ trace st'
            ∧ EvUnlink (video_path w args) ∈ trace st').
Proof.
  intros Hlogin [pv Hurl1] [pc Hurl2].
  pose proof (video_cover_paths_differ w args) as Hdiff.
  destruct (temp_path_cons w (staged_name "instagram_video_" (w_now w)
                                (extension_of w (videoUrl args))))
    as (c1 & p1 & Hcp1).
  destruct (temp_path_cons w (staged_name "instagram_cover_" (w_now w)
                                (extension_of w (coverImageUrl args))))
    as (c2 & p2 & Hcp2).
  split.
  - intros Hfetch1. unfold instagram_upload_video.
    rewrite bind_run. unfold declare_null at 1. cbv beta iota.
    rewrite bind_run. unfold declare_null at 1. cbv beta iota.
    unfold try_finally, try_catch.
    rewrite bind_run, login_spec, Hlogin.
    rewrite bind_run, ask_run, bind_run, getFileExtension_spec, Hurl1.
    rewrite bind_run, getFileExtension_spec, Hurl2.
    unfold downloadFile, fetch, existsSync, mkdirSync, createWriteStream,
      streamPipeline, cleanup_variable, video_path, cover_path, temp_path in *.
    run_sys. sys_simpl. cbn [initial trace app filter list_filter length].
    rewrite decide_False by done. cbn [length]. rewrite Hfetch1, Hcp1 in *.
    cbn [negb]. sys_simpl. cbn [initial files dirs locals trace].
    case_bool_decide as Hdir; cbn [negb]; sys_simpl;
      rewrite lookup_delete_ne by done; rewrite lookup_delete_eq; sys_simpl;
      rewrite lookup_delete_eq;
      (eexists; split; [reflexivity|]); sys_simpl;
      cbn [initial files dirs trace app];
      split_and!; set_solver.
  - intros Hvideo Hfetch2.
    apply completes_spec in Hvideo as (t1 & body1 & Hfetch1 & Hbody1).
    unfold instagram_upload_video.
    rewrite bind_run. unfold declare_null at 1. cbv beta iota.
    rewrite bind_run. unfold declare_null at 1. cbv beta iota.
    unfold try_finally, try_catch.
    rewrite bind_run, login_spec, Hlogin.
    rewrite bind_run, ask_run, bind_run, getFileExtension_spec, Hurl1.
    rewrite bind_run, getFileExtension_spec, Hurl2.
    unfold downloadFile, fetch, existsSync, mkdirSync, createWriteStream,
      streamPipeline, cleanup_variable, cleanupFile, unlinkSync,
      video_path, cover_path, temp_path in *.
    run_sys. sys_simpl. cbn [initial trace app filter list_filter length].
    rewrite decide_False by done. cbn [length]. rewrite Hfetch1, Hcp1, Hcp2 in *.
    cbn [negb]. sys_simpl. cbn [initial files dirs locals trace].
    case_bool_decide as Hdir; cbn [negb]; sys_simpl;
      destruct body1 as [[|e1]|]; try (by destruct (Hbody1 e1)); sys_simpl;
      cbn [initial files dirs locals trace app filter list_filter];
      repeat (first [rewrite decide_False by done | rewrite decide_True by done];
              cbn [app filter list_filter]);
      cbn [length]; rewrite Hfetch2; cbn [negb]; sys_simpl;
      cbn [initial files dirs locals trace]; rewrite ?Hcp2.
    all: rewrite bool_decide_eq_true_2 by set_solver; cbn [negb]; sys_simpl.
    all: rewrite lookup_insert_eq; unfold existsSync; run_sys; sys_simpl.
    all: rewrite bool_decide_eq_true_2 by set_solver.
    all: destruct (w_unlink w (c1 :: p1)) as [err|]; sys_simpl.
    all: rewrite lookup_insert_ne by done; rewrite lookup_delete_eq.
    all: eexists; (split; [reflexivity|]); sys_simpl;
      cbn [initial files dirs trace app]; split_and!; set_solver.
Qed.

(** ** instagram_upload_photo *)

(** C1. The staged file of [instagram_upload_photo] is not removed on
    every path: when the download starts with a success status and breaks
    mid-stream, after [createWriteStream] has created the destination file,
    the handler returns its failure report, no removal is attempted and the
    partially written file is still in the staging area.
    [localFilePath] is assigned only when [downloadFile] returns, so the
    [finally] block, whose comment reads "Always cleanup the temporary
    file", finds it [null]. *)
Theorem instagram_upload_photo_leaves_partial_file w args fs ds t e :
  w_login w (photo_username args) (photo_password args) = None →
  is_Some (w_url_pathname w (imageUrl args)) →
  w_fetch w 0 (imageUrl args) = Response true t (Some (Broken e)) →
  ∃ st', instagram_upload_photo args w (initial fs ds)
         = (Return (failure_report e), st')
         ∧ photo_path w args ∈ files st'
         ∧ EvCreate (photo_path w args) ∈ trace st'
         ∧ EvUnlink (photo_path w args) ∉ trace st'.
Proof.
  intros Hlogin [path Hurl] Hfetch. unfold instagram_upload_photo.
  rewrite bind_run. unfold declare_null at 1. cbv beta iota.
  unfold try_finally, try_catch.
  rewrite bind_run, login_spec, Hlogin.
  rewrite bind_run. unfold ask at 1. cbv beta iota.
  rewrite bind_run, getFileExtension_spec, Hurl.
  rewrite bind_run.
  destruct (downloadFile_spec (imageUrl args)
              (staged_name "instagram_photo_" (w_now w) (extension_of w (imageUrl args)))
              w (add_events [EvLogin (photo_username args) (photo_password args)]
                   (with_locals (delete "localFilePath" ∅) (initial fs ds))))
    as (r3 & st3 & evs3 & Hrun & Hl3 & Ht3 & He3 & Hc3).
  change (fetches _) with 0%nat in Hc3. rewrite Hfetch in Hc3.
  destruct Hc3 as (-> & Hf3 & Hcreate).
  change (with_locals (delete "localFilePath" (locals (initial fs ds))) (initial fs ds))
    with (with_locals (delete "localFilePath" ∅) (initial fs ds)).
  rewrite Hrun. unfold mret at 1, M_ret at 1.
  rewrite cleanup_variable_null by (by rewrite Hl3).
  eexists. split; [done|]. fold (photo_path w args) in *. split_and!.
  - rewrite Hf3. set_solver.
  - rewrite Ht3. set_solver.
  - rewrite Ht3. sys_simpl. cbn [initial trace app].
    intros Hin. apply elem_of_cons in Hin as [?|Hin]; [done|].
    apply elem_of_cons in Hin as [?|Hin]; [done|].
    rewrite Forall_forall in He3. by destruct (He3 _ Hin).
Qed.

(** X12. On every other path the staged file is gone when
    [instagram_upload_photo] returns: unless the download breaks
    mid-stream, and provided the removal itself does not fail, no file is
    left that was not there before, and a file this call created does not
    exist any more. *)
Lemma instagram_upload_photo_cleans w args fs ds r st' :
  instagram_upload_photo args w (initial fs ds) = (r, st') →
  (∀ t e, w_fetch w 0 (imageUrl args) ≠ Response true t (Some (Broken e))) →
  w_unlink w (photo_path w args) = None →
  files st' ⊆ fs
  ∧ (EvCreate (photo_path w args) ∈ trace st' → photo_path w args ∉ files st').
Proof.
  intros Hrun Hnb Hunlink. unfold instagram_upload_photo in Hrun.
  rewrite bind_run in Hrun. unfold declare_null at 1 in Hrun. cbv beta iota in Hrun.
  change (with_locals (delete "localFilePath" (locals (initial fs ds))) (initial fs ds))
    with (with_locals (delete "localFilePath" ∅) (initial fs ds)) in Hrun.
  apply try_finally_run in Hrun as (rb & stb & rc & Hbody & Hclean).
  apply try_catch_report_run in Hbody as (rb' & Hbody).
  rewrite bind_run, login_spec in Hbody.
  destruct (w_login w _ _) as [e|].
  { injection Hbody as <- <-. rewrite cleanup_variable_null in Hclean by done.
    injection Hclean as <- <-. sys_simpl. split; [done|].
    cbn [initial trace app]. set_solver. }
  rewrite bind_run in Hbody. unfold ask at 1 in Hbody. cbv beta iota in Hbody.
  rewrite bind_run, getFileExtension_spec in Hbody.
  destruct (w_url_pathname w (imageUrl args)) as [path|] eqn:Hurl.
  2:{ injection Hbody as <- <-. rewrite cleanup_variable_null in Hclean by done.
      injection Hclean as <- <-. sys_simpl. split; [done|].
      cbn [initial trace app]. set_solver. }
  rewrite bind_run in Hbody.
  destruct (downloadFile_spec (imageUrl args)
              (staged_name "instagram_photo_" (w_now w) (extension_of w (imageUrl args)))
              w (add_events [EvLogin (photo_username args) (photo_password args)]
                   (with_locals (delete "localFilePath" ∅) (initial fs ds))))
    as (r3 & st3 & evs3 & Hrun3 & Hl3 & Ht3 & He3 & Hc3).
  change (fetches _) with 0%nat in Hc3. rewrite Hrun3 in Hbody.
  fold (photo_path w args) in *.
  destruct r3 as [p|e3].
  - (* the download succeeded *)
    assert (p = photo_path w args ∧ files st3 = {[photo_path w args]} ∪ fs)
      as [-> Hf3].
    { destruct (w_fetch w 0 (imageUrl args)) as [e|[] t [[|e]|]];
        destruct Hc3 as (Hr & Hf & _); try done; by injection Hr as ->. }
    rewrite bind_run in Hbody. unfold assign at 1 in Hbody. cbv beta iota in Hbody.
    rewrite bind_run in Hbody.
    destruct (uploadPhoto_spec {| user := photo_username args |}
                (photo_path w args) (photo_caption args) w
                (with_locals (<["localFilePath" := photo_path w args]> (locals st3)) st3))
      as (r6 & evs6 & Hup & _).
    rewrite Hup in Hbody.
    assert (stb = add_events evs6
              (with_locals (<["localFilePath" := photo_path w args]> (locals st3)) st3))
      as ->.
    { destruct r6; by injection Hbody as <- <-. }
    unfold cleanup_variable in Hclean. rewrite bind_run in Hclean.
    unfold read at 1 in Hclean. cbv beta iota in Hclean.
    cbn [locals add_events with_locals] in Hclean.
    rewrite lookup_insert_eq in Hclean.
    destruct (temp_path_cons w
      (staged_name "instagram_photo_" (w_now w) (extension_of w (imageUrl args))))
      as (c & q & Hp). fold (photo_path w args) in Hp. rewrite Hp in Hclean.
    rewrite cleanupFile_spec, <- Hp in Hclean.
    cbn [files dirs add_events with_locals] in Hclean.
    rewrite bool_decide_eq_true_2, Hunlink in Hclean by (left; rewrite Hf3; set_solver).
    injection Hclean as <- <-. sys_simpl. rewrite Hf3. set_solver.
  - (* the download failed before the file was created *)
    injection Hbody as <- <-.
    rewrite cleanup_variable_null in Hclean by (by rewrite Hl3).
    injection Hclean as <- <-.
    destruct (w_fetch w 0 (imageUrl args)) as [e|[] t [[|e]|]] eqn:Hans;
      try (by destruct Hc3 as (? & _)); try (exfalso; by eapply Hnb);
      destruct Hc3 as (_ & -> & ->); (split; [done|]);
      rewrite Ht3; cbn [initial trace app add_events with_locals]; set_solver.
Qed.

(** ** instagram_get_timeline *)

Lemma slice_to_of_Z {A} (items : list A) (n : Z) :
  (0 ≤ n)%Z → slice_to items (of_Z n) = take (Z.to_nat n) items.
Proof.
  intros Hn. unfold slice_to. rewrite to_integer_of_Z.
  by rewrite (proj2 (Z.ltb_ge n 0) Hn).
Qed.

(** Handed an array of [K] items and a validated limit [L], the handler
    answers with the first [min L K] of them. *)
Lemma timeline_reply_min (L : Z) (items : list value) :
  (1 ≤ L ≤ 50)%Z →
  timeline_reply (of_Z L) items
  = JSON_stringify (JArr (take (Z.to_nat L `min` length items) items)).
Proof.
  intros HL. unfold timeline_reply. rewrite Z_lt_of_Z.
  destruct (Nat.eqb_spec (length items) 0) as [H0|H0].
  - destruct items; [|done]. by rewrite take_nil.
  - case_bool_decide as Hlt.
    + unfold number_of_length. rewrite slice_to_of_Z by lia.
      by rewrite Nat2Z.id, Nat.min_r by lia.
    + rewrite slice_to_of_Z by lia. by rewrite Nat.min_l by lia.
Qed.

(** C3. The timeline handler linked with [getTimelineFeed] of
    [src/instagram.ts] never returns a list of items, whatever the limit
    and the feed: the closure the adapter stores in [feed.items] calls
    itself, so every call ends in a failure; when the login and the feed
    request succeed and the limit is an integer, the failure is the
    exhaustion of the call stack.  (With an adapter that returns the items
    of the feed the handler does return the first [min L K] of them, see
    [instagram_get_timeline_unsliced].) *)
Theorem instagram_get_timeline_never_returns depth args w st :
  is_return (instagram_get_timeline depth args w st).1 = false
  ∧ (w_login w (timeline_username args) (timeline_password args) = None →
     isInteger (limit args) = true →
     w_feed_request w = None →
     (instagram_get_timeline depth args w st).1 = Throw stack_overflow).
Proof.
  unfold instagram_get_timeline, instagram_get_timeline_with.
  set (validated := if lt_Z (limit args) 1 || Z_lt 50 (limit args) then of_Z 10 else limit args).
  rewrite bind_run, login_spec.
  destruct (w_login w _ _) as [e|]; [done|].
  destruct (isInteger validated) eqn:Hint; cbn [negb].
  - rewrite bind_run, skip_run, bind_run.
    destruct (getTimelineFeed_throws depth {| user := timeline_username args |}
                validated w
                (add_events [EvLogin (timeline_username args) (timeline_password args)] st))
      as (e & st' & -> & He & _).
    cbn [fst]. split; [done|]. intros _ _ Hreq. by rewrite He.
  - rewrite bind_run, throw_run. split; [done|]. intros _ Hint' _. exfalso.
    subst validated. destruct (lt_Z (limit args) 1 || Z_lt 50 (limit args));
      [by vm_compute in Hint|congruence].
Qed.

(** X13. With the earlier adapter, which hands over the items of the feed as
    they are, the tool returns exactly [min L K] items. *)
Lemma instagram_get_timeline_unsliced (L : Z) args items w st :
  (1 ≤ L ≤ 50)%Z → limit args = of_Z L →
  w_login w (timeline_username args) (timeline_password args) = None →
  w_feed_items w = Return items →
  (instagram_get_timeline_with getTimelineFeed_unsliced args w st).1
  = Return (JSON_stringify (JArr (take (Z.to_nat L `min` length items) items)))
  ∧ length (take (Z.to_nat L `min` length items) items)
    = Z.to_nat L `min` length items.
Proof.
  intros HL Hlim Hlogin Hitems. split.
  - unfold instagram_get_timeline_with. rewrite Hlim.
    rewrite lt_Z_of_Z, Z_lt_of_Z, !bool_decide_eq_false_2 by lia.
    cbn [orb]. rewrite isInteger_of_Z. cbn [negb].
    rewrite bind_run, login_spec, Hlogin.
    rewrite bind_run, skip_run, bind_run.
    unfold getTimelineFeed_unsliced.
    rewrite bind_run, set_feed_items_run, call_feed_items_library by done.
    unfold library_items.
    rewrite bind_run, emit_run, bind_run, ask_run, lift_run, Hitems, ret_run.
    cbn [fst]. by rewrite timeline_reply_min.
  - rewrite length_take. lia.
Qed.

(** ** Credentials and schemas *)

Lemma getCredentials_spec w st :
  EnvTools.getCredentials w st =
  (match env_credentials w with
   | Some c => Return c
   | None => Throw credentials_missing
   end, st).
Proof.
  unfold EnvTools.getCredentials, env_credentials. run_sys.
  destruct (w_env w !! lit "IG_USERNAME") as [[|c u]|];
    destruct (w_env w !! lit "IG_PASSWORD") as [[|d p]|]; done.
Qed.

Lemma z_string_throws : throws_ZodError Zod.z_string.
Proof. intros arg err. destruct arg as [[]|]; cbn; intros [= <-]; by eexists. Qed.

Lemma z_number_throws : throws_ZodError Zod.z_number.
Proof.
  intros arg err. destruct arg as [[| |[]| | |]|]; cbn; intros [= <-]; by eexists.
Qed.

Lemma z_refine_throws {A} (s : Zod.schema A) (check : A → bool) msg :
  throws_ZodError s →
  throws_ZodError (λ arg, x ← s arg; if check x then Return x else Zod.invalid msg).
Proof.
  intros Hs arg err. destruct (s arg) as [x|e'] eqn:Hx; cbn.
  - destruct (check x); intros [= <-]. by eexists.
  - intros [= <-]. eauto.
Qed.

Lemma z_int_throws s : throws_ZodError s → throws_ZodError (Zod.z_int s).
Proof. apply z_refine_throws. Qed.

Lemma z_min_throws b s : throws_ZodError s → throws_ZodError (Zod.z_min b s).
Proof. apply (z_refine_throws s (Z_le b)). Qed.

Lemma z_max_throws b s : throws_ZodError s → throws_ZodError (Zod.z_max b s).
Proof. apply (z_refine_throws s (λ x, le_Z x b)). Qed.

Lemma z_url_throws f s : throws_ZodError s → throws_ZodError (Zod.z_url f s).
Proof. apply z_refine_throws. Qed.

Lemma z_optional_throws {A} (s : Zod.schema A) :
  throws_ZodError s → throws_ZodError (Zod.z_optional s).
Proof.
  intros Hs arg err. destruct arg as [v|]; cbn; [|done].
  destruct (s (Some v)) eqn:Hx; cbn; intros [= <-]. eauto.
Qed.

Lemma z_default_throws {A} d (s : Zod.schema A) :
  throws_ZodError s → throws_ZodError (Zod.z_default d s).
Proof. intros Hs arg err. destruct arg as [v|]; cbn; apply Hs. Qed.

Lemma limit_schema_throws : throws_ZodError UrlTools.limit_schema.
Proof.
  apply z_default_throws, z_max_throws, z_min_throws, z_int_throws,
    z_number_throws.
Qed.

Create HintDb zod.

#[local] Hint Resolve z_string_throws z_number_throws z_url_throws
  z_optional_throws limit_schema_throws : zod.

Ltac zod_step :=
  match goal with
  | |- context [Zod.z_string ?a] =>
      destruct (Zod.z_string a) as [?|?] eqn:?; cbn [mbind outcome_bind]
  | |- context [Zod.z_url ?f ?s ?a] =>
      destruct (Zod.z_url f s a) as [?|?] eqn:?; cbn [mbind outcome_bind]
  | |- context [Zod.z_optional ?s ?a] =>
      destruct (Zod.z_optional s a) as [?|?] eqn:?; cbn [mbind outcome_bind]
  | |- context [UrlTools.limit_schema ?a] =>
      destruct (UrlTools.limit_schema a) as [?|?] eqn:?; cbn [mbind outcome_bind]
  end.

Ltac zod_error :=
  match goal with
  | H : ?s ?a = Throw ?e |- ∃ msg, Dispatch.Rejected ?e = _ =>
      let Hs := fresh in
      assert (throws_ZodError s) as Hs by eauto with zod;
      destruct (Hs _ _ H) as [? ->]; by eexists
  end.

(** Without [username] or without [password] in the argument bag, the
    schema of every tool that takes them rejects the call. *)
Lemma url_tools_reject depth t w args :
  t ∈ url_instagramTools depth → args_credentials args = None →
  ∃ msg, call t w args = Dispatch.Rejected (ZodError msg).
Proof.
  intros Ht Hargs. unfold args_credentials, argument in Hargs.
  unfold url_instagramTools in Ht.
  repeat (apply elem_of_cons in Ht as [->|Ht]); try (by apply elem_of_nil in Ht).
  all: cbn [call]; unfold Dispatch.call_tool.
  all: unfold UrlTools.photo_parameters, UrlTools.video_parameters,
      UrlTools.profile_parameters, UrlTools.timeline_parameters, Zod.z_object.
  all: destruct args as [| | | | |fields]; try by eexists.
  all: change (obj_get (lit "username") fields) with (obj_get (lit "username") fields) in *.
  all: destruct (obj_get (lit "username") fields) as [u|] eqn:Hu;
    [destruct (obj_get (lit "password") fields) as [p|] eqn:Hp; [done|]|].
  all: repeat zod_step; try done; try zod_error.
Qed.

(** Reading an argument bag after [with_credentials]. *)
Lemma obj_get_obj_set_eq k v fields : obj_get k (obj_set k v fields) = Some v.
Proof.
  induction fields as [|[k' v'] fields IH]; cbn [obj_set obj_get].
  - by rewrite bool_decide_eq_true_2.
  - case_bool_decide as Hk; cbn [obj_get].
    + by rewrite bool_decide_eq_true_2.
    + destruct (goes_before k k'); cbn [obj_get].
      * by rewrite bool_decide_eq_true_2.
      * by rewrite bool_decide_eq_false_2.
Qed.

Lemma obj_get_obj_set_ne k k' v fields :
  k' ≠ k → obj_get k' (obj_set k v fields) = obj_get k' fields.
Proof.
  intros Hne. induction fields as [|[k0 v0] fields IH]; cbn [obj_set obj_get].
  - by rewrite bool_decide_eq_false_2.
  - case_bool_decide as Hk; cbn [obj_get].
    + subst k0. by rewrite !bool_decide_eq_false_2.
    + destruct (goes_before k k0); cbn [obj_get].
      * by rewrite (bool_decide_eq_false_2 (k' = k)).
      * by rewrite IH.
Qed.

Lemma with_credentials_get u p fields (key : string) :
  obj_get (lit key)
    (obj_set (lit "password") (JStr p) (obj_set (lit "username") (JStr u) fields))
  = if bool_decide (lit key = lit "password") then Some (JStr p)
    else if bool_decide (lit key = lit "username") then Some (JStr u)
    else obj_get (lit key) fields.
Proof.
  case_bool_decide as Hp.
  - rewrite Hp. apply obj_get_obj_set_eq.
  - rewrite obj_get_obj_set_ne by done. case_bool_decide as Hu.
    + rewrite Hu. apply obj_get_obj_set_eq.
    + by rewrite obj_get_obj_set_ne.
Qed.

(** A call of a URL-based tool that would run with credentials is rejected
    without them, with the error of a required argument that is absent. *)
Lemma url_tools_require depth t w fields u p m :
  t ∈ url_instagramTools depth →
  obj_get (lit "username") fields = None →
  obj_get (lit "password") fields = None →
  call t w (with_credentials u p (JObj fields)) = Dispatch.Executed m →
  call t w (JObj fields) = Dispatch.Rejected (ZodError (lit "Required")).
Proof.
  intros Ht Hu Hp. unfold url_instagramTools in Ht.
  repeat (apply elem_of_cons in Ht as [->|Ht]); try (by apply elem_of_nil in Ht).
  all: cbn [call with_credentials]; unfold Dispatch.call_tool.
  all: unfold UrlTools.photo_parameters, UrlTools.video_parameters,
      UrlTools.profile_parameters, UrlTools.timeline_parameters, Zod.z_object.
  all: rewrite !with_credentials_get.
  all: repeat (first [rewrite bool_decide_eq_true_2 by done
                     | rewrite bool_decide_eq_false_2 by done]).
  all: rewrite ?Hu, ?Hp.
  all: repeat match goal with
       | |- context [Zod.z_url ?f ?s (obj_get ?k ?fs)] =>
           destruct (Zod.z_url f s (obj_get k fs)) as [?|?];
           cbn [mbind outcome_bind]
       | |- context [Zod.z_string (obj_get ?k ?fs)] =>
           destruct (Zod.z_string (obj_get k fs)) as [?|?];
           cbn [mbind outcome_bind]
       | |- context [UrlTools.limit_schema (obj_get ?k ?fs)] =>
           destruct (UrlTools.limit_schema (obj_get k fs)) as [?|?];
           cbn [mbind outcome_bind]
       end; done.
Qed.

(** ** Computations only add to the trace *)

Lemma monotone_pure {A} (f : world → state → outcome A) :
  monotone (A := A) (λ w st, (f w st, st)).
Proof. intros w st. exists []. by rewrite app_nil_r. Qed.

Lemma monotone_ret {A} (a : A) : monotone (mret a).
Proof. apply (monotone_pure (λ _ _, Return a)). Qed.

Lemma monotone_throw {A} e : monotone (throw (A := A) e).
Proof. apply (monotone_pure (λ _ _, Throw e)). Qed.

Lemma monotone_skip : monotone skip.
Proof. apply monotone_ret. Qed.

Lemma monotone_bind {A B} (m : M A) (k : A → M B) :
  monotone m → (∀ a, monotone (k a)) → monotone (m ≫= k).
Proof.
  intros Hm Hk w st. rewrite bind_run. destruct (Hm w st) as [evs Hevs].
  destruct (m w st) as [[a|e] st1]; cbn [snd] in *.
  - destruct (Hk a w st1) as [evs' Hevs']. exists (evs ++ evs').
    by rewrite Hevs', Hevs, app_assoc.
  - by exists evs.
Qed.

Lemma monotone_try_catch {A} (m : M A) (h : exn → M A) :
  monotone m → (∀ e, monotone (h e)) → monotone (try_catch m h).
Proof.
  intros Hm Hh w st. unfold try_catch. destruct (Hm w st) as [evs Hevs].
  destruct (m w st) as [[a|e] st1]; cbn [snd] in *.
  - by exists evs.
  - destruct (Hh e w st1) as [evs' Hevs']. exists (evs ++ evs').
    by rewrite Hevs', Hevs, app_assoc.
Qed.

Lemma monotone_try_finally {A} (m : M A) (c : M unit) :
  monotone m → monotone c → monotone (try_finally m c).
Proof.
  intros Hm Hc w st. unfold try_finally. destruct (Hm w st) as [evs Hevs].
  destruct (m w st) as [r st1]; cbn [snd] in *.
  destruct (Hc w st1) as [evs' Hevs'].
  exists (evs ++ evs'). rewrite app_assoc, <- Hevs.
  by destruct (c w st1) as [[[]|e] st2].
Qed.

Lemma monotone_emit ev : monotone (emit ev).
Proof. intros w st. by exists [ev]. Qed.

Lemma monotone_silent {A} (f : state → state) (a : world → state → outcome A) :
  (∀ st, trace (f st) = trace st) → monotone (A := A) (λ w st, (a w st, f st)).
Proof. intros Hf w st. exists []. cbn [snd]. by rewrite Hf, app_nil_r. Qed.

Lemma monotone_set_files fs : monotone (set_files fs).
Proof. by apply (monotone_silent (with_files fs)). Qed.

Lemma monotone_set_dirs ds : monotone (set_dirs ds).
Proof. by apply (monotone_silent (with_dirs ds)). Qed.

Lemma monotone_declare_null x : monotone (declare_null x).
Proof. by apply (monotone_silent (λ st, with_locals (delete x (locals st)) st)). Qed.

Lemma monotone_assign x v : monotone (assign x v).
Proof. by apply (monotone_silent (λ st, with_locals (<[x:=v]> (locals st)) st)). Qed.

Lemma monotone_set_feed_items f : monotone (set_feed_items f).
Proof. by apply (monotone_silent (with_feed_items f)). Qed.

Lemma monotone_read x : monotone (read x).
Proof. apply (monotone_pure (λ _ st, Return (locals st !! x))). Qed.

Lemma monotone_ask : monotone ask.
Proof. apply (monotone_pure (λ w _, Return w)). Qed.

Lemma monotone_get : monotone get.
Proof. apply (monotone_pure (λ _ st, Return st)). Qed.

Lemma monotone_lift {A} (o : outcome A) : monotone (lift o).
Proof. apply (monotone_pure (λ _ _, o)). Qed.

Lemma monotone_fail_if e : monotone (fail_if e).
Proof. destruct e; [apply monotone_throw|apply monotone_ret]. Qed.

Create HintDb monotone.

#[local] Hint Resolve monotone_ret monotone_throw monotone_skip monotone_emit
  monotone_set_files monotone_set_dirs monotone_declare_null monotone_assign
  monotone_set_feed_items monotone_read monotone_ask monotone_get monotone_lift
  monotone_fail_if : monotone.

Ltac monotone_step :=
  first
    [ apply monotone_bind; [|intros]
    | apply monotone_try_catch; [|intros]
    | apply monotone_try_finally
    | solve [eauto with monotone]
    | match goal with
      | |- monotone (match ?x with _ => _ end) => destruct x
      | |- monotone (let '(_, _) := ?x in _) => destruct x
      | |- monotone (if ?b then _ else _) => destruct b
      end ].

Ltac solve_monotone := repeat monotone_step.

Lemma monotone_existsSync p : monotone (existsSync p).
Proof. unfold existsSync. solve_monotone. Qed.

Lemma monotone_mkdirSync p : monotone (mkdirSync p).
Proof. unfold mkdirSync. solve_monotone. Qed.

Lemma monotone_createWriteStream p : monotone (createWriteStream p).
Proof. unfold createWriteStream. solve_monotone. Qed.

Lemma monotone_streamPipeline b : monotone (streamPipeline b).
Proof. unfold streamPipeline. solve_monotone. Qed.

Lemma monotone_unlinkSync p : monotone (unlinkSync p).
Proof. unfold unlinkSync. solve_monotone. Qed.

Lemma monotone_readFile p : monotone (readFile p).
Proof. unfold readFile. solve_monotone. Qed.

Lemma monotone_fetch u : monotone (fetch u).
Proof. unfold fetch. solve_monotone. Qed.

#[local] Hint Resolve monotone_existsSync monotone_mkdirSync
  monotone_createWriteStream monotone_streamPipeline monotone_unlinkSync
  monotone_readFile monotone_fetch : monotone.

Lemma monotone_login u p : monotone (login u p).
Proof. unfold login. solve_monotone. Qed.

Lemma monotone_uploadPhoto ig p c : monotone (uploadPhoto ig p c).
Proof. unfold uploadPhoto. solve_monotone. Qed.

Lemma monotone_uploadVideo ig p q c : monotone (uploadVideo ig p q c).
Proof. unfold uploadVideo. solve_monotone. Qed.

Lemma monotone_getProfile ig u : monotone (getProfile ig u).
Proof. unfold getProfile. solve_monotone. Qed.

Lemma monotone_library_items : monotone library_items.
Proof. unfold library_items. solve_monotone. Qed.

Lemma monotone_feed_request : monotone feed_request.
Proof. unfold feed_request. solve_monotone. Qed.

#[local] Hint Resolve monotone_login monotone_uploadPhoto monotone_uploadVideo
  monotone_getProfile monotone_library_items monotone_feed_request : monotone.

Lemma monotone_call_feed_items depth : monotone (call_feed_items depth).
Proof.
  induction depth as [|depth IH]; cbn [call_feed_items]; solve_monotone.
Qed.

#[local] Hint Resolve monotone_call_feed_items : monotone.

Lemma monotone_getTimelineFeed depth ig limit :
  monotone (getTimelineFeed depth ig limit).
Proof. unfold getTimelineFeed. solve_monotone. Qed.

Lemma monotone_downloadFile u n : monotone (UrlTools.downloadFile u n).
Proof. unfold UrlTools.downloadFile. solve_monotone. Qed.

Lemma monotone_cleanupFile p : monotone (UrlTools.cleanupFile p).
Proof. unfold UrlTools.cleanupFile. solve_monotone. Qed.

Lemma monotone_getFileExtension u : monotone (UrlTools.getFileExtension u).
Proof. unfold UrlTools.getFileExtension. solve_monotone. Qed.

#[local] Hint Resolve monotone_getTimelineFeed monotone_downloadFile
  monotone_cleanupFile monotone_getFileExtension : monotone.

Lemma monotone_cleanup_variable x : monotone (UrlTools.cleanup_variable x).
Proof. unfold UrlTools.cleanup_variable. solve_monotone. Qed.

#[local] Hint Resolve monotone_cleanup_variable : monotone.

(** ** The first external call *)

Lemma logs_in_first_login {A} u p w (k : session → M A) :
  (∀ ig, monotone (k ig)) → logs_in_first u p w (login u p ≫= k).
Proof.
  intros Hk st. rewrite bind_run, login_spec.
  destruct (w_login w u p) as [e|]; [by exists []|].
  destruct (Hk {| user := u |} w (add_events [EvLogin u p] st)) as [evs ->].
  exists evs. cbn [trace add_events]. by rewrite <- app_assoc.
Qed.

Lemma logs_in_first_try_catch {A} u p w (m : M A) (h : exn → M A) :
  logs_in_first u p w m → (∀ e, monotone (h e)) →
  logs_in_first u p w (try_catch m h).
Proof.
  intros Hm Hh st. unfold try_catch. destruct (Hm st) as [evs Hevs].
  destruct (m w st) as [[a|e] st1]; cbn [snd] in *; [by exists evs|].
  destruct (Hh e w st1) as [evs' ->]. exists (evs ++ evs').
  by rewrite Hevs, <- app_assoc.
Qed.

Lemma logs_in_first_try_finally {A} u p w (m : M A) (c : M unit) :
  logs_in_first u p w m → monotone c → logs_in_first u p w (try_finally m c).
Proof.
  intros Hm Hc st. unfold try_finally. destruct (Hm st) as [evs Hevs].
  destruct (m w st) as [r st1]; cbn [snd] in *.
  destruct (Hc w st1) as [evs' Hevs'].
  exists (evs ++ evs'). rewrite app_comm_cons, app_assoc, <- Hevs.
  by destruct (c w st1) as [[[]|e] st2].
Qed.

Lemma logs_in_first_declared {A} u p w x (m : M A) :
  logs_in_first u p w m → logs_in_first u p w (declare_null x;; m).
Proof.
  intros Hm st. rewrite bind_run. unfold declare_null. cbv beta iota.
  apply (Hm (with_locals (delete x (locals st)) st)).
Qed.

Lemma logs_in_first_credentials {A} u p w (k : js_string * js_string → M A) :
  env_credentials w = Some (u, p) →
  logs_in_first u p w (k (u, p)) →
  logs_in_first u p w (EnvTools.getCredentials ≫= k).
Proof.
  intros Henv Hk st. rewrite bind_run, getCredentials_spec, Henv. apply Hk.
Qed.

Ltac logs_in :=
  repeat first
    [ apply logs_in_first_declared
    | apply logs_in_first_try_finally; [|solve_monotone]
    | apply logs_in_first_try_catch; [|intros; solve_monotone]
    | apply logs_in_first_login; intros; solve_monotone ].

Lemma z_string_Return v s : Zod.z_string (Some v) = Return s → v = JStr s.
Proof. destruct v; cbn; unfold Zod.invalid; congruence. Qed.

Ltac zod_step_in H :=
  match type of H with
  | context [Zod.z_string ?a] =>
      destruct (Zod.z_string a) as [?|?] eqn:?; cbn [mbind outcome_bind] in H
  | context [Zod.z_url ?f ?s ?a] =>
      destruct (Zod.z_url f s a) as [?|?] eqn:?; cbn [mbind outcome_bind] in H
  | context [Zod.z_optional ?s ?a] =>
      destruct (Zod.z_optional s a) as [?|?] eqn:?; cbn [mbind outcome_bind] in H
  | context [UrlTools.limit_schema ?a] =>
      destruct (UrlTools.limit_schema a) as [?|?] eqn:?; cbn [mbind outcome_bind] in H
  end.

Ltac zod_error_in H :=
  injection H as <-;
  match goal with
  | H' : ?s ?a = Throw ?e |- ∃ msg, ?e = ZodError msg =>
      let Hs := fresh in
      assert (throws_ZodError s) as Hs by eauto with zod;
      exact (Hs _ _ H')
  end.

Ltac zod_open H :=
  unfold UrlTools.photo_parameters, UrlTools.video_parameters,
    UrlTools.profile_parameters, UrlTools.timeline_parameters,
    EnvTools.photo_parameters, EnvTools.video_parameters,
    EnvTools.profile_parameters, EnvTools.timeline_parameters,
    Zod.z_object in H.

(** The schemas of the tools fail with a [ZodError] only. *)
Lemma tool_schemas_throw w :
  throws_ZodError (UrlTools.photo_parameters w)
  ∧ throws_ZodError (UrlTools.video_parameters w)
  ∧ throws_ZodError UrlTools.profile_parameters
  ∧ throws_ZodError UrlTools.timeline_parameters
  ∧ throws_ZodError EnvTools.photo_parameters
  ∧ throws_ZodError EnvTools.video_parameters
  ∧ throws_ZodError EnvTools.profile_parameters
  ∧ throws_ZodError EnvTools.timeline_parameters.
Proof.
  split_and!; intros arg err H; zod_open H;
    (destruct arg as [[| | | | |fields]|];
       try (injection H as <-; by eexists));
    repeat zod_step_in H; try discriminate H; zod_error_in H.
Qed.

(** What the schemas of the tools that take credentials accept carries
    the [username] and the [password] of the argument bag. *)
Lemma url_schemas_read_credentials w args :
  (∀ prm, UrlTools.photo_parameters w (Some args) = Return prm →
     args_credentials args
     = Some (JStr (UrlTools.photo_username prm), JStr (UrlTools.photo_password prm)))
  ∧ (∀ prm, UrlTools.video_parameters w (Some args) = Return prm →
     args_credentials args
     = Some (JStr (UrlTools.video_username prm), JStr (UrlTools.video_password prm)))
  ∧ (∀ prm, UrlTools.profile_parameters (Some args) = Return prm →
     args_credentials args
     = Some (JStr (UrlTools.profile_username prm), JStr (UrlTools.profile_password prm)))
  ∧ (∀ prm, UrlTools.timeline_parameters (Some args) = Return prm →
     args_credentials args
     = Some (JStr (UrlTools.timeline_username prm), JStr (UrlTools.timeline_password prm))).
Proof.
  unfold args_credentials, argument.
  split_and!; intros prm H; zod_open H;
    (destruct args as [| | | | |fields]; try discriminate H);
    repeat zod_step_in H; try discriminate H; injection H as <-;
    cbn [UrlTools.photo_username UrlTools.photo_password
         UrlTools.video_username UrlTools.video_password
         UrlTools.profile_username UrlTools.profile_password
         UrlTools.timeline_username UrlTools.timeline_password];
    repeat match goal with
      | H : Zod.z_string (obj_get ?k fields) = Return _ |- _ =>
          destruct (obj_get k fields) as [?|];
          [apply z_string_Return in H as ->|discriminate H]
      end; done.
Qed.

Lemma photo_logs_in w prm :
  logs_in_first (UrlTools.photo_username prm) (UrlTools.photo_password prm) w
    (UrlTools.instagram_upload_photo prm).
Proof. unfold UrlTools.instagram_upload_photo. logs_in. Qed.

Lemma video_logs_in w prm :
  logs_in_first (UrlTools.video_username prm) (UrlTools.video_password prm) w
    (UrlTools.instagram_upload_video prm).
Proof. unfold UrlTools.instagram_upload_video. logs_in. Qed.

Lemma profile_logs_in w prm :
  logs_in_first (UrlTools.profile_username prm) (UrlTools.profile_password prm) w
    (UrlTools.instagram_get_profile prm).
Proof. unfold UrlTools.instagram_get_profile. logs_in. Qed.

Lemma timeline_logs_in depth w prm :
  logs_in_first (UrlTools.timeline_username prm) (UrlTools.timeline_password prm) w
    (UrlTools.instagram_get_timeline depth prm).
Proof.
  unfold UrlTools.instagram_get_timeline, UrlTools.instagram_get_timeline_with.
  logs_in.
Qed.

Lemma env_tools_log_in depth w u p :
  env_credentials w = Some (u, p) →
  (∀ prm, logs_in_first u p w (EnvTools.instagram_upload_photo prm))
  ∧ (∀ prm, logs_in_first u p w (EnvTools.instagram_upload_video prm))
  ∧ (∀ prm, logs_in_first u p w (EnvTools.instagram_get_profile prm))
  ∧ (∀ prm, logs_in_first u p w (EnvTools.instagram_get_timeline depth prm)).
Proof.
  intros Henv.
  split_and!; intros prm;
    unfold EnvTools.instagram_upload_photo, EnvTools.instagram_upload_video,
      EnvTools.instagram_get_profile, EnvTools.instagram_get_timeline;
    (apply logs_in_first_credentials; [done|]); cbv beta iota; logs_in.
Qed.

(** ** Calls without credentials *)

Lemma run_tool_rejected t args w st e :
  call t w args = Dispatch.Rejected e → run_tool t args w st = (Throw e, st).
Proof. intros H. unfold run_tool. by rewrite H. Qed.

Lemma call_tool_cases {P R} (parameters : Zod.schema P) (execute : P → R) args :
  throws_ZodError parameters →
  (∃ msg, Dispatch.call_tool parameters execute args = Dispatch.Rejected (ZodError msg))
  ∨ (∃ prm, parameters (Some args) = Return prm
            ∧ Dispatch.call_tool parameters execute args = Dispatch.Executed (execute prm)).
Proof.
  intros Hs. unfold Dispatch.call_tool.
  destruct (parameters (Some args)) as [prm|e] eqn:Hparse.
  - right. by exists prm.
  - left. destruct (Hs _ _ Hparse) as [msg ->]. by exists msg.
Qed.

Lemma env_tools_fail depth t w args st :
  t ∈ env_instagramTools depth → env_credentials w = None →
  ∃ e, run_tool t args w st = (Throw e, st)
       ∧ (e = credentials_missing ∨ ∃ msg, e = ZodError msg).
Proof.
  intros Ht Henv. unfold env_instagramTools in Ht.
  destruct (tool_schemas_throw w) as (_ & _ & _ & _ & H1 & H2 & H3 & H4).
  repeat (apply elem_of_cons in Ht as [->|Ht]); try (by apply elem_of_nil in Ht).
  all: unfold run_tool; cbn [call].
  all: match goal with
       | |- context [Dispatch.call_tool ?s ?f ?a] =>
           destruct (call_tool_cases s f a) as [[msg ->]|(prm & _ & ->)];
             [done|by eauto|]
       end.
  all: unfold EnvTools.instagram_upload_photo, EnvTools.instagram_upload_video,
         EnvTools.instagram_get_profile, EnvTools.instagram_get_timeline.
  all: rewrite bind_run, getCredentials_spec, Henv; eauto.
Qed.

(** C9. No Instagram tool reads both sources of credentials: every tool
    reads one of them and ignores the other.

    The URL-based tools read the properties [username] and [password] of
    the call, whatever the environment holds.  Without them the call is
    rejected by the schema with a validation error, which is "Required"
    when nothing else is wrong with the call (the call would run with the
    two properties put in), and not the credentials-missing error.  With
    them the call is rejected by the schema for another argument, or its
    first external call is the login with exactly these credentials.

    The tools of [src/tools/instagramTools.ts] read the environment
    variables [IG_USERNAME] and [IG_PASSWORD], whatever the call holds.
    Without them a call that the schema accepts fails with the
    credentials-missing error "Instagram credentials not provided" (one
    the schema rejects fails with its validation error).  With them the
    call is rejected by the schema, or its first external call is the
    login with exactly these credentials.

    Every failure for missing credentials leaves the machine as it was:
    no login and no other external call was made. *)
Theorem instagram_tools_credentials depth t w args st :
  (t ∈ url_instagramTools depth →
     (args_credentials args = None →
        ∃ msg, run_tool t args w st = (Throw (ZodError msg), st))
     ∧ (∀ fields u p m, args = JObj fields →
          obj_get (lit "username") fields = None →
          obj_get (lit "password") fields = None →
          call t w (with_credentials u p args) = Dispatch.Executed m →
          run_tool t args w st = (Throw (ZodError (lit "Required")), st))
     ∧ (∀ u p, args_credentials args = Some (JStr u, JStr p) →
          (∃ msg, call t w args = Dispatch.Rejected (ZodError msg))
          ∨ logs_in_first u p w (run_tool t args)))
  ∧ (t ∈ env_instagramTools depth →
     (env_credentials w = None →
        (∃ msg, run_tool t args w st = (Throw (ZodError msg), st))
        ∨ ((∃ m, call t w args = Dispatch.Executed m)
           ∧ run_tool t args w st = (Throw credentials_missing, st)))
     ∧ (∀ u p, env_credentials w = Some (u, p) →
          (∃ msg, call t w args = Dispatch.Rejected (ZodError msg))
          ∨ logs_in_first u p w (run_tool t args))).
Proof.
  split; intros Ht; split_and!.
  - intros Hargs.
    destruct (url_tools_reject depth t w args Ht Hargs) as [msg Hrej].
    exists msg. by apply run_tool_rejected.
  - intros fields u p m -> Hu Hp Hex. apply run_tool_rejected.
    by apply (url_tools_require depth t w fields u p m).
  - intros u p Hargs.
    destruct (tool_schemas_throw w) as (H1 & H2 & H3 & H4 & _).
    destruct (url_schemas_read_credentials w args) as (R1 & R2 & R3 & R4).
    unfold url_instagramTools in Ht.
    repeat (apply elem_of_cons in Ht as [->|Ht]); try (by apply elem_of_nil in Ht).
    all: cbn [call].
    all: match goal with
         | |- context [Dispatch.call_tool ?s ?f ?a] =>
             destruct (call_tool_cases s f a) as [Hrej|(prm & Hprm & Hex)];
               [done|by left|right]
         end.
    all: intros st'; unfold run_tool; cbn [call]; rewrite Hex.
    + apply R1 in Hprm. rewrite Hargs in Hprm. injection Hprm as -> ->.
      apply photo_logs_in.
    + apply R2 in Hprm. rewrite Hargs in Hprm. injection Hprm as -> ->.
      apply video_logs_in.
    + apply R3 in Hprm. rewrite Hargs in Hprm. injection Hprm as -> ->.
      apply profile_logs_in.
    + apply R4 in Hprm. rewrite Hargs in Hprm. injection Hprm as -> ->.
      apply timeline_logs_in.
  - intros Henv. unfold env_instagramTools in Ht.
    destruct (tool_schemas_throw w) as (_ & _ & _ & _ & H1 & H2 & H3 & H4).
    repeat (apply elem_of_cons in Ht as [->|Ht]); try (by apply elem_of_nil in Ht).
    all: unfold run_tool; cbn [call].
    all: match goal with
         | |- context [Dispatch.call_tool ?s ?f ?a] =>
             destruct (call_tool_cases s f a) as [[msg ->]|(prm & _ & ->)];
               [done|by eauto|right]
         end.
    all: split; [by eexists|].
    all: unfold EnvTools.instagram_upload_photo, EnvTools.instagram_upload_video,
           EnvTools.instagram_get_profile, EnvTools.instagram_get_timeline.
    all: by rewrite bind_run, getCredentials_spec, Henv.
  - intros u p Henv.
    destruct (tool_schemas_throw w) as (_ & _ & _ & _ & H1 & H2 & H3 & H4).
    destruct (env_tools_log_in depth w u p Henv) as (L1 & L2 & L3 & L4).
    unfold env_instagramTools in Ht.
    repeat (apply elem_of_cons in Ht as [->|Ht]); try (by apply elem_of_nil in Ht).
    all: cbn [call].
    all: match goal with
         | |- context [Dispatch.call_tool ?s ?f ?a] =>
             destruct (call_tool_cases s f a) as [Hrej|(prm & Hprm & Hex)];
               [done|by left|right]
         end.
    all: intros st'; unfold run_tool; cbn [call]; rewrite Hex.
    + apply L1. + apply L2. + apply L3. + apply L4.
Qed.

(** *** The properties at sample calls *)

Lemma instagram_upload_photo_leaves_partial_file_witness :
  ∃ st', instagram_upload_photo sample_photo
           (sample_world breaks_midway (Return ok_status)) (initial ∅ ∅)
         = (Return (failure_report aborted), st')
         ∧ photo_path (sample_world breaks_midway (Return ok_status)) sample_photo
             ∈ files st'
         ∧ EvCreate (photo_path (sample_world breaks_midway (Return ok_status))
                       sample_photo) ∈ trace st'
         ∧ EvUnlink (photo_path (sample_world breaks_midway (Return ok_status))
                       sample_photo) ∉ trace st'.
Proof.
  apply (instagram_upload_photo_leaves_partial_file
           (sample_world breaks_midway (Return ok_status)) sample_photo ∅ ∅
           (lit "OK") aborted).
  - reflexivity.
  - by eexists.
  - reflexivity.
Defined.

Lemma instagram_get_timeline_never_returns_witness :
  (instagram_get_timeline 8 (sample_timeline 2)
     (sample_world downloads (Return ok_status)) (initial ∅ ∅)).1
  = Throw stack_overflow.
Proof.
  apply (proj2 (instagram_get_timeline_never_returns 8 (sample_timeline 2)
                  (sample_world downloads (Return ok_status)) (initial ∅ ∅)));
    reflexivity.
Defined.

Lemma instagram_upload_video_cleans_each_witness :
  let w := sample_world downloads (Throw (Error (lit "upload refused"))) in
  let st' := (instagram_upload_video sample_video w (initial ∅ ∅)).2 in
  (EvUnlink (video_path w sample_video) ∈ trace st'
   ∧ (w_unlink w (video_path w sample_video) = None →
      video_path w sample_video ∉ files st'))
  ∧ (completes (w_fetch w 1 (coverImageUrl sample_video)) = true →
     EvUnlink (cover_path w sample_video) ∈ trace st'
     ∧ (w_unlink w (cover_path w sample_video) = None →
        cover_path w sample_video ∉ files st')).
Proof.
  intros w st'.
  apply (instagram_upload_video_cleans_each w sample_video ∅ ∅
           (instagram_upload_video sample_video w (initial ∅ ∅)).1 st').
  - apply surjective_pairing.
  - reflexivity.
  - by eexists.
  - by eexists.
  - reflexivity.
Defined.

Lemma instagram_upload_video_leaves_partial_file_witness :
  let w := sample_world cover_breaks (Return ok_status) in
  ∃ st', instagram_upload_video sample_video w (initial ∅ ∅)
         = (Return (failure_report aborted), st')
         ∧ cover_path w sample_video ∈ files st'
         ∧ EvCreate (cover_path w sample_video) ∈ trace st'
         ∧ EvUnlink (cover_path w sample_video) ∉ trace st'
         ∧ EvUnlink (video_path w sample_video) ∈ trace st'.
Proof.
  intros w.
  assert (is_Some (w_url_pathname w (videoUrl sample_video))) as Hv
    by (by eexists).
  assert (is_Some (w_url_pathname w (coverImageUrl sample_video))) as Hc
    by (by eexists).
  exact (proj2 (instagram_upload_video_leaves_partial_file w sample_video ∅ ∅
                  (lit "OK") aborted eq_refl Hv Hc) eq_refl eq_refl).
Defined.

Lemma instagram_tools_credentials_witness :
  let w := sample_world downloads (Return ok_status) in
  run_tool sample_url_tool sample_call w (initial ∅ ∅)
  = (Throw (ZodError (lit "Required")), initial ∅ ∅).
Proof.
  intros w.
  assert (sample_url_tool ∈ url_instagramTools 8) as Ht.
  { do 2 apply list_elem_of_further. apply list_elem_of_here. }
  exact (proj1 (proj2 (proj1 (instagram_tools_credentials 8 sample_url_tool w
                        sample_call (initial ∅ ∅)) Ht))
           [(lit "userId", JStr (lit "42"))] (lit "user") (lit "secret") _
           eq_refl eq_refl eq_refl eq_refl).
Defined.

(** Credentials in the source that the tool does not read are of no use:
    on a machine whose environment holds credentials, the URL-based
    profile tool rejects a call without [username] and [password] with
    "Required"; given [username] and [password] in the call, the profile
    tool of [src/tools/instagramTools.ts] fails with the
    credentials-missing error on a machine whose environment holds none.
    And with neither source the URL-based tool fails with "Required", not
    with the credentials-missing error. *)
Lemma instagram_tools_credentials_single_source :
  let w := sample_world downloads (Return ok_status) in
  env_credentials (with_env sample_env w) = Some (lit "user", lit "secret")
  ∧ run_tool sample_url_tool sample_call (with_env sample_env w) (initial ∅ ∅)
    = (Throw (ZodError (lit "Required")), initial ∅ ∅)
  ∧ args_credentials sample_call_with_credentials
    = Some (JStr (lit "user"), JStr (lit "secret"))
  ∧ run_tool sample_tool sample_call_with_credentials w (initial ∅ ∅)
    = (Throw credentials_missing, initial ∅ ∅)
  ∧ run_tool sample_url_tool sample_call w (initial ∅ ∅)
    = (Throw (ZodError (lit "Required")), initial ∅ ∅).
Proof. intros w. split_and!; reflexivity. Qed.

(** ** More about the tools and the adapter *)

Lemma cleanupFile_returns p w st : ∃ st', cleanupFile p w st = (Return (), st').
Proof. rewrite cleanupFile_spec. by eexists. Qed.

Lemma cleanup_variable_returns x w st :
  ∃ st', cleanup_variable x w st = (Return (), st').
Proof.
  unfold cleanup_variable. rewrite bind_run. unfold read at 1. cbv beta iota.
  destruct (locals st !! x) as [[|c p]|]; try by eexists.
  apply cleanupFile_returns.
Qed.

(** A body that ends in [mret (f a)] returns values of the form [f a]. *)
Lemma bind_returns {A B} (m : M A) (k : A → M B) (P : B → Prop) w st :
  (∀ a w' st' b st'', k a w' st' = (Return b, st'') → P b) →
  ∀ b st', (m ≫= k) w st = (Return b, st') → P b.
Proof.
  intros Hk b st'. rewrite bind_run.
  destruct (m w st) as [[a|e] st1]; [|done]. apply Hk.
Qed.

Lemma reported_body {A} (body : M A) (cleanup : M unit) (report : exn → A)
  (P : A → Prop) w st :
  (∀ w st, ∃ st', cleanup w st = (Return (), st')) →
  (∀ a st', body w st = (Return a, st') → P a) →
  ∃ a st', try_finally (try_catch body (λ e, mret (report e))) cleanup w st
           = (Return a, st')
           ∧ ((∃ e, a = report e) ∨ P a).
Proof.
  intros Hclean Hbody. unfold try_finally, try_catch.
  destruct (body w st) as [[a|e] st1] eqn:Hrun.
  - destruct (Hclean w st1) as [st2 ->]. exists a, st2. split; [done|].
    right. by eapply Hbody.
  - cbn [mret M_ret]. destruct (Hclean w st1) as [st2 ->].
    exists (report e), st2. split; [done|]. left. by eexists.
Qed.

(** X1. The two upload tools never fail: whatever the login, the downloads,
    the upload and the removals do, the handler returns a text, which is
    either the failure report of an error or the success report of the
    upload. *)
Theorem upload_tools_always_report w st :
  (∀ args, ∃ text st',
     instagram_upload_photo args w st = (Return text, st')
     ∧ ((∃ e, text = failure_report e)
        ∨ ∃ result, text = success_report "Photo uploaded successfully" result))
  ∧ (∀ args, ∃ text st',
       instagram_upload_video args w st = (Return text, st')
       ∧ ((∃ e, text = failure_report e)
          ∨ ∃ result, text = success_report "Video uploaded successfully" result)).
Proof.
  split; intros args.
  - unfold instagram_upload_photo. rewrite bind_run. unfold declare_null at 1.
    cbv beta iota. apply reported_body.
    + intros. apply cleanup_variable_returns.
    + apply (bind_returns _ _ (λ a, ∃ result, a = success_report _ result)).
      intros ig w1 st1.
      repeat (apply (bind_returns _ _ (λ a, ∃ result, a = success_report _ result));
              intros ? ? ?).
      intros b st2 H. injection H as <- _. by eexists.
  - unfold instagram_upload_video.
    rewrite bind_run. unfold declare_null at 1. cbv beta iota.
    rewrite bind_run. unfold declare_null at 1. cbv beta iota.
    apply reported_body.
    + intros w' st'. rewrite bind_run.
      destruct (cleanup_variable_returns "localVideoPath" w' st') as [st1 ->].
      apply cleanup_variable_returns.
    + apply (bind_returns _ _ (λ a, ∃ result, a = success_report _ result)).
      intros ig w1 st1.
      repeat (apply (bind_returns _ _ (λ a, ∃ result, a = success_report _ result));
              intros ? ? ?).
      intros b st2 H. injection H as <- _. by eexists.
Qed.

(** X2. After a login that fails the upload tools report the error of the
    login and do nothing else: nothing is downloaded, no file is created
    or removed, and the login is the only external call. *)
Theorem upload_tools_stop_at_failed_login w st e :
  (∀ args, w_login w (photo_username args) (photo_password args) = Some e →
     ∃ st', instagram_upload_photo args w st = (Return (failure_report e), st')
            ∧ files st' = files st ∧ dirs st' = dirs st
            ∧ trace st' = trace st
                ++ [EvLogin (photo_username args) (photo_password args)])
  ∧ (∀ args, w_login w (video_username args) (video_password args) = Some e →
       ∃ st', instagram_upload_video args w st = (Return (failure_report e), st')
              ∧ files st' = files st ∧ dirs st' = dirs st
              ∧ trace st' = trace st
                  ++ [EvLogin (video_username args) (video_password args)]).
Proof.
  split; intros args Hlogin.
  - unfold instagram_upload_photo.
    rewrite bind_run. unfold declare_null at 1. cbv beta iota.
    unfold try_finally, try_catch. rewrite bind_run, login_spec, Hlogin.
    cbn [mret M_ret]. rewrite cleanup_variable_null
      by (cbn [locals add_events with_locals]; apply lookup_delete_eq).
    by eexists.
  - unfold instagram_upload_video.
    rewrite bind_run. unfold declare_null at 1. cbv beta iota.
    rewrite bind_run. unfold declare_null at 1. cbv beta iota.
    unfold try_finally, try_catch. rewrite bind_run, login_spec, Hlogin.
    cbn [mret M_ret]. rewrite bind_run.
    rewrite cleanup_variable_null.
    2:{ cbn [locals add_events with_locals].
        rewrite lookup_delete_ne by done. apply lookup_delete_eq. }
    rewrite cleanup_variable_null
      by (cbn [locals add_events with_locals]; apply lookup_delete_eq).
    by eexists.
Qed.

Lemma upload_tools_stop_at_failed_login_witness :
  ∃ st', instagram_upload_photo sample_photo
           (refusing (Error (lit "challenge_required"))
              (sample_world downloads (Return ok_status))) (initial ∅ ∅)
         = (Return (failure_report (Error (lit "challenge_required"))), st')
         ∧ files st' = ∅ ∧ dirs st' = ∅
         ∧ trace st' = [] ++ [EvLogin (lit "user") (lit "secret")].
Proof.
  apply (proj1 (upload_tools_stop_at_failed_login
                  (refusing (Error (lit "challenge_required"))
                     (sample_world downloads (Return ok_status)))
                  (initial ∅ ∅) (Error (lit "challenge_required"))) sample_photo).
  reflexivity.
Defined.

(** X3. [instagram_get_profile] has no [try]: it fails with the error of the
    login, without asking for the user, or with the error of the lookup;
    otherwise it returns the JSON text of what the lookup gave, after
    exactly these two calls. *)
Theorem instagram_get_profile_spec args w st :
  instagram_get_profile args w st =
  match w_login w (profile_username args) (profile_password args) with
  | Some e =>
      (Throw e,
       add_events [EvLogin (profile_username args) (profile_password args)] st)
  | None =>
      (match w_user_info w (userId args) with
       | Return info => Return (JSON_stringify info)
       | Throw e => Throw e
       end,
       add_events [EvLogin (profile_username args) (profile_password args);
                   EvUserInfo (userId args)] st)
  end.
Proof.
  unfold instagram_get_profile. rewrite bind_run, login_spec.
  destruct (w_login w _ _) as [e|]; [done|].
  unfold getProfile. rewrite !bind_run, emit_run, bind_run, ask_run, lift_run.
  destruct (w_user_info w (userId args)); cbn [mret M_ret];
    by unfold add_events; cbn [files dirs locals feed_items trace];
       rewrite <- app_assoc.
Qed.

(** X4. The tool of [src/tools/instagramTools.ts] that reads the timeline
    never returns a result, whatever the environment, the limit and the
    feed: it calls the [getTimelineFeed] whose closure calls itself. *)
Theorem env_instagram_get_timeline_never_returns depth args w st :
  is_return (EnvTools.instagram_get_timeline depth args w st).1 = false.
Proof.
  unfold EnvTools.instagram_get_timeline.
  rewrite bind_run, getCredentials_spec.
  destruct (env_credentials w) as [[u p]|]; [|done].
  rewrite bind_run, login_spec. destruct (w_login w u p); [done|].
  rewrite bind_run.
  by destruct (getTimelineFeed_throws depth {| user := u |} (EnvTools.limit args)
                 w (add_events [EvLogin u p] st)) as (e & st' & -> & _).
Qed.

(** X5. A download that is refused, by the network or by a status that is not
    a success, fails before the staging directory or the file is touched;
    the error of a refused status carries the status text. *)
Theorem downloadFile_refused url name w st :
  match w_fetch w (fetches st) url with
  | NetworkFailure e =>
      downloadFile url name w st = (Throw e, add_events [EvFetch url] st)
  | Response false statusText _ =>
      downloadFile url name w st
      = (Throw (Error (lit "Failed to download file: " ++ statusText)),
         add_events [EvFetch url] st)
  | Response true _ _ => True
  end.
Proof.
  unfold downloadFile, fetch, fetches. run_sys.
  by destruct (w_fetch w _ url) as [e|[] statusText body].
Qed.



(** X7. [cleanupFile] never fails, and asks for a removal only of what
    exists: on a path that does not exist it does nothing at all; when the
    removal succeeds the file is gone; when it fails the failure is
    swallowed and the file stays. *)
Theorem cleanupFile_safe p w st :
  ∃ st', cleanupFile p w st = (Return (), st')
         ∧ (p ∉ files st → p ∉ dirs st → st' = st)
         ∧ (w_unlink w p = None → p ∉ files st')
         ∧ (w_unlink w p ≠ None → files st' = files st)
         ∧ dirs st' = dirs st.
Proof.
  rewrite cleanupFile_spec. eexists. split; [done|].
  case_bool_decide as Hex.
  - destruct (w_unlink w p) as [e|]; sys_simpl; split_and!;
      try done; try tauto; set_solver.
  - split_and!; try done. intros _. tauto.
Qed.

(** X8. [getCredentials] gives the two variables exactly when both are set and
    neither is the empty string; in every other case it fails with
    "Instagram credentials not provided". It changes nothing. *)
Theorem getCredentials_iff w st :
  (∀ u p,
     EnvTools.getCredentials w st = (Return (u, p), st)
     ↔ w_env w !! lit "IG_USERNAME" = Some u
       ∧ w_env w !! lit "IG_PASSWORD" = Some p ∧ u ≠ [] ∧ p ≠ [])
  ∧ ((∀ u p, ¬ (w_env w !! lit "IG_USERNAME" = Some u
                ∧ w_env w !! lit "IG_PASSWORD" = Some p ∧ u ≠ [] ∧ p ≠ [])) →
     EnvTools.getCredentials w st
     = (Throw (Error (lit "Instagram credentials not provided")), st)).
Proof.
  unfold EnvTools.getCredentials. run_sys.
  destruct (w_env w !! lit "IG_USERNAME") as [[|c u0]|];
    destruct (w_env w !! lit "IG_PASSWORD") as [[|d p0]|];
    (split; [intros u p; split; [intros [=]|intros (? & ? & ? & ?)]|intros Hno]);
    try done; naive_solver.
Qed.

(** X9. The adapter reads the files before it publishes: when a file to
    upload does not exist, [uploadPhoto] and [uploadVideo] fail and nothing
    is published. *)
Theorem upload_needs_files ig w st :
  (∀ p cap, p ∉ files st →
     ∃ e st', uploadPhoto ig p cap w st = (Throw e, st')
              ∧ EvPublishPhoto p ∉ drop (length (trace st)) (trace st'))
  ∧ (∀ video cover cap, video ∉ files st ∨ cover ∉ files st →
       ∃ e st', uploadVideo ig video cover cap w st = (Throw e, st')
                ∧ EvPublishVideo video cover
                    ∉ drop (length (trace st)) (trace st')).
Proof.
  split.
  - intros p cap Hp. unfold uploadPhoto, readFile. run_sys. sys_simpl.
    rewrite bool_decide_eq_false_2 by done. eexists _, _. split; [done|].
    sys_simpl. rewrite drop_app_length. set_solver.
  - intros video cover cap Hmiss. unfold uploadVideo, readFile. run_sys. sys_simpl.
    case_bool_decide as Hv; [case_bool_decide as Hc; [tauto|]|];
      eexists _, _; (split; [done|]); sys_simpl;
      rewrite <- ?app_assoc, drop_app_length; set_solver.
Qed.

Lemma upload_needs_files_witness :
  ∃ e st', uploadPhoto {| user := lit "user" |} (lit "/tmp/none.png") None
             (sample_world downloads (Return ok_status)) (initial ∅ ∅)
           = (Throw e, st')
           ∧ EvPublishPhoto (lit "/tmp/none.png")
               ∉ drop (length (trace (initial ∅ ∅))) (trace st').
Proof.
  apply (proj1 (upload_needs_files {| user := lit "user" |}
                  (sample_world downloads (Return ok_status)) (initial ∅ ∅))).
  set_solver.
Defined.

Lemma compare_Z_le_lt x a :
  (Z_le a x = true → lt_Z x a = false) ∧ (le_Z x a = true → Z_lt a x = false).
Proof.
  unfold Z_le, lt_Z, le_Z, Z_lt. by destruct (compare_Z x a) as [[]|].
Qed.

(** What the schema of [limit] lets through. *)
Lemma limit_schema_Return arg x :
  limit_schema arg = Return x ↔
  (arg = None ∧ x = of_Z 10)
  ∨ (arg = Some (JNum x) ∧ isInteger x = true
     ∧ Z_le 1 x = true ∧ le_Z x 50 = true).
Proof.
  unfold limit_schema, z_default, z_max, z_min, z_int, z_number.
  destruct arg as [v|].
  - split.
    + destruct v as [| |[neg m e|neg|]| | |]; try done; cbn [mbind outcome_bind].
      destruct (isInteger _) eqn:Hi; [|done]. cbn [mbind outcome_bind].
      destruct (Z_le 1 _) eqn:H1; [|done]. cbn [mbind outcome_bind].
      destruct (le_Z _ 50) eqn:H2; [|done]. intros [= <-]. by right.
    + intros [[? _]|([= ->] & Hi & H1 & H2)]; [done|].
      destruct x as [neg m e|neg|]; try done. cbn [mbind outcome_bind].
      rewrite Hi. cbn [mbind outcome_bind]. rewrite H1. cbn [mbind outcome_bind].
      by rewrite H2.
  - split; [intros H; left; split; [done|]|by intros [[_ ->]|[? _]]].
    by vm_compute in H; injection H as <-.
Qed.

(** X10. The schema of [limit]: absent, the limit is 10; given, it must be a
    number that is an integer between 1 and 50, and is taken as it is;
    everything else is rejected. *)
Theorem limit_schema_spec :
  limit_schema None = Return (of_Z 10)
  ∧ (∀ v x, limit_schema (Some v) = Return x ↔
       v = JNum x ∧ isInteger x = true ∧ Z_le 1 x = true ∧ le_Z x 50 = true)
  ∧ (∀ n : Z, limit_schema (Some (JNum (of_Z n))) = Return (of_Z n)
              ↔ (1 ≤ n ≤ 50)%Z).
Proof.
  split_and!.
  - by apply limit_schema_Return; left.
  - intros v x. rewrite limit_schema_Return. split.
    + intros [[? _]|([= ->] & ?)]; [done|]. done.
    + intros (-> & ?). by right.
  - intros n. rewrite limit_schema_Return, isInteger_of_Z, Z_le_of_Z, le_Z_of_Z.
    rewrite !bool_decide_eq_true. split; [intros [[? _]|(_ & _ & ? & ?)]; [done|lia]|].
    intros [? ?]. right. by split_and!.
Qed.

(** X11. For a limit that passed the schema the checks the handler makes
    itself change nothing: the limit is not replaced by 10 and "Limit must
    be an integer" is never thrown. The handler is the login, the call of
    the adapter with the limit as given, and the reply. *)
Theorem instagram_get_timeline_checks_are_idle
  (getTimelineFeed : session → number → M (list value)) args arg w st :
  limit_schema arg = Return (limit args) →
  instagram_get_timeline_with getTimelineFeed args w st
  = (ig ← login (timeline_username args) (timeline_password args);
     result ← getTimelineFeed ig (limit args);
     mret (timeline_reply (limit args) result)) w st.
Proof.
  intros Hs.
  assert (isInteger (limit args) = true ∧ Z_le 1 (limit args) = true
          ∧ le_Z (limit args) 50 = true) as (Hi & H1 & H2).
  { apply limit_schema_Return in Hs as [[_ ->]|(_ & ?)]; [|done].
    by vm_compute. }
  unfold instagram_get_timeline_with.
  rewrite (proj1 (compare_Z_le_lt _ _) H1), (proj2 (compare_Z_le_lt _ _) H2).
  cbn [orb]. rewrite Hi. cbn [negb].
  rewrite !bind_run. destruct (login _ _ w st) as [[ig|e] st1]; [|done].
  by rewrite bind_run, skip_run.
Qed.

Lemma instagram_get_timeline_checks_are_idle_witness :
  instagram_get_timeline_with getTimelineFeed_unsliced (sample_timeline 2)
    (sample_world downloads (Return ok_status)) (initial ∅ ∅)
  = (ig ← login (timeline_username (sample_timeline 2))
            (timeline_password (sample_timeline 2));
     result ← getTimelineFeed_unsliced ig (limit (sample_timeline 2));
     mret (timeline_reply (limit (sample_timeline 2)) result))
      (sample_world downloads (Return ok_status)) (initial ∅ ∅).
Proof.
  exact (instagram_get_timeline_checks_are_idle getTimelineFeed_unsliced
           (sample_timeline 2) (Some (JNum (of_Z 2)))
           (sample_world downloads (Return ok_status)) (initial ∅ ∅) eq_refl).
Defined.

Lemma instagram_upload_photo_cleans_witness :
  let w := sample_world downloads (Return ok_status) in
  let st' := (instagram_upload_photo sample_photo w (initial ∅ ∅)).2 in
  files st' ⊆ ∅
  ∧ (EvCreate (photo_path w sample_photo) ∈ trace st' →
     photo_path w sample_photo ∉ files st').
Proof.
  intros w st'.
  apply (instagram_upload_photo_cleans w sample_photo ∅ ∅
           (instagram_upload_photo sample_photo w (initial ∅ ∅)).1 st').
  - apply surjective_pairing.
  - intros t e. discriminate.
  - reflexivity.
Defined.

Lemma instagram_get_timeline_unsliced_witness :
  let items := [JNum (of_Z 1); JNum (of_Z 2); JNum (of_Z 3)] in
  (instagram_get_timeline_with getTimelineFeed_unsliced (sample_timeline 2)
     (sample_world downloads (Return ok_status)) (initial ∅ ∅)).1
  = Return (JSON_stringify (JArr (take (Z.to_nat 2 `min` length items) items)))
  ∧ length (take (Z.to_nat 2 `min` length items) items)
    = Z.to_nat 2 `min` length items.
Proof.
  intros items.
  apply (instagram_get_timeline_unsliced 2 (sample_timeline 2) items
           (sample_world downloads (Return ok_status)) (initial ∅ ∅)).
  - lia.
  - reflexivity.
  - reflexivity.
  - reflexivity.
Defined.





(** X30. The upload tools of [src/tools/instagramTools.ts] work on the
    caller's own files and leave them alone: whatever happens, no file or
    directory is created or removed; an error is thrown, not reported;
    and the tool publishes only with credentials in the environment, after
    a login that succeeded, and when every file it was given exists. *)
Theorem env_upload_tools_keep_files w st :
  (∀ args r st',
     EnvTools.instagram_upload_photo args w st = (r, st') →
     files st' = files st ∧ dirs st' = dirs st
     ∧ (EvPublishPhoto (EnvTools.filePath args)
          ∈ drop (length (trace st)) (trace st') →
        (∃ u p, env_credentials w = Some (u, p) ∧ w_login w u p = None)
        ∧ EnvTools.filePath args ∈ files st
        ∧ r = match w_publish_photo w (EnvTools.photo_caption args) with
              | Return result => Return (JSON_stringify (JObj result))
              | Throw e => Throw e
              end))
  ∧ (∀ args r st',
       EnvTools.instagram_upload_video args w st = (r, st') →
       files st' = files st ∧ dirs st' = dirs st
       ∧ (EvPublishVideo (EnvTools.videoPath args) (EnvTools.coverImagePath args)
            ∈ drop (length (trace st)) (trace st') →
          (∃ u p, env_credentials w = Some (u, p) ∧ w_login w u p = None)
          ∧ EnvTools.videoPath args ∈ files st
          ∧ EnvTools.coverImagePath args ∈ files st
          ∧ r = match w_publish_video w (EnvTools.video_caption args) with
                | Return result => Return (JSON_stringify (JObj result))
                | Throw e => Throw e
                end)).
Proof.
  split; intros args r st'.
  - unfold EnvTools.instagram_upload_photo.
    rewrite bind_run, getCredentials_spec.
    destruct (env_credentials w) as [[u p]|] eqn:Hcred.
    2:{ intros [= <- <-]. split_and!; try done.
        rewrite drop_ge by done. by intros ?%not_elem_of_nil. }
    rewrite bind_run, login_spec.
    destruct (w_login w u p) as [e|] eqn:Hlogin.
    { intros [= <- <-]. split_and!; try done. sys_simpl.
      rewrite drop_app_length. set_solver. }
    unfold uploadPhoto, readFile. run_sys. sys_simpl.
    case_bool_decide as Hfile.
    + destruct (w_publish_photo w _) as [result|e]; intros [= <- <-];
        sys_simpl; (split_and!; try done); intros _; split_and!; try done;
        by exists u, p.
    + intros [= <- <-]. sys_simpl. split_and!; try done.
      rewrite <- ?app_assoc, drop_app_length. set_solver.
  - unfold EnvTools.instagram_upload_video.
    rewrite bind_run, getCredentials_spec.
    destruct (env_credentials w) as [[u p]|] eqn:Hcred.
    2:{ intros [= <- <-]. split_and!; try done.
        rewrite drop_ge by done. by intros ?%not_elem_of_nil. }
    rewrite bind_run, login_spec.
    destruct (w_login w u p) as [e|] eqn:Hlogin.
    { intros [= <- <-]. split_and!; try done. sys_simpl.
      rewrite drop_app_length. set_solver. }
    unfold uploadVideo, readFile. run_sys. sys_simpl.
    case_bool_decide as Hvideo; [case_bool_decide as Hcover|].
    + destruct (w_publish_video w _) as [result|e]; intros [= <- <-];
        sys_simpl; (split_and!; try done); intros _; split_and!; try done;
        by exists u, p.
    + intros [= <- <-]. sys_simpl. split_and!; try done.
      rewrite <- ?app_assoc, drop_app_length. set_solver.
    + intros [= <- <-]. sys_simpl. split_and!; try done.
      rewrite <- ?app_assoc, drop_app_length. set_solver.
Qed.

End InstagramFacts.
